(** * SHACL-Generator: a shallow embedding of [SHACL_Generator.py]

    The program is a three-step Tk wizard around an LLM client, plus two
    string-cleaning helpers built from [re.sub] / [re.search] calls.  The
    embedding has these layers:

    - [Py]     : Python [str] values (sequences of code points), [str.strip],
                 [str.split], and exceptions;
    - [Re]     : the backtracking semantics of the [re] patterns the program
                 uses, with [re.sub], [re.findall] and [re.search];
    - [Shacl]  : [validate_shacl] and [auto_correct_shacl];
    - [Client] : [OpenAIClient];
    - [Wizard] : the [Application] handlers.

    External services (the chat-completion endpoint, the Turtle parser and
    the SHACL validator) are parameters of the development. *)

From Stdlib Require Import List ZArith NArith Bool Lia Ascii.
From Stdlib Require String DecimalString.
Import ListNotations.
Import String.StringSyntax.

Open Scope string_scope.
Open Scope list_scope.

Set Implicit Arguments.

(* ================================================================== *)
(** ** Python strings *)

Module Py.

(** A Python [str] is a sequence of Unicode code points. *)
Definition char := N.
Definition str := list char.

Definition ch (a : ascii) : char := N_of_ascii a.
Definition lit (s : String.string) : str := map N_of_ascii (String.list_ascii_of_string s).

Definition nl : char := 10%N.       (* newline *)
Definition dquote : char := 34%N.   (* the double quote *)
Definition backtick : char := 96%N. (* the backtick *)

Definition char_eqb (a b : char) : bool := N.eqb a b.

Fixpoint str_eqb (a b : str) : bool :=
  match a, b with
  | [], [] => true
  | x :: a', y :: b' => char_eqb x y && str_eqb a' b'
  | _, _ => false
  end.

Definition in_range (lo hi c : char) : bool := (N.leb lo c) && (N.leb c hi).

(** The part of the Unicode character database the program depends on and
    that is not written out here: [str.isalnum] above the ASCII range
    (used by [\w]) and [str.lower]. *)
Class Unicode := {
  uni_isalnum : char -> bool;
  str_lower : str -> str
}.

(** [Py_UNICODE_ISSPACE]: the class of [\s] in a [str] pattern and the
    characters removed by [str.strip()]. *)
Definition isspace (c : char) : bool :=
  (in_range 9 13 c || in_range 28 32 c || N.eqb c 133 || N.eqb c 160
   || N.eqb c 5760 || in_range 8192 8202 c || N.eqb c 8232 || N.eqb c 8233
   || N.eqb c 8239 || N.eqb c 8287 || N.eqb c 12288)%N.

Definition ascii_alnum (c : char) : bool :=
  (in_range 48 57 c || in_range 65 90 c || in_range 97 122 c)%N.

(** The class of [\w] in a [str] pattern. *)
Definition isword `{Unicode} (c : char) : bool :=
  (if N.ltb c 128 then ascii_alnum c else uni_isalnum c) || N.eqb c 95%N.

(** [str.strip()] *)
Fixpoint lstrip (s : str) : str :=
  match s with
  | c :: t => if isspace c then lstrip t else s
  | [] => []
  end.

Definition rstrip (s : str) : str := rev (lstrip (rev s)).
Definition strip (s : str) : str := rstrip (lstrip s).

(** [s.startswith(p)], returning what follows the prefix. *)
Fixpoint strip_prefix (p s : str) : option str :=
  match p, s with
  | [], _ => Some s
  | a :: p', b :: s' => if char_eqb a b then strip_prefix p' s' else None
  | _ :: _, [] => None
  end.

(** [s.split(sep)] for a non-empty separator: left-to-right,
    non-overlapping occurrences. *)
Fixpoint split_go (sep : str) (s : str) (skip : nat) (cur : str) : list str :=
  match s with
  | [] => [rev cur]
  | c :: t =>
      match skip with
      | S j => split_go sep t j cur
      | O =>
          match strip_prefix sep s with
          | Some _ => rev cur :: split_go sep t (length sep - 1) []
          | None => split_go sep t 0 (c :: cur)
          end
      end
  end.

Definition split (sep s : str) : list str := split_go sep s 0 [].

(** Decimal rendering of an [int], as an f-string does it. *)
Definition str_of_Z (z : Z) : str :=
  lit (DecimalString.NilZero.string_of_int (Z.to_int z)).

(** Exceptions: the class name and [str(e)]. *)
Record exn := Exn { exn_class : String.string; exn_msg : str }.

(** The outcome of running a piece of Python: a value or a raised
    exception. *)
Inductive result (A : Type) :=
| Ok (a : A)
| Raise (e : exn).
Arguments Ok {A} a.
Arguments Raise {A} e.

End Py.

Import Py.

(* ================================================================== *)
(** ** The [re] module

    Patterns are syntax trees; matching is Python's backtracking search:
    alternatives are tried left to right, a greedy repetition tries one
    more iteration before stopping and a lazy one stops before iterating,
    and the first complete match found in that order is the result. *)

Module Re.

Inductive regex :=
| Eps                                   (* the empty pattern *)
| Cls (p : char -> bool)                (* one character of a class *)
| Seq (r1 r2 : regex)                   (* r1 r2 *)
| Alt (r1 r2 : regex)                   (* r1|r2 *)
| Star (greedy : bool) (r : regex)      (* r* and r*? *)
| Group (n : nat) (r : regex)           (* capturing group number n *)
| NotBehind (p : char -> bool).         (* (?<![p]) one-character negative lookbehind *)

Definition Chr (c : char) : regex := Cls (char_eqb c).
Definition Plus (greedy : bool) (r : regex) : regex := Seq r (Star greedy r).
Definition Opt (r : regex) : regex := Alt r Eps.        (* r? *)

(** A literal string: its characters in sequence. *)
Fixpoint Lit (s : str) : regex :=
  match s with
  | [] => Eps
  | c :: t => Seq (Chr c) (Lit t)
  end.

(** The position of the matcher in the subject: the character just
    before it (for lookbehind), what is still ahead, and the groups
    captured so far. *)
Record mstate := MState {
  prev : option char;
  rest : str;
  groups : list (nat * str)
}.

Definition set_group (n : nat) (v : str) (g : list (nat * str)) : list (nat * str) :=
  (n, v) :: filter (fun e => negb (Nat.eqb (fst e) n)) g.

Fixpoint get_group (n : nat) (g : list (nat * str)) : option str :=
  match g with
  | [] => None
  | (m, v) :: g' => if Nat.eqb m n then Some v else get_group n g'
  end.

(** The text between two positions of the same subject. *)
Definition consumed (from to : str) : str :=
  firstn (length from - length to) from.

(** The loop of a repetition whose body is matched by [body]. A greedy
    loop tries one more iteration before the continuation, a lazy one the
    continuation first. An iteration that consumed nothing is given up, so
    the loop runs at most once per remaining character and [fuel], one
    more than their number, is never used up. *)
Fixpoint star_loop (body : (mstate -> option mstate) -> mstate -> option mstate)
    (k : mstate -> option mstate) (greedy : bool) (fuel : nat) (s : mstate)
  : option mstate :=
  match fuel with
  | O => k s
  | S fuel' =>
      let again (s' : mstate) :=
        if Nat.ltb (length (rest s')) (length (rest s))
        then star_loop body k greedy fuel' s' else None in
      if greedy then
        match body again s with
        | Some m => Some m
        | None => k s
        end
      else
        match k s with
        | Some m => Some m
        | None => body again s
        end
  end.

(** [go r k s]: match [r] at [s] and continue with [k]; [None] makes the
    matcher backtrack. *)
Fixpoint go (r : regex) (k : mstate -> option mstate) (s : mstate) : option mstate :=
  match r with
  | Eps => k s
  | Cls p =>
      match rest s with
      | c :: t => if p c then k (MState (Some c) t (groups s)) else None
      | [] => None
      end
  | Seq r1 r2 => go r1 (go r2 k) s
  | Alt r1 r2 =>
      match go r1 k s with
      | Some m => Some m
      | None => go r2 k s
      end
  | Star greedy r1 => star_loop (go r1) k greedy (S (length (rest s))) s
  | Group n r1 =>
      go r1 (fun s' =>
               k (MState (prev s') (rest s')
                         (set_group n (consumed (rest s) (rest s')) (groups s')))) s
  | NotBehind p =>
      match prev s with
      | Some c => if p c then None else k s
      | None => k s
      end
  end.

(** A match object: [group(0)] and the numbered groups. *)
Record rmatch := RMatch {
  whole : str;
  captures : list (nat * str);
  after : str        (* the subject from the end of the match on *)
}.

Definition group (m : rmatch) (n : nat) : str :=
  match n with
  | O => whole m
  | _ => match get_group n (captures m) with Some v => v | None => [] end
  end.

(** One attempt at one position. [must_advance] is the engine's flag
    that refuses an empty match right after an empty match. *)
Definition match_at (r : regex) (must_advance : bool) (pv : option char) (s : str)
  : option rmatch :=
  let final (s' : mstate) :=
    if must_advance && Nat.eqb (length (rest s')) (length s) then None else Some s' in
  match go r final (MState pv s []) with
  | Some s' => Some (RMatch (consumed s (rest s')) (groups s') (rest s'))
  | None => None
  end.

(** The subject cut into the matches found from left to right and the
    characters between them, as [finditer] walks it. [skip] counts the
    characters still covered by the last match. *)
Inductive piece :=
| Text (c : char)
| Found (m : rmatch).

Fixpoint scan (r : regex) (pv : option char) (s : str) (skip : nat) : list piece :=
  match skip, s with
  | S j, c :: t => scan r (Some c) t j
  | S _, [] => []
  | O, _ =>
      let step :=
        match s with
        | c :: t => Text c :: scan r (Some c) t 0
        | [] => []
        end in
      let cover (m : rmatch) :=
        match s with
        | c :: t => scan r (Some c) t (length (whole m) - 1)
        | [] => []
        end in
      match match_at r false pv s with
      | None => step
      | Some m =>
          Found m ::
          match whole m with
          | _ :: _ => cover m
          | [] =>
              match match_at r true pv s with
              | Some m2 => Found m2 :: cover m2
              | None => step
              end
          end
      end
  end.

Definition finditer (r : regex) (s : str) : list rmatch :=
  flat_map (fun p => match p with Found m => [m] | Text _ => [] end) (scan r None s 0).

(** [re.search(r, s)] *)
Definition search (r : regex) (s : str) : option rmatch := hd_error (finditer r s).

(** [re.sub(r, repl, s)], the replacement given as a function of the
    match. *)
Definition sub (r : regex) (repl : rmatch -> str) (s : str) : str :=
  flat_map (fun p => match p with Found m => repl m | Text c => [c] end) (scan r None s 0).

(** [re.findall(r, s)] for a pattern with one group, and with two. *)
Definition findall1 (r : regex) (s : str) : list str :=
  map (fun m => group m 1) (finditer r s).

Definition findall2 (r : regex) (s : str) : list (str * str) :=
  map (fun m => (group m 1, group m 2)) (finditer r s).

(** *** Notions used to state properties of matching *)

(** A sequence of character classes; [Lit] is the case of singletons. *)
Fixpoint Classes (ps : list (char -> bool)) : regex :=
  match ps with
  | [] => Eps
  | p :: ps' => Seq (Cls p) (Classes ps')
  end.

(** [s] starts with one character of each class in turn; what follows. *)
Fixpoint match_classes (ps : list (char -> bool)) (s : str) : option str :=
  match ps, s with
  | [], _ => Some s
  | p :: ps', c :: t => if p c then match_classes ps' t else None
  | _ :: _, [] => None
  end.

(** The character before the position reached by reading [read]. *)
Definition prev_after (read : str) (pv : option char) : option char :=
  fold_left (fun _ c => Some c) read pv.

Fixpoint takewhile (p : char -> bool) (s : str) : str :=
  match s with
  | c :: t => if p c then c :: takewhile p t else []
  | [] => []
  end.

Fixpoint dropwhile (p : char -> bool) (s : str) : str :=
  match s with
  | c :: t => if p c then dropwhile p t else s
  | [] => []
  end.

(** The class of the first character of every match of a pattern, for
    the patterns that start with a character. *)
Fixpoint first_class (r : regex) : option (char -> bool) :=
  match r with
  | Cls p => Some p
  | Seq r1 _ => first_class r1
  | Group _ r1 => first_class r1
  | _ => None
  end.

(** The first position of [s], from the left, at which [r] matches. *)
Fixpoint first_match (r : regex) (pv : option char) (s : str) : option rmatch :=
  match match_at r false pv s with
  | Some m => Some m
  | None =>
      match s with
      | [] => None
      | c :: t => first_match r (Some c) t
      end
  end.

(** A lazy repetition of any character, without its fuel: the first
    position from here on at which the continuation succeeds. *)
Fixpoint first_suffix (k : mstate -> option mstate) (pv : option char) (s : str)
    (g : list (nat * str)) : option mstate :=
  match k (MState pv s g) with
  | Some m => Some m
  | None =>
      match s with
      | [] => None
      | c :: t => first_suffix k (Some c) t g
      end
  end.

(** A greedy repetition of a class, without its fuel: the continuation
    is tried after the longest run first, then after shorter ones. *)
Fixpoint greedy_try (q : char -> bool) (k : mstate -> option mstate)
    (pv : option char) (s : str) (g : list (nat * str)) : option mstate :=
  match s with
  | c :: t =>
      if q c then
        match greedy_try q k (Some c) t g with
        | Some m => Some m
        | None => k (MState pv s g)
        end
      else k (MState pv s g)
  | [] => k (MState pv s g)
  end.

Definition render (repl : rmatch -> str) (p : piece) : str :=
  match p with
  | Found m => repl m
  | Text c => [c]
  end.

End Re.

(* ================================================================== *)
(** ** Effects

    A handler runs against the object it mutates (a state of type [S]) and
    leaves a trace of its calls to the outside world. It either returns a
    value or raises; in both cases the state and the trace are as the
    handler left them. *)

Module Eff.

Record message := Message { role : str; content : str }.

(** The outside world: the chat-completion endpoint (whose answer may
    differ from one request to the next, so it is indexed by the number of
    requests made before), the Turtle parser of [rdflib] and the validator
    of [pyshacl]. *)
Class Services := {
  graph : Type;
  chat_create : nat -> list message -> result str;
  turtle_parse : str -> result graph;
  shacl_validate : graph -> result (bool * graph * str)
}.

Inductive event :=
| EChat (messages : list message) (answer : result str)
| ESleep (seconds : Z)
| ELogInfo (msg : str)
| ELogError (msg : str)
| EParse (data : str) (ok : bool)
| EValidate (ok : bool)
| EWarning (title msg : str).

Definition trace := list event.

Definition M (S A : Type) : Type := S -> trace -> result A * S * trace.

Definition ret {S A} (a : A) : M S A := fun st tr => (Ok a, st, tr).
Definition raise {S A} (e : exn) : M S A := fun st tr => (Raise e, st, tr).

Definition bind {S A B} (c : M S A) (k : A -> M S B) : M S B :=
  fun st tr =>
    match c st tr with
    | (Ok a, st', tr') => k a st' tr'
    | (Raise e, st', tr') => (Raise e, st', tr')
    end.

(** [try: body except Exception as e: handler e] *)
Definition try_except {S A} (body : M S A) (handler : exn -> M S A) : M S A :=
  fun st tr =>
    match body st tr with
    | (Ok a, st', tr') => (Ok a, st', tr')
    | (Raise e, st', tr') => handler e st' tr'
    end.

Definition get {S} : M S S := fun st tr => (Ok st, st, tr).
Definition put {S} (st : S) : M S unit := fun _ tr => (Ok tt, st, tr).
Definition modify {S} (f : S -> S) : M S unit := fun st tr => (Ok tt, f st, tr).
Definition emit {S} (e : event) : M S unit := fun st tr => (Ok tt, st, tr ++ [e]).

(** Run a method of a component on the field that holds it. *)
Definition zoom {S T A} (proj : S -> T) (inj : T -> S -> S) (c : M T A) : M S A :=
  fun st tr =>
    match c (proj st) tr with
    | (r, t', tr') => (r, inj t' st, tr')
    end.

(** Turn the answer of a library call into a return or a raise. *)
Definition of_result {S A} (r : result A) : M S A :=
  match r with
  | Ok a => ret a
  | Raise e => raise e
  end.

Definition is_ok {A} (r : result A) : bool :=
  match r with Ok _ => true | Raise _ => false end.

Definition is_chat (e : event) : bool :=
  match e with EChat _ _ => true | _ => false end.

Definition chat_count (tr : trace) : nat := length (filter is_chat tr).

Section Calls.
Context {Sv : Services} {S : Type}.

(** [client.chat.completions.create(...)] followed by
    [response.choices[0].message.content]. The content is taken to be a
    string: a reply whose content is [None], which the client library
    allows, is not covered by this development. *)
Definition call_chat (messages : list message) : M S str :=
  fun st tr =>
    let answer := chat_create (chat_count tr) messages in
    of_result answer st (tr ++ [EChat messages answer]).

(** [g = Graph(); g.parse(data=doc, format="turtle")] *)
Definition call_parse (doc : str) : M S graph :=
  fun st tr =>
    let answer := turtle_parse doc in
    of_result answer st (tr ++ [EParse doc (is_ok answer)]).

(** [validate(data_graph=g, shacl_graph=None, inference='rdfs')] *)
Definition call_validate (g : graph) : M S (bool * graph * str) :=
  fun st tr =>
    let answer := shacl_validate g in
    of_result answer st (tr ++ [EValidate (is_ok answer)]).

End Calls.

End Eff.

Import Eff.

Notation "x <- c ;; k" := (bind c (fun x => k))
  (at level 61, c at next level, right associativity).
Notation "c ;;; k" := (bind c (fun _ => k))
  (at level 61, right associativity).

(* ================================================================== *)
(** ** [validate_shacl] and [auto_correct_shacl] *)

Module Shacl.
Import Re.

Definition line (s : String.string) : str := lit s ++ [nl].

(** A character of a pattern compiled with [re.IGNORECASE]: an ASCII
    letter matches both of its cases, and [i], [s], [k] also match the
    four letters Unicode folds onto them. *)
Definition ignorecase (c x : char) : bool :=
  (char_eqb x c
   || (in_range 97 122 c && char_eqb x (c - 32))
   || (in_range 65 90 c && char_eqb x (c + 32))
   || ((char_eqb c 105 || char_eqb c 73) && (char_eqb x 304 || char_eqb x 305))
   || ((char_eqb c 115 || char_eqb c 83) && char_eqb x 383)
   || ((char_eqb c 107 || char_eqb c 75) && char_eqb x 8490))%N.

Fixpoint LitI (s : str) : regex :=
  match s with
  | [] => Eps
  | c :: t => Seq (Cls (ignorecase c)) (LitI t)
  end.

Section Patterns.
Context {U : Unicode}.

(** [\s] and [.] (without DOTALL) *)
Definition space : regex := Cls isspace.
Definition not_newline (c : char) : bool := negb (char_eqb c nl).
Definition dot : regex := Cls not_newline.

(** The characters kept by the first substitution: the complement of
    the negated set of its pattern, [@ ; \w \s : [ ] { } ( ) < > = . - / ]
    and the double quote. *)
Definition turtle_char (c : char) : bool :=
  char_eqb c (ch "@") || char_eqb c (ch ";") || isword c || isspace c
  || char_eqb c (ch ":") || char_eqb c (ch "[") || char_eqb c (ch "]")
  || char_eqb c (ch "{") || char_eqb c (ch "}") || char_eqb c (ch "(")
  || char_eqb c (ch ")") || char_eqb c (ch "<") || char_eqb c (ch ">")
  || char_eqb c (ch "=") || char_eqb c (ch ".") || char_eqb c (ch "-")
  || char_eqb c dquote || char_eqb c (ch "/").

(** The five patterns of the cleaning steps, in the order of use. *)
Definition non_turtle : regex :=
  Plus true (Cls (fun c => negb (turtle_char c))).

Definition blank_lines : regex :=
  Seq (Chr nl) (Seq (Star true space) (Chr nl)).

Definition fence_tagged : regex :=
  Seq (Lit (lit "```"))
      (Seq (Opt (Group 1 (Alt (Lit (lit "turtle")) (Lit (lit "ttl")))))
           (Star true space)).

Definition fence : regex :=
  Seq (Lit (lit "```")) (Star true space).

Definition prefix_line : regex :=
  Seq (Lit (lit "@prefix"))
      (Seq (Star true space)
           (Seq (Star false dot)
                (Seq (Star true space)
                     (Seq (NotBehind not_newline) (Chr nl))))).

(** The replacement template of the last substitution: the whole match,
    a dot and a newline. *)
Definition add_dot (m : rmatch) : str := group m 0 ++ lit "." ++ [nl].

Definition has_prefix_decl (doc : str) : bool :=
  match search (LitI (lit "@prefix")) doc with
  | Some _ => true
  | None => false
  end.

(** *** validate_shacl *)

Definition validate_default_prefixes : str :=
  line "@prefix ex: <http://example.org/> ."
  ++ line "@prefix sh: <http://www.w3.org/ns/shacl#> ."
  ++ line "@prefix rdf: <http://www.w3.org/1999/02/22-rdf-syntax-ns#> ."
  ++ line "@prefix rdfs: <http://www.w3.org/2000/01/rdf-schema#> ."
  ++ line "@prefix xsd: <http://www.w3.org/2001/XMLSchema#> ."
  ++ line "@prefix schema: <https://schema.org/> ."
  ++ line "".

(** The statements of [validate_shacl] up to the substitution that ends
    prefix declarations with a dot. *)
Definition validate_clean (shacl_doc : str) : str :=
  let shacl_doc := sub non_turtle (fun _ => []) shacl_doc in
  let shacl_doc := sub blank_lines (fun _ => [nl]) shacl_doc in
  let shacl_doc := sub fence_tagged (fun _ => []) shacl_doc in
  let shacl_doc := sub fence (fun _ => []) shacl_doc in
  let shacl_doc := strip shacl_doc in
  let shacl_doc := sub prefix_line add_dot shacl_doc in
  shacl_doc.

(** ... and its [if not re.search(...)] statement. *)
Definition validate_with_prefixes (shacl_doc : str) : str :=
  if negb (has_prefix_decl shacl_doc)
  then validate_default_prefixes ++ shacl_doc
  else shacl_doc.

(** *** auto_correct_shacl *)

Definition correct_default_prefixes : str :=
  line "@prefix ex: <http://example.org/> ."
  ++ line "@prefix sh: <http://www.w3.org/ns/shacl#> ."
  ++ line "@prefix schema: <https://schema.org/> ."
  ++ line "@prefix xsd: <http://www.w3.org/2001/XMLSchema#> ."
  ++ line "".

Definition correct_clean (shacl_doc : str) : str :=
  let shacl_doc := sub non_turtle (fun _ => []) shacl_doc in
  let shacl_doc := sub blank_lines (fun _ => [nl]) shacl_doc in
  let shacl_doc := sub fence_tagged (fun _ => []) shacl_doc in
  let shacl_doc := sub fence (fun _ => []) shacl_doc in
  let shacl_doc := strip shacl_doc in
  let shacl_doc := sub prefix_line add_dot shacl_doc in
  shacl_doc.

Definition correct_with_prefixes (shacl_doc : str) : str :=
  if negb (has_prefix_decl shacl_doc)
  then correct_default_prefixes ++ shacl_doc
  else shacl_doc.

(** One property of a class, as [process_next_step] builds it: a [dict]
    with these six keys. *)
Record prop := Prop_ {
  name : str;
  description : str;
  path : str;
  datatype : str;
  minCount : Z;
  maxCount : Z
}.

(** [classes_and_properties] as [process_next_step] builds it: a [dict]
    from class names to lists of properties, in insertion order. *)
Definition class_dict := list (str * list prop).

(** What [auto_correct_shacl] can be handed as [classes_and_properties]:
    a [dict] from class names to a list of property dictionaries, or to a
    value that is not a list (an [int], [None]); a property dictionary
    maps strings to strings or [int]s, and need not have the key [path]. *)
Inductive pyvalue :=
| VStr (s : str)
| VInt (z : Z).

Definition prop_dict := list (str * pyvalue).

Inductive entry :=
| PropertyList (properties : list prop_dict)
| IntValue (z : Z)
| NoneValue.

Definition class_table := list (str * entry).

(** [d.get(key)] on a property dictionary. *)
Fixpoint lookup (key : str) (d : prop_dict) : option pyvalue :=
  match d with
  | [] => None
  | (k, v) :: d' => if str_eqb k key then Some v else lookup key d'
  end.

(** A replacement field of an f-string. *)
Definition format (v : pyvalue) : str :=
  match v with
  | VStr s => s
  | VInt z => str_of_Z z
  end.



(** The two f-strings of the fallback. *)
Definition shape_header (class_name : str) : str :=
  lit "ex:" ++ class_name ++ [nl]
  ++ line "    a sh:NodeShape ;"
  ++ lit "    sh:targetClass schema:" ++ class_name ++ lit " ;" ++ [nl].

Definition property_block (path : str) : str :=
  line "    sh:property ["
  ++ lit "        sh:path schema:" ++ path ++ lit " ;" ++ [nl]
  ++ line "        sh:datatype xsd:string ;"
  ++ line "        sh:minCount 1 ;"
  ++ line "        sh:maxCount 1 ;"
  ++ line "    ] ;".

Section Run.
Context {Sv : Services} {S : Type}.

Definition validate_shacl (shacl_doc : str) : M S (bool * str) :=
  let shacl_doc := validate_clean shacl_doc in
  let shacl_doc := validate_with_prefixes shacl_doc in
  try_except
    (g <- call_parse shacl_doc ;;
     r <- call_validate g ;;
     let '(conforms, _, results_text) := r in
     ret (conforms, results_text))
    (fun e =>
       emit (ELogError (lit "Error during SHACL validation: " ++ exn_msg e)) ;;;
       ret (false, exn_msg e)).

(** [prop['path']], read while the f-string is evaluated. *)
Definition path_field (p : prop_dict) : M S str :=
  match lookup (lit "path") p with
  | Some v => ret (format v)
  | None => raise (Exn "KeyError" (lit "'path'"))
  end.

(** [iter(properties)], at the head of the inner [for]. *)
Definition iterate (properties : entry) : M S (list prop_dict) :=
  match properties with
  | PropertyList l => ret l
  | IntValue _ => raise (Exn "TypeError" (lit "'int' object is not iterable"))
  | NoneValue => raise (Exn "TypeError" (lit "'NoneType' object is not iterable"))
  end.

(** The two nested [for] loops of the fallback, each [+=] one step on
    the accumulator [base_shacl]. *)
Fixpoint property_loop (properties : list prop_dict) (base_shacl : str) : M S str :=
  match properties with
  | [] => ret base_shacl
  | p :: properties' =>
      path <- path_field p ;;
      property_loop properties' (base_shacl ++ property_block path)
  end.

Fixpoint fallback_loop (classes_and_properties : class_table) (base_shacl : str)
  : M S str :=
  match classes_and_properties with
  | [] => ret base_shacl
  | (class_name, properties) :: items =>
      let base_shacl := base_shacl ++ shape_header class_name in
      properties <- iterate properties ;;
      base_shacl <- property_loop properties base_shacl ;;
      fallback_loop items base_shacl
  end.

Definition fallback_document (classes_and_properties : class_table) : M S str :=
  let base_shacl :=
    line "@prefix ex: <http://example.org/> ."
    ++ line "@prefix sh: <http://www.w3.org/ns/shacl#> ."
    ++ line "@prefix schema: <https://schema.org/> ."
    ++ line "@prefix xsd: <http://www.w3.org/2001/XMLSchema#> ."
    ++ line "" in
  base_shacl <- fallback_loop classes_and_properties base_shacl ;;
  ret (base_shacl ++ lit ".").


End Run.
End Patterns.
End Shacl.

(* ================================================================== *)
(** ** [OpenAIClient] *)

Module Client.

Record OpenAIClient := Build { history : list message }.

Definition system_message : message :=
  Message (lit "system")
          (lit "You are an assistant responding to queries about Schema.org concepts.").

Definition user (prompt : str) : message := Message (lit "user") prompt.
Definition assistant (reply : str) : message := Message (lit "assistant") reply.

(** [__init__] *)
Definition init : OpenAIClient := Build [system_message].

(** [self.history.append(m)] *)
Definition append (m : message) (c : OpenAIClient) : OpenAIClient :=
  Build (history c ++ [m]).

Definition retry_notice (attempt : Z) : str :=
  lit "Attempt " ++ str_of_Z (attempt + 1) ++ lit " failed. Retrying in 5 seconds...".

Definition exhausted (max_retries : Z) (e : exn) : exn :=
  Exn "Exception"
      (lit "Error communicating with OpenAI API after " ++ str_of_Z max_retries
       ++ lit " attempts: " ++ exn_msg e).

Section Ask.
Context {Sv : Services}.

(** One iteration of the [for] loop of [ask]: [Some reply] is the
    [return] inside the [try], [None] goes on to the next iteration. *)
Definition attempt_once (prompt : str) (max_retries attempt : Z)
  : M OpenAIClient (option str) :=
  try_except
    (modify (append (user prompt)) ;;;
     self <- get ;;
     ai_response <- call_chat (history self) ;;
     modify (append (assistant ai_response)) ;;;
     ret (Some ai_response))
    (fun e =>
       if (attempt <? max_retries - 1)%Z then
         emit (ELogInfo (retry_notice attempt)) ;;;
         emit (ESleep 5) ;;;
         ret None
       else
         raise (exhausted max_retries e)).

(** The loop over [range(max_retries)], [todo] iterations being left.
    When the range is exhausted the function falls off its end and
    returns [None]. *)
Fixpoint ask_loop (prompt : str) (max_retries : Z) (todo : nat) (attempt : Z)
  : M OpenAIClient (option str) :=
  match todo with
  | O => ret None
  | S todo' =>
      r <- attempt_once prompt max_retries attempt ;;
      match r with
      | Some ai_response => ret (Some ai_response)
      | None => ask_loop prompt max_retries todo' (attempt + 1)
      end
  end.

Definition ask (prompt : str) (max_retries : Z) : M OpenAIClient (option str) :=
  ask_loop prompt max_retries (Z.to_nat max_retries) 0.

Definition default_max_retries : Z := 3.

End Ask.
End Client.

(* ================================================================== *)
(** ** [Application] *)

Module Wizard.
Import Re Shacl Client.

(** The fixed wording of the three prompts (the text around the
    interpolated fields); no property below depends on it. *)
Class Prompts := {
  prompt_1_before : str;   (* the f-string of [prompt_1] up to the use case *)
  prompt_1_after : str;    (* ... and after it *)
  prompt_2_request : str;  (* the literal added before the list of entities *)
  prompt_2_example : str;  (* the literal added after it *)
  prompt_3_after : str     (* the f-string of [prompt_3] after the response *)
}.

(** What the window shows: the input form, a result (with the buttons of
    the last step or those of the other steps), or nothing once destroyed. *)
Inductive screen :=
| MainScreen
| Blank                                        (* after [clear_window] *)
| ResultScreen (last_step : bool) (prompt : str)
| Destroyed.

Record Application := App {
  client : OpenAIClient;
  use_case : str;
  current_step : Z;
  use_case_text : str;   (* the content of the input widget, while it exists *)
  result_text : str;     (* the content of the output widget, while it exists *)
  window : screen
}.

Definition set_client (c : OpenAIClient) (a : Application) : Application :=
  App c (use_case a) (current_step a) (use_case_text a) (result_text a) (window a).
Definition set_use_case (u : str) (a : Application) : Application :=
  App (client a) u (current_step a) (use_case_text a) (result_text a) (window a).
Definition set_current_step (n : Z) (a : Application) : Application :=
  App (client a) (use_case a) n (use_case_text a) (result_text a) (window a).
Definition set_use_case_text (t : str) (a : Application) : Application :=
  App (client a) (use_case a) (current_step a) t (result_text a) (window a).
Definition set_result_text (t : str) (a : Application) : Application :=
  App (client a) (use_case a) (current_step a) (use_case_text a) t (window a).
Definition set_window (w : screen) (a : Application) : Application :=
  App (client a) (use_case a) (current_step a) (use_case_text a) (result_text a) w.

(** [widget.get("1.0", tk.END)]: Tk returns the content and a newline. *)
Definition widget_get (content : str) : str := content ++ [nl].

Section Handlers.
Context {U : Unicode} {Sv : Services} {P : Prompts}.

Definition any : regex := Cls (fun _ => true).   (* [.] under DOTALL *)
Definition word : regex := Cls isword.

(** The pattern of [extract_shacl_code], compiled with [re.DOTALL]. *)
Definition shacl_pattern : regex :=
  Seq (Lit (lit "```"))
      (Seq (Opt (Lit (lit "turtle")))
           (Seq (Star true space)
                (Seq (Group 1 (Star false any)) (Lit (lit "```"))))).

Definition extract_shacl_code (text : str) : str :=
  match search shacl_pattern text with
  | Some m => strip (group m 1)
  | None => strip text
  end.

(** The patterns of the two [findall] calls. *)
Definition entity_pattern : regex :=
  Seq (Lit (lit "- ")) (Seq (Group 1 (Plus true word)) (Chr (ch ":"))).

Definition property_pattern : regex :=
  Seq (Lit (lit "- "))
      (Seq (Group 1 (Plus true word))
           (Seq (Lit (lit ": "))
                (Seq (Group 2 (Star false dot)) (Chr nl)))).

Definition init : Application :=
  App Client.init (lit "Enter your knowledge base information here...") 1
      (lit "Enter your knowledge base information here...") [] MainScreen.

Definition clear_window : M Application unit := modify (set_window Blank).

Definition create_main_interface : M Application unit :=
  clear_window ;;;
  a <- get ;;
  modify (set_use_case_text (use_case a)) ;;;
  modify (set_window MainScreen).

(** [result] is what [ask] returned; [re.search] raises a [TypeError]
    on [None]. *)
Definition create_result_interface (result : option str) (prompt : str)
  : M Application unit :=
  clear_window ;;;
  shacl_code <- match result with
                | Some text => ret (extract_shacl_code text)
                | None => raise (Exn "TypeError"
                                     (lit "expected string or bytes-like object"))
                end ;;
  modify (set_result_text shacl_code) ;;;
  a <- get ;;
  modify (set_window (ResultScreen (Z.eqb (current_step a) 3) prompt)).

Definition destroy : M Application unit := modify (set_window Destroyed).

(** [self.client.ask(prompt)], with the default model and [max_retries]. *)
Definition client_ask (prompt : str) : M Application (option str) :=
  zoom client set_client (ask prompt default_max_retries).

Definition ask_for_new_prompt (prompt : str) (dialog_answer : option str)
  : M Application unit :=
  match dialog_answer with
  | Some (c :: t) =>
      let new_prompt := c :: t in
      modify (fun a => set_client (append (user new_prompt) (client a)) a) ;;;
      response <- client_ask new_prompt ;;
      create_result_interface response new_prompt
  | _ => ret tt
  end.

Definition prompt_1 (use_case : str) : str :=
  prompt_1_before ++ use_case ++ prompt_1_after.

Definition process_use_case (new_prompt : option str) : M Application unit :=
  a <- get ;;
  modify (set_use_case
            (match new_prompt with
             | None => strip (widget_get (use_case_text a))
             | Some p => p
             end)) ;;;
  a <- get ;;
  match use_case a with
  | [] =>
      emit (EWarning (lit "Input Error") (lit "Please enter a use case."))
  | _ :: _ =>
      let prompt_1 := prompt_1 (use_case a) in
      response_1 <- client_ask prompt_1 ;;
      create_result_interface response_1 prompt_1 ;;;
      modify (set_current_step 1)
  end.

(** [xs[i]], raising [IndexError] out of range. *)
Definition index {S A} (xs : list A) (i : nat) : M S A :=
  match nth_error xs i with
  | Some x => ret x
  | None => raise (Exn "IndexError" (lit "list index out of range"))
  end.

(** [d[k] = v] on an insertion-ordered [dict]. *)
Fixpoint dict_set {V} (k : str) (v : V) (d : list (str * V)) : list (str * V) :=
  match d with
  | [] => [(k, v)]
  | (k', v') :: d' =>
      if str_eqb k' k then (k', v) :: d' else (k', v') :: dict_set k v d'
  end.

Fixpoint dict_get {V} (k : str) (d : list (str * V)) : option V :=
  match d with
  | [] => None
  | (k', v') :: d' => if str_eqb k' k then Some v' else dict_get k d'
  end.

(** The first loop of the branch for step 1: it extends [prompt_2] with
    one type and one description per entity. *)
Fixpoint describe_entities (formatted_response_1 : str) (entities : list str)
    (prompt_2 : str) (classes_and_properties : class_dict)
  : M Application (str * class_dict) :=
  match entities with
  | [] => ret (prompt_2, classes_and_properties)
  | entity :: entities' =>
      tail <- index (split (lit "- " ++ entity ++ lit ": ") formatted_response_1) 1 ;;
      first_line <- index (split [nl] tail) 0 ;;
      let entity_description := strip first_line in
      let prompt_2 := prompt_2 ++ lit "Type: " ++ entity ++ [nl] in
      let prompt_2 := prompt_2 ++ lit "Description: " ++ entity_description ++ [nl] in
      describe_entities formatted_response_1 entities' prompt_2
                        (dict_set entity [] classes_and_properties)
  end.

Definition list_entities (entities : list str) (prompt_2 : str) : str :=
  fold_left (fun prompt_2 entity => prompt_2 ++ lit "- " ++ entity ++ [nl])
            entities prompt_2.

Definition make_property (p : str * str) : prop :=
  Prop_ (fst p) (snd p) (str_lower (fst p)) (lit "xsd:string") 1 1.

(** The two nested loops of the branch for step 2. *)
Definition collect_properties (formatted_response_2 : str) (entities : list str)
  : class_dict :=
  fold_left
    (fun classes_and_properties entity =>
       let properties := findall2 property_pattern formatted_response_2 in
       fold_left
         (fun classes_and_properties p =>
            dict_set entity [make_property p] classes_and_properties)
         properties classes_and_properties)
    entities [].

Definition prompt_3 (formatted_response_2 : str) : str :=
  line "Here are the types and their properties:" ++ [nl]
  ++ formatted_response_2 ++ prompt_3_after.

(** [self.result_text.get("1.0", tk.END).strip()] *)
Definition formatted_response (a : Application) : str :=
  strip (widget_get (result_text a)).

Definition process_next_step (prompt : str) : M Application unit :=
  a <- get ;;
  if Z.eqb (current_step a) 1 then
    let formatted_response_1 := formatted_response a in
    let entities := findall1 entity_pattern formatted_response_1 in
    let classes_and_properties : class_dict := [] in
    let prompt_2 := line "Here are my results:" in
    r <- describe_entities formatted_response_1 entities prompt_2
                           classes_and_properties ;;
    let '(prompt_2, classes_and_properties) := r in
    let prompt_2 := prompt_2 ++ prompt_2_request in
    let prompt_2 := list_entities entities prompt_2 in
    let prompt_2 := prompt_2 ++ prompt_2_example in
    response_2 <- client_ask prompt_2 ;;
    create_result_interface response_2 prompt_2 ;;;
    modify (set_current_step 2)
  else if Z.eqb (current_step a) 2 then
    let formatted_response_2 := formatted_response a in
    let entities := findall1 entity_pattern formatted_response_2 in
    let classes_and_properties := collect_properties formatted_response_2 entities in
    let prompt_3 := prompt_3 formatted_response_2 in
    response_3 <- client_ask prompt_3 ;;
    create_result_interface response_3 prompt_3 ;;;
    modify (set_current_step 3)
  else if Z.eqb (current_step a) 3 then
    destroy
  else
    ret tt.

(** *** The user at the window

    What the user can do depends on what the window shows; an exception
    raised by a handler is reported by Tk and the window stays open. *)

Inductive action :=
| TypeInput (text : str)               (* edit the input widget *)
| ClickCancel
| ClickNext
| TypeResult (text : str)              (* edit the output widget *)
| ClickBack
| ClickNextStep
| ClickGiveFeedback (dialog_answer : option str)
| ClickClose.

Definition enabled (a : Application) (act : action) : bool :=
  match window a, act with
  | MainScreen, (TypeInput _ | ClickCancel | ClickNext) => true
  | ResultScreen _ _, TypeResult _ => true
  | ResultScreen _ _, ClickGiveFeedback _ => true
  | ResultScreen false _, (ClickBack | ClickNextStep) => true
  | ResultScreen true _, ClickClose => true
  | _, _ => false
  end.

Definition shown_prompt (a : Application) : str :=
  match window a with
  | ResultScreen _ prompt => prompt
  | _ => []
  end.

Definition handler (act : action) : M Application unit :=
  match act with
  | TypeInput text => modify (set_use_case_text text)
  | TypeResult text => modify (set_result_text text)
  | ClickCancel | ClickClose => destroy
  | ClickNext => process_use_case None
  | ClickBack => create_main_interface
  | ClickNextStep => a <- get ;; process_next_step (shown_prompt a)
  | ClickGiveFeedback answer => a <- get ;; ask_for_new_prompt (shown_prompt a) answer
  end.

(** One user action: the state and the trace it leaves, whether the
    handler returned or raised. *)
Definition perform (act : action) (w : Application * trace) : Application * trace :=
  if enabled (fst w) act then
    match handler act (fst w) (snd w) with
    | (_, a', tr') => (a', tr')
    end
  else w.

Definition run (acts : list action) (w : Application * trace) : Application * trace :=
  fold_left (fun w act => perform act w) acts w.

Inductive reachable : Application * trace -> Prop :=
| reach_init : reachable (init, [])
| reach_step w act : reachable w -> enabled (fst w) act = true ->
                     reachable (perform act w).

End Handlers.
End Wizard.

(* ================================================================== *)
(** ** Reference definitions

    The behaviour the specification describes, written directly on
    strings and lists; the theorems below compare the program with them. *)

Module Spec.
Import Re Shacl Client Wizard.

(** The first occurrence of [needle] in [s]: what comes before it and
    what comes after. *)
Fixpoint find (needle s : str) : option (str * str) :=
  match strip_prefix needle s with
  | Some after => Some ([], after)
  | None =>
      match s with
      | [] => None
      | c :: t =>
          match find needle t with
          | Some (before, after) => Some (c :: before, after)
          | None => None
          end
      end
  end.

Definition fence_mark : str := lit "```".

(** An optional tag right after the opening fence. *)
Definition drop_tag (tag s : str) : str :=
  match strip_prefix tag s with
  | Some s' => s'
  | None => s
  end.

(** The contents of the first fenced code block of [text]: what lies
    between the first fence (and its optional tag [turtle]) and the next
    fence; [None] when the text has no such block. *)
Definition first_fenced_block (text : str) : option str :=
  match find fence_mark text with
  | None => None
  | Some (_, opened) =>
      match find fence_mark (drop_tag (lit "turtle") opened) with
      | Some (contents, _) => Some contents
      | None => None
      end
  end.

Definition extract_shacl_code_spec (text : str) : str :=
  match first_fenced_block text with
  | Some contents => strip contents
  | None => strip text
  end.

(** Where the matcher of [extract_shacl_code] stands after the closing
    fence of a block opened right before [r]: leading white space is
    passed over, group 1 holds the contents up to the next fence. *)
Definition block_state (r : str) (g : list (nat * str)) : option mstate :=
  match find fence_mark (dropwhile isspace r) with
  | Some (contents, after) =>
      Some (MState (Some backtick) after (set_group 1 contents g))
  | None => None
  end.

(** [needle] occurs in [s]. *)
Definition occurs (needle s : str) : Prop :=
  exists before after, s = before ++ needle ++ after.

(** [doc] contains [needle], compared without regard to case. *)
Definition contains_ignorecase (needle doc : str) : Prop :=
  exists before found after,
    doc = before ++ found ++ after /\
    Forall2 (fun c x => ignorecase c x = true) needle found.

(** The property dictionary [p] has the key [path], and an f-string
    renders its value as [path]. *)
Definition has_path (p : prop_dict) (path : str) : Prop :=
  exists v, lookup (lit "path") p = Some v /\ format v = path.



(** The messages sent at the attempt number [i] of a call of [ask]: the
    history with the prompt appended once per attempt so far. *)
Definition attempt_messages (c : OpenAIClient) (prompt : str) (i : nat) : list message :=
  history c ++ repeat (user prompt) (S i).

(** The answer the endpoint gives to the attempt number [i] of a call
    of [ask] made when the trace is [tr]. *)
Definition answer {Sv : Services} (prompt : str) (c : OpenAIClient) (tr : trace)
    (i : nat) : result str :=
  chat_create (chat_count tr + i) (attempt_messages c prompt i).

(** What a failed attempt that is not the last one leaves in the trace:
    the request, the notice that it failed, and a sleep of five seconds. *)
Definition failed_attempt {Sv : Services} (prompt : str) (c : OpenAIClient)
    (tr : trace) (i : nat) : list event :=
  [EChat (attempt_messages c prompt i) (answer prompt c tr i);
   ELogInfo (retry_notice (Z.of_nat i));
   ESleep 5].

(** The trace of [i] failed attempts in a row. *)
Definition failures {Sv : Services} (prompt : str) (c : OpenAIClient)
    (tr : trace) (i : nat) : trace :=
  flat_map (failed_attempt prompt c tr) (seq 0 i).

(** The client after [i] attempts. *)
Definition client_at (prompt : str) (c : OpenAIClient) (i : nat) : OpenAIClient :=
  Build (history c ++ repeat (user prompt) i).

(** The tail a call of [ask] adds to the history after the prompts. *)
Definition reply_tail (r : result (option str)) : list message :=
  match r with
  | Ok (Some reply) => [assistant reply]
  | _ => []
  end.

Definition is_lint (e : event) : bool :=
  match e with
  | EParse _ _ | EValidate _ => true
  | _ => false
  end.

Definition is_sleep (e : event) : bool :=
  match e with ESleep _ => true | _ => false end.

Definition chats (tr : trace) : list (list message * result str) :=
  flat_map (fun e => match e with EChat m a => [(m, a)] | _ => [] end) tr.

(** *** The wizard *)

Definition step_ok (a : Application) : Prop :=
  current_step a = 1%Z \/ current_step a = 2%Z \/ current_step a = 3%Z.

(** What every handler respects between the state and trace it starts
    from and those it leaves: the step stays one of 1, 2, 3; the history
    of the client is extended; the trace is extended, by events other
    than calls of the parser or the validator. *)
Definition extends (a a' : Application) (tr tr' : trace) : Prop :=
  (step_ok a -> step_ok a')
  /\ (exists added, history (client a') = history (client a) ++ added)
  /\ (exists new, tr' = tr ++ new /\ Forall (fun e => is_lint e = false) new).

Definition orderly {A} (c : M Application A) : Prop :=
  forall a tr, extends a (snd (fst (c a tr))) tr (snd (c a tr)).

Section Prompts.
Context {U : Unicode} {P : Prompts}.

(** The description of an entity in the text shown at step 1: the first
    line of what follows its name, a colon and a space. *)
Definition entity_description (text entity : str) : str :=
  strip (nth 0 (split [nl] (nth 1 (split (lit "- " ++ entity ++ lit ": ") text) []))
             []).

Definition described (text : str) (entities : list str) (prompt_2 : str) : str :=
  fold_left
    (fun prompt_2 entity =>
       (prompt_2 ++ lit "Type: " ++ entity ++ [nl])
       ++ lit "Description: " ++ entity_description text entity ++ [nl])
    entities prompt_2.

Definition declared (entities : list str) (d : class_dict) : class_dict :=
  fold_left (fun d entity => dict_set entity [] d) entities d.

(** The second prompt, for the text shown at step 1. *)
Definition prompt_2_of (text : str) : str :=
  let entities := findall1 entity_pattern text in
  list_entities entities
    (described text entities (line "Here are my results:") ++ prompt_2_request)
  ++ prompt_2_example.

(** Every entity listed in the text is followed by a colon and a space
    somewhere in it, so that its description can be read. *)
Definition entities_described (text : str) : Prop :=
  Forall (fun entity => 1 < length (split (lit "- " ++ entity ++ lit ": ") text))
         (findall1 entity_pattern text).

End Prompts.

(** The straight run through the wizard: the use case is typed, then
    Next and three times Next Step are clicked. *)
Definition straight_run (use_case : str) : list action :=
  [TypeInput use_case; ClickNext; ClickNextStep; ClickNextStep; ClickNextStep].

End Spec.

(* ================================================================== *)
(** ** Concrete instances, to run the model *)

Module Example.
Import Re Shacl Client Wizard.

Definition ascii_lower (c : char) : char :=
  if in_range 65%N 90%N c then (c + 32)%N else c.

(** A character database that knows the ASCII range only. *)
Definition ascii_only : Unicode :=
  {| uni_isalnum := fun _ => false; str_lower := map ascii_lower |}.

Definition unavailable : exn := Exn "APIConnectionError" (lit "Connection error.").
Definition bad_syntax : exn := Exn "BadSyntax" (lit "bad syntax").

(** Services whose endpoint answers the request number [n] with
    [answers n], whose parser accepts the documents [accepts] holds of,
    and whose validator reports conformance. *)
Definition scripted (answers : nat -> result str) (accepts : str -> bool) : Services :=
  {| graph := str;
     chat_create := fun n _ => answers n;
     turtle_parse := fun doc => if accepts doc then Ok doc else Raise bad_syntax;
     shacl_validate := fun g => Ok (true, g, lit "Validation Report") |}.

Definition prompts : Prompts :=
  {| prompt_1_before := lit "Here is the text to analyze: ";
     prompt_1_after := lit " Please double check your information.";
     prompt_2_request := lit "Please take the properties: ";
     prompt_2_example := lit "A Use Case could be ...";
     prompt_3_after := lit " Please generate a SHACL document." |}.

Definition nth_answer (l : list (result str)) (n : nat) : result str :=
  nth n l (Raise unavailable).

(** A session: the model lists an entity, then a property, then writes
    a document with a comment line. *)
Definition session : Services :=
  scripted
    (nth_answer
       [Ok (lit "- Person: someone");
        Ok (lit "- name: Text");
        Ok (lit "# shapes" ++ [nl] ++ lit "ex:A a sh:NodeShape .")])
    (fun _ => true).

Definition typed_use_case : str := lit "I have a friend".

End Example.

(* ================================================================== *)
(** ** Further notions, for the properties of the cleaning steps and of
    the requests *)

Module Notions.
Import Re Shacl Client Wizard Spec.

(** A newline stands in the white space that [s] begins with. *)
Definition nl_in_run (s : str) : bool :=
  existsb (char_eqb nl) (takewhile isspace s).

(** [s] has no blank line: no newline of [s] is followed, after white
    space only, by another newline. *)
Fixpoint calm (s : str) : bool :=
  match s with
  | [] => true
  | c :: t => negb (char_eqb nl c && nl_in_run t) && calm t
  end.

(** [s] has no white space at its ends. *)
Definition stripped (s : str) : Prop := lstrip s = s /\ rstrip s = s.

(** A position of the matcher inside a subject without blank line, past
    its first character. *)
Definition settled (st : mstate) : Prop :=
  exists p, prev st = Some p /\ calm (p :: rest st) = true.

(** A request as the endpoint expects it: the system message first, a
    message of the user last. *)
Definition well_formed_request (messages : list message) : Prop :=
  exists between prompt,
    messages = system_message :: between ++ [user prompt].

(** Between two states of the window: the history is extended, the trace
    is extended, and each request added to the trace carries the history
    it started from, then other messages, then a message of the user. *)
Definition sends_history (a a' : Application) (tr tr' : trace) : Prop :=
  (exists added, history (client a') = history (client a) ++ added)
  /\ (exists new,
        tr' = tr ++ new
        /\ Forall (fun request =>
                     exists between prompt,
                       fst request
                       = history (client a) ++ between ++ [user prompt])
                  (chats new)).

Definition dutiful {A} (c : M Application A) : Prop :=
  forall a tr, sends_history a (snd (fst (c a tr))) tr (snd (c a tr)).

(** The seconds slept in a trace. *)
Definition slept (tr : trace) : Z :=
  fold_right (fun e z => match e with ESleep n => (n + z)%Z | _ => z end) 0%Z tr.

End Notions.

(* ================================================================== *)
(** * Properties *)

(** ** The cleaning helpers: outcomes *)

Module ShaclProps.
Import Re Shacl Spec.

Section WithServices.
Context {U : Unicode} {Sv : Services}.



(** The first property dictionary without a path stops the inner loop. *)
Lemma property_loop_raises (S : Type) (before : list prop_dict) (p : prop_dict)
    (after : list prop_dict) (paths : list str) :
  Forall2 has_path before paths ->
  lookup (lit "path") p = None ->
  forall (base_shacl : str) (st : S) (tr : trace),
    property_loop (before ++ p :: after) base_shacl st tr
    = (Raise (Exn "KeyError" (lit "'path'")), st, tr).
Proof.
  induction 1 as [|q path before paths (v & Hv & Hf) _ IH]; intros Hp base st tr.
  - cbn [app property_loop]. unfold bind, path_field. now rewrite Hp.
  - cbn [app property_loop]. unfold bind at 1, path_field. rewrite Hv.
    unfold ret at 1. now apply IH.
Qed.


Lemma validate_shacl_eq (S : Type) (shacl_doc : str) (st : S) (tr : trace) :
  let doc := validate_with_prefixes (validate_clean shacl_doc) in
  validate_shacl shacl_doc st tr =
    match turtle_parse doc with
    | Ok g =>
        match shacl_validate g with
        | Ok (conforms, _, results_text) =>
            (Ok (conforms, results_text), st,
             tr ++ [EParse doc true; EValidate true])
        | Raise e =>
            (Ok (false, exn_msg e), st,
             tr ++ [EParse doc true; EValidate false;
                    ELogError (lit "Error during SHACL validation: " ++ exn_msg e)])
        end
    | Raise e =>
        (Ok (false, exn_msg e), st,
         tr ++ [EParse doc false;
                ELogError (lit "Error during SHACL validation: " ++ exn_msg e)])
    end.
Proof.
  intros doc.
  unfold validate_shacl, try_except, bind, call_parse, call_validate, emit, ret.
  fold doc.
  destruct (turtle_parse doc) as [g|e]; simpl.
  - destruct (shacl_validate g) as [[[conforms rg] text]|e]; simpl;
      now rewrite <- !app_assoc.
  - now rewrite <- app_assoc.
Qed.


End WithServices.
End ShaclProps.

(* ================================================================== *)
(** ** The client: retries and history *)

Module ClientProps.
Import Client Spec.

Lemma chat_count_app (tr1 tr2 : trace) :
  chat_count (tr1 ++ tr2) = chat_count tr1 + chat_count tr2.
Proof. unfold chat_count. now rewrite filter_app, length_app. Qed.

Section WithServices.
Context {Sv : Services}.

Lemma attempt_once_eq (prompt : str) (max_retries attempt : Z)
    (c : OpenAIClient) (tr : trace) :
  let msgs := history c ++ [user prompt] in
  attempt_once prompt max_retries attempt c tr =
    match chat_create (chat_count tr) msgs with
    | Ok reply =>
        (Ok (Some reply), Build (msgs ++ [assistant reply]),
         tr ++ [EChat msgs (Ok reply)])
    | Raise e =>
        if (attempt <? max_retries - 1)%Z then
          (Ok None, Build msgs,
           tr ++ [EChat msgs (Raise e); ELogInfo (retry_notice attempt); ESleep 5])
        else
          (Raise (exhausted max_retries e), Build msgs, tr ++ [EChat msgs (Raise e)])
    end.
Proof.
  intros msgs.
  unfold attempt_once, try_except, bind, modify, get, call_chat, emit, ret, raise, append.
  simpl. fold msgs.
  destruct (chat_create (chat_count tr) msgs) as [reply|e]; simpl; [reflexivity|].
  destruct (attempt <? max_retries - 1)%Z; simpl; [|reflexivity].
  now rewrite <- !app_assoc.
Qed.

Section Run.
Variables (prompt : str) (max_retries : Z) (c : OpenAIClient) (tr : trace).

Lemma chat_count_failures (i : nat) : chat_count (failures prompt c tr i) = i.
Proof.
  unfold failures.
  induction i as [|i IH]; [reflexivity|].
  rewrite seq_S, flat_map_app, chat_count_app, IH.
  unfold chat_count, failed_attempt. simpl. lia.
Qed.

Lemma failures_S (i : nat) :
  failures prompt c tr (S i) = failures prompt c tr i ++ failed_attempt prompt c tr i.
Proof.
  unfold failures. rewrite seq_S, flat_map_app. cbn [flat_map Nat.add].
  now rewrite app_nil_r.
Qed.

Lemma messages_S (i : nat) :
  history (client_at prompt c i) ++ [user prompt] = attempt_messages c prompt i.
Proof.
  unfold client_at, attempt_messages. simpl.
  rewrite <- app_assoc. f_equal. now rewrite <- repeat_cons.
Qed.

Lemma client_at_S (i : nat) : Build (attempt_messages c prompt i) = client_at prompt c (S i).
Proof. reflexivity. Qed.

(** The attempt number [i], made after [i] failures. *)
Lemma attempt_at (i : nat) :
  attempt_once prompt max_retries (Z.of_nat i) (client_at prompt c i) (tr ++ failures prompt c tr i) =
    match answer prompt c tr i with
    | Ok reply =>
        (Ok (Some reply),
         Build (attempt_messages c prompt i ++ [assistant reply]),
         tr ++ failures prompt c tr i ++ [EChat (attempt_messages c prompt i) (Ok reply)])
    | Raise e =>
        if (Z.of_nat i <? max_retries - 1)%Z then
          (Ok None, client_at prompt c (S i), tr ++ failures prompt c tr (S i))
        else
          (Raise (exhausted max_retries e), client_at prompt c (S i),
           tr ++ failures prompt c tr i ++ [EChat (attempt_messages c prompt i) (Raise e)])
    end.
Proof.
  rewrite attempt_once_eq. cbv zeta.
  rewrite messages_S, chat_count_app, chat_count_failures. fold (answer prompt c tr i).
  destruct (answer prompt c tr i) as [reply|e] eqn:E.
  - now rewrite <- app_assoc.
  - destruct (Z.of_nat i <? max_retries - 1)%Z.
    + rewrite failures_S. unfold failed_attempt. rewrite E.
      now rewrite <- !app_assoc.
    + now rewrite <- app_assoc.
Qed.

Hypothesis positive : (1 <= max_retries)%Z.

Lemma ask_loop_succeeds (j : nat) (reply : str) :
  j < Z.to_nat max_retries ->
  (forall i, i < j -> is_ok (answer prompt c tr i) = false) ->
  answer prompt c tr j = Ok reply ->
  forall todo i, i + todo = Z.to_nat max_retries -> i <= j ->
    ask_loop prompt max_retries todo (Z.of_nat i) (client_at prompt c i) (tr ++ failures prompt c tr i) =
      (Ok (Some reply),
       Build (attempt_messages c prompt j ++ [assistant reply]),
       tr ++ failures prompt c tr j ++ [EChat (attempt_messages c prompt j) (Ok reply)]).
Proof.
  intros Hj Hfail Hok.
  induction todo as [|todo IH]; intros i Hsum Hle; [lia|].
  cbn [ask_loop]. unfold bind at 1. rewrite attempt_at.
  destruct (Nat.eq_dec i j) as [->|Hne].
  - now rewrite Hok.
  - assert (Hlt : i < j) by lia.
    specialize (Hfail i Hlt).
    destruct (answer prompt c tr i) as [r|e]; [discriminate|].
    destruct (Z.ltb_spec (Z.of_nat i) (max_retries - 1)) as [_|Hge]; [|lia].
    replace (Z.of_nat i + 1)%Z with (Z.of_nat (S i)) by lia.
    apply IH; lia.
Qed.

Lemma ask_loop_exhausted (e : exn) :
  (forall i, i < Z.to_nat max_retries -> is_ok (answer prompt c tr i) = false) ->
  answer prompt c tr (Z.to_nat max_retries - 1) = Raise e ->
  forall todo i, i + todo = Z.to_nat max_retries -> 0 < todo ->
    ask_loop prompt max_retries todo (Z.of_nat i) (client_at prompt c i) (tr ++ failures prompt c tr i) =
      (Raise (exhausted max_retries e),
       client_at prompt c (Z.to_nat max_retries),
       tr ++ failures prompt c tr (Z.to_nat max_retries - 1)
          ++ [EChat (attempt_messages c prompt (Z.to_nat max_retries - 1)) (Raise e)]).
Proof.
  intros Hfail Hlast.
  induction todo as [|todo IH]; intros i Hsum Hpos; [lia|].
  cbn [ask_loop]. unfold bind at 1. rewrite attempt_at.
  assert (Hi : i < Z.to_nat max_retries) by lia.
  pose proof (Hfail i Hi) as Hf.
  destruct (answer prompt c tr i) as [r|e'] eqn:E; [discriminate|].
  destruct (Z.ltb_spec (Z.of_nat i) (max_retries - 1)) as [Hlt|Hge].
  - replace (Z.of_nat i + 1)%Z with (Z.of_nat (S i)) by lia.
    apply IH; lia.
  - assert (Hlasti : i = Z.to_nat max_retries - 1) by lia.
    rewrite <- Hlasti in Hlast |- *. rewrite E in Hlast.
    injection Hlast as ->.
    replace (Z.to_nat max_retries) with (S i) by lia.
    reflexivity.
Qed.

(** Either some attempt is the first to be answered, or none is. *)
Lemma first_answer (n : nat) :
  (exists j reply, j < n /\ (forall i, i < j -> is_ok (answer prompt c tr i) = false)
                   /\ answer prompt c tr j = Ok reply)
  \/ (forall i, i < n -> is_ok (answer prompt c tr i) = false).
Proof.
  induction n as [|n [(j & reply & Hj & Hf & Ha)|Hall]].
  - right; intros; lia.
  - left; exists j, reply; repeat split; auto.
  - destruct (answer prompt c tr n) as [reply|e] eqn:E.
    + left; exists n, reply; repeat split; auto.
    + right; intros i Hi.
      destruct (Nat.eq_dec i n) as [->|]; [now rewrite E|apply Hall; lia].
Qed.

End Run.

Lemma chats_app (tr1 tr2 : trace) : chats (tr1 ++ tr2) = chats tr1 ++ chats tr2.
Proof. unfold chats. now rewrite flat_map_app. Qed.

Lemma chats_failures (prompt : str) (c : OpenAIClient) (tr : trace) (i : nat) :
  chats (failures prompt c tr i)
  = map (fun m => (attempt_messages c prompt m, answer prompt c tr m)) (seq 0 i).
Proof.
  induction i as [|i IH]; [reflexivity|].
  rewrite failures_S, chats_app, IH, seq_S, map_app. reflexivity.
Qed.

Lemma failures_no_lint (prompt : str) (c : OpenAIClient) (tr : trace) (i : nat) :
  Forall (fun e => is_lint e = false) (failures prompt c tr i).
Proof.
  induction i as [|i IH]; [constructor|].
  rewrite failures_S. apply Forall_app; split; [exact IH|].
  repeat constructor.
Qed.

(** What every call of [ask] does, whatever [max_retries] and the
    endpoint: it makes [k] requests, at most [max_retries] of them, the
    request number [i] carrying the history with the prompt appended
    [i + 1] times; it calls neither the parser nor the validator. *)
Lemma ask_shape (prompt : str) (max_retries : Z) (c : OpenAIClient) (tr : trace) :
  exists k new,
    k <= Z.to_nat max_retries /\
    snd (ask prompt max_retries c tr) = tr ++ new /\
    chats new
      = map (fun i => (attempt_messages c prompt i, answer prompt c tr i)) (seq 0 k) /\
    Forall (fun e => is_lint e = false) new /\
    history (snd (fst (ask prompt max_retries c tr)))
      = history c ++ repeat (user prompt) k
        ++ reply_tail (fst (fst (ask prompt max_retries c tr))).
Proof.
  destruct (Z.le_gt_cases 1 max_retries) as [Hpos|Hneg].
  - assert (Hc : c = client_at prompt c 0).
    { destruct c as [h]. unfold client_at. simpl. now rewrite app_nil_r. }
    assert (Ht : tr = tr ++ failures prompt c tr 0) by (now rewrite app_nil_r).
    destruct (first_answer prompt c tr (Z.to_nat max_retries))
      as [(j & reply & Hj & Hf & Ha)|Hall].
    + pose proof (@ask_loop_succeeds prompt max_retries c tr Hpos j reply Hj Hf Ha
                    (Z.to_nat max_retries) 0 eq_refl (Nat.le_0_l j)) as E.
      rewrite <- Hc, <- Ht in E. change (Z.of_nat 0) with 0%Z in E.
      unfold ask. rewrite E. simpl.
      exists (S j), (failures prompt c tr j ++ [EChat (attempt_messages c prompt j) (Ok reply)]).
      repeat split.
      * lia.
      * rewrite chats_app, chats_failures, seq_S, map_app. simpl.
        now rewrite Ha.
      * apply Forall_app; split; [apply failures_no_lint|repeat constructor].
      * unfold attempt_messages. now rewrite <- app_assoc.
    + assert (Hn : Z.to_nat max_retries - 1 < Z.to_nat max_retries) by lia.
      destruct (answer prompt c tr (Z.to_nat max_retries - 1)) as [r|e] eqn:Ha.
      { specialize (Hall _ Hn). rewrite Ha in Hall. discriminate. }
      pose proof (@ask_loop_exhausted prompt max_retries c tr Hpos e Hall Ha
                    (Z.to_nat max_retries) 0 eq_refl ltac:(lia)) as E.
      rewrite <- Hc, <- Ht in E. change (Z.of_nat 0) with 0%Z in E.
      unfold ask. rewrite E. simpl.
      exists (Z.to_nat max_retries),
        (failures prompt c tr (Z.to_nat max_retries - 1)
         ++ [EChat (attempt_messages c prompt (Z.to_nat max_retries - 1)) (Raise e)]).
      repeat split.
      * lia.
      * rewrite chats_app, chats_failures. simpl.
        replace (Z.to_nat max_retries) with (S (Z.to_nat max_retries - 1)) at 3 by lia.
        rewrite seq_S, map_app. simpl. now rewrite Ha.
      * apply Forall_app; split; [apply failures_no_lint|repeat constructor].
      * now rewrite app_nil_r.
  - unfold ask. replace (Z.to_nat max_retries) with 0 by lia. simpl.
    exists 0, []. repeat split; try constructor.
    + now rewrite app_nil_r.
    + now rewrite !app_nil_r.
Qed.


(** C4, for a positive [max_retries]. [ask] makes its attempts one after
    the other, at most [max_retries] of them. When the attempt number [j]
    is the first to be answered, [ask] returns that answer; the trace
    holds the [j] failed requests, each followed by a sleep of five
    seconds, and the answered one. When none of the [max_retries] attempts
    is answered, [ask] raises; each failed request but the last is
    followed by a sleep of five seconds. So [ask] raises exactly when all
    the attempts fail. *)
Theorem ask_retries (prompt : str) (max_retries : Z) (c : OpenAIClient) (tr : trace) :
  (1 <= max_retries)%Z ->
  let n := Z.to_nat max_retries in
  let run := ask prompt max_retries c tr in
  (forall j reply,
      j < n ->
      (forall i, i < j -> is_ok (answer prompt c tr i) = false) ->
      answer prompt c tr j = Ok reply ->
      run = (Ok (Some reply),
             Build (attempt_messages c prompt j ++ [assistant reply]),
             tr ++ failures prompt c tr j
                ++ [EChat (attempt_messages c prompt j) (Ok reply)]))
  /\ (forall e,
         (forall i, i < n -> is_ok (answer prompt c tr i) = false) ->
         answer prompt c tr (n - 1) = Raise e ->
         run = (Raise (exhausted max_retries e),
                Build (attempt_messages c prompt (n - 1)),
                tr ++ failures prompt c tr (n - 1)
                   ++ [EChat (attempt_messages c prompt (n - 1)) (Raise e)]))
  /\ ((exists e, fst (fst run) = Raise e)
      <-> (forall i, i < n -> is_ok (answer prompt c tr i) = false))
  /\ chat_count (snd run) <= chat_count tr + n.
Proof.
  intros Hpos n run.
  assert (Hc : c = client_at prompt c 0).
  { destruct c as [h]. unfold client_at. simpl. now rewrite app_nil_r. }
  assert (Ht : tr = tr ++ failures prompt c tr 0) by (now rewrite app_nil_r).
  assert (Hsucc : forall j reply,
      j < n ->
      (forall i, i < j -> is_ok (answer prompt c tr i) = false) ->
      answer prompt c tr j = Ok reply ->
      run = (Ok (Some reply),
             Build (attempt_messages c prompt j ++ [assistant reply]),
             tr ++ failures prompt c tr j
                ++ [EChat (attempt_messages c prompt j) (Ok reply)])).
  { intros j reply Hj Hf Ha.
    pose proof (@ask_loop_succeeds prompt max_retries c tr Hpos j reply Hj Hf Ha
                                    n 0 eq_refl (Nat.le_0_l j)) as E.
    rewrite <- Hc, <- Ht in E. exact E. }
  assert (Hfail : forall e,
      (forall i, i < n -> is_ok (answer prompt c tr i) = false) ->
      answer prompt c tr (n - 1) = Raise e ->
      run = (Raise (exhausted max_retries e),
             Build (attempt_messages c prompt (n - 1)),
             tr ++ failures prompt c tr (n - 1)
                ++ [EChat (attempt_messages c prompt (n - 1)) (Raise e)])).
  { intros e Hall Ha.
    pose proof (@ask_loop_exhausted prompt max_retries c tr Hpos e Hall Ha
                  n 0 eq_refl ltac:(lia)) as E.
    rewrite <- Hc, <- Ht in E. change (Z.of_nat 0) with 0%Z in E.
    unfold run, ask. fold n. rewrite E.
    unfold client_at, attempt_messages. subst n.
    replace (S (Z.to_nat max_retries - 1)) with (Z.to_nat max_retries) by lia.
    reflexivity. }
  split; [exact Hsucc|]. split; [exact Hfail|]. split.
  - split.
    + intros [e He] i Hi.
      destruct (first_answer prompt c tr n) as [(j & reply & Hj & Hf & Ha)|Hall];
        [|now apply Hall].
      rewrite (Hsucc j reply Hj Hf Ha) in He. discriminate.
    + intros Hall.
      assert (Hn : n - 1 < n) by lia.
      destruct (answer prompt c tr (n - 1)) as [r|e] eqn:Ha.
      { specialize (Hall _ Hn). rewrite Ha in Hall. discriminate. }
      exists (exhausted max_retries e). now rewrite (Hfail e Hall eq_refl).
  - destruct (ask_shape prompt max_retries c tr) as (k & new & Hk & Hnew & Hch & _).
    fold run in Hnew. rewrite Hnew, chat_count_app.
    assert (chat_count new = k); [|fold n in Hk; lia].
    assert (Hlen : forall t, chat_count t = length (chats t)).
    { intros t. unfold chat_count, chats.
      induction t as [|[] t IH]; simpl; auto. }
    now rewrite Hlen, Hch, length_map, length_seq.
Qed.

End WithServices.

(** A run of [ask]: the first request fails, the second is answered. *)
Lemma ask_retries_witness :
  (1 <= 3)%Z /\
  fst (fst (ask (Sv := Example.scripted
                         (Example.nth_answer
                            [Raise Example.unavailable; Ok (lit "Person")])
                         (fun _ => false))
                (lit "p") 3 Client.init []))
  = Ok (Some (lit "Person")).
Proof.
  split; [lia|].
  destruct (@ask_retries (Example.scripted
                            (Example.nth_answer
                               [Raise Example.unavailable; Ok (lit "Person")])
                            (fun _ => false))
                         (lit "p") 3 Client.init []) as (Hsucc & _); [lia|].
  rewrite (Hsucc 1 (lit "Person")).
  - reflexivity.
  - simpl; lia.
  - intros i Hi. assert (i = 0) as -> by lia. reflexivity.
  - reflexivity.
Defined.

(** C4 as stated fails when [max_retries] is 0: no attempt is made, so
    all of them fail, and yet [ask] returns (None) instead of raising. *)
Lemma ask_zero_retries_does_not_raise :
  let Sv := Example.scripted (fun _ => Raise Example.unavailable) (fun _ => false) in
  (forall i, i < Z.to_nat 0 -> is_ok (answer (lit "p") Client.init [] i) = false)
  /\ ask (lit "p") 0 Client.init [] = (Ok None, Client.init, [])
  /\ ~ (exists e, fst (fst (ask (lit "p") 0 Client.init [])) = Raise e).
Proof.
  intros Sv. split; [|split].
  - simpl; intros i Hi; lia.
  - reflexivity.
  - intros [e He]. discriminate He.
Qed.

End ClientProps.

(* ================================================================== *)
(** ** The matcher *)

Module ReProps.
Import Re.

Lemma mstate_eta (s : mstate) : s = MState (prev s) (rest s) (groups s).
Proof. now destruct s. Qed.

(** The equations of [go], one per constructor. *)
Lemma go_Eps k s : go Eps k s = k s.
Proof. reflexivity. Qed.

Lemma go_Cls p k s :
  go (Cls p) k s =
    match rest s with
    | c :: t => if p c then k (MState (Some c) t (groups s)) else None
    | [] => None
    end.
Proof. reflexivity. Qed.

Lemma go_Seq r1 r2 k s : go (Seq r1 r2) k s = go r1 (go r2 k) s.
Proof. reflexivity. Qed.

Lemma go_Alt r1 r2 k s :
  go (Alt r1 r2) k s = match go r1 k s with Some m => Some m | None => go r2 k s end.
Proof. reflexivity. Qed.

Lemma go_Star greedy r k s :
  go (Star greedy r) k s = star_loop (go r) k greedy (S (length (rest s))) s.
Proof. reflexivity. Qed.

Lemma go_Group n r k s :
  go (Group n r) k s =
    go r (fun s' =>
            k (MState (prev s') (rest s')
                      (set_group n (consumed (rest s) (rest s')) (groups s')))) s.
Proof. reflexivity. Qed.

Lemma take_drop (p : char -> bool) (s : str) : takewhile p s ++ dropwhile p s = s.
Proof.
  induction s as [|c t IH]; simpl; [reflexivity|].
  destruct (p c); simpl; [now rewrite IH|reflexivity].
Qed.

Lemma takewhile_all (p : char -> bool) (s : str) : Forall (fun c => p c = true) (takewhile p s).
Proof.
  induction s as [|c t IH]; simpl; [constructor|].
  destruct (p c) eqn:E; [constructor; assumption|constructor].
Qed.

Lemma firstn_takewhile (p : char -> bool) (s : str) :
  firstn (length (takewhile p s)) s = takewhile p s.
Proof.
  induction s as [|c t IH]; simpl; [reflexivity|].
  destruct (p c); simpl; [now rewrite IH|reflexivity].
Qed.

Lemma consumed_app (a b : str) : consumed (a ++ b) b = a.
Proof.
  unfold consumed. rewrite length_app.
  replace (length a + length b - length b) with (length a) by lia.
  rewrite firstn_app, Nat.sub_diag, firstn_all. simpl. now rewrite app_nil_r.
Qed.

Lemma prev_after_app (a b : str) (pv : option char) :
  prev_after (a ++ b) pv = prev_after b (prev_after a pv).
Proof. unfold prev_after. now rewrite fold_left_app. Qed.

(** A sequence of classes reads its characters one by one. *)
Lemma go_Classes (ps : list (char -> bool)) (k : mstate -> option mstate) (s : mstate) :
  go (Classes ps) k s =
    match match_classes ps (rest s) with
    | Some t =>
        k (MState (prev_after (firstn (length ps) (rest s)) (prev s)) t (groups s))
    | None => None
    end.
Proof.
  revert s. induction ps as [|p ps IH]; intros s.
  - simpl. now rewrite <- mstate_eta.
  - cbn [Classes go match_classes]. destruct (rest s) as [|c t] eqn:E; [reflexivity|].
    destruct (p c); [|reflexivity].
    rewrite IH. reflexivity.
Qed.

Lemma Lit_Classes (l : str) : Lit l = Classes (map char_eqb l).
Proof. induction l as [|c t IH]; simpl; [reflexivity|]. now rewrite IH. Qed.

Lemma strip_prefix_classes (l s : str) :
  strip_prefix l s = match_classes (map char_eqb l) s.
Proof.
  revert s. induction l as [|a l IH]; intros s; simpl; [reflexivity|].
  destruct s as [|b t]; [reflexivity|]. now rewrite IH.
Qed.

Lemma strip_prefix_Some (l s t : str) : strip_prefix l s = Some t -> s = l ++ t.
Proof.
  revert s. induction l as [|a l IH]; intros s H; simpl in *.
  - now injection H as ->.
  - destruct s as [|b s']; [discriminate|].
    unfold char_eqb in H. destruct (N.eqb_spec a b) as [->|]; [|discriminate].
    now rewrite (IH _ H).
Qed.

Lemma strip_prefix_app (l t : str) : strip_prefix l (l ++ t) = Some t.
Proof.
  induction l as [|a l IH]; simpl; [reflexivity|].
  unfold char_eqb. now rewrite N.eqb_refl.
Qed.

Lemma go_Lit (l : str) (k : mstate -> option mstate) (s : mstate) :
  go (Lit l) k s =
    match strip_prefix l (rest s) with
    | Some t => k (MState (prev_after l (prev s)) t (groups s))
    | None => None
    end.
Proof.
  rewrite Lit_Classes, go_Classes, <- strip_prefix_classes, length_map.
  destruct (strip_prefix l (rest s)) as [t|] eqn:E; [|reflexivity].
  apply strip_prefix_Some in E. rewrite E.
  now rewrite firstn_app, Nat.sub_diag, firstn_all, app_nil_r.
Qed.

(** A pattern that starts with a character does not match where that
    character is not. *)
Lemma go_first_class (r : regex) (p : char -> bool) (k : mstate -> option mstate)
    (s : mstate) :
  first_class r = Some p ->
  (forall c t, rest s = c :: t -> p c = false) ->
  go r k s = None.
Proof.
  revert k. induction r; intros k Hf Hs; simpl in Hf; try discriminate.
  - injection Hf as ->. simpl.
    destruct (rest s) as [|c t] eqn:E; [reflexivity|].
    now rewrite (Hs c t eq_refl).
  - simpl. now apply IHr1.
  - simpl. now apply IHr.
Qed.

Lemma match_at_first_class (r : regex) (p : char -> bool) (fl : bool)
    (pv : option char) (s : str) :
  first_class r = Some p ->
  (forall c t, s = c :: t -> p c = false) ->
  match_at r fl pv s = None.
Proof.
  intros Hf Hs. unfold match_at.
  rewrite (go_first_class r _ _ Hf); [reflexivity|exact Hs].
Qed.

(** Walking a subject no position of which matches. *)
Lemma scan_no_match (r : regex) (s : str) :
  (forall pre t pv, s = pre ++ t -> match_at r false pv t = None) ->
  forall pv, scan r pv s 0 = map Text s.
Proof.
  induction s as [|c t IH]; intros H pv.
  - simpl. now rewrite (H [] [] pv eq_refl).
  - cbn [scan]. rewrite (H [] (c :: t) pv eq_refl). cbn [map]. f_equal.
    apply IH. intros pre u pv' ->. now apply (H (c :: pre) u pv').
Qed.

Lemma render_text (repl : rmatch -> str) (s : str) :
  flat_map (render repl) (map Text s) = s.
Proof. induction s as [|c t IH]; simpl; [reflexivity|now rewrite IH]. Qed.

Lemma sub_render (r : regex) (repl : rmatch -> str) (s : str) :
  sub r repl s = flat_map (render repl) (scan r None s 0).
Proof. reflexivity. Qed.

(** A pattern that starts with a character of class [p] leaves a subject
    without such a character as it is. *)
Lemma sub_first_class (r : regex) (p : char -> bool) (repl : rmatch -> str) (s : str) :
  first_class r = Some p ->
  Forall (fun c => p c = false) s ->
  sub r repl s = s.
Proof.
  intros Hf Hs. rewrite sub_render, scan_no_match; [apply render_text|].
  intros pre t pv ->. apply match_at_first_class with (p := p); [exact Hf|].
  intros c u ->. apply Forall_app in Hs as [_ Hs]. now inversion Hs.
Qed.

(** What [sub] returns is made of characters of the subject and of
    replacements. *)
Lemma scan_pieces (r : regex) (P : char -> Prop) (s : str) :
  Forall P s ->
  forall pv skip,
    Forall (fun p => match p with Text c => P c | Found _ => True end)
           (scan r pv s skip).
Proof.
  induction 1 as [|c t Hc Ht IH]; intros pv skip.
  - destruct skip; cbn [scan]; [|constructor].
    destruct (match_at r false pv []) as [m|]; [|constructor].
    constructor; [exact I|].
    destruct (whole m); [|constructor].
    destruct (match_at r true pv []); repeat constructor.
  - destruct skip; cbn [scan]; [|apply IH].
    destruct (match_at r false pv (c :: t)) as [m|].
    + constructor; [exact I|].
      destruct (whole m); [|apply IH].
      destruct (match_at r true pv (c :: t)).
      * constructor; [exact I|apply IH].
      * constructor; [exact Hc|apply IH].
    + constructor; [exact Hc|apply IH].
Qed.

Lemma sub_Forall (r : regex) (repl : rmatch -> str) (P : char -> Prop) (s : str) :
  Forall P s ->
  (forall m, Forall P (repl m)) ->
  Forall P (sub r repl s).
Proof.
  intros Hs Hr. rewrite sub_render.
  pose proof (scan_pieces r Hs None 0) as H.
  induction H as [|[c|m] ps Hp _ IH]; simpl; [constructor| |].
  - constructor; assumption.
  - apply Forall_app; split; [apply Hr|exact IH].
Qed.

(** Skipping the characters a match covers. *)
Lemma scan_skip (r : regex) (a b : str) (pv : option char) :
  scan r pv (a ++ b) (length a) = scan r (prev_after a pv) b 0.
Proof.
  revert pv. induction a as [|c a IH]; intros pv; [reflexivity|].
  cbn [app length scan]. now rewrite IH.
Qed.

(** The first match found by [search]. *)
Lemma search_first_match (r : regex) (s : str) : search r s = first_match r None s.
Proof.
  unfold search, finditer. generalize (@None char) as pv.
  induction s as [|c t IH]; intros pv.
  - cbn [scan first_match]. destruct (match_at r false pv []); reflexivity.
  - cbn [scan first_match]. destruct (match_at r false pv (c :: t)); [reflexivity|].
    cbn [flat_map app]. apply IH.
Qed.

Lemma first_match_None (r : regex) (s : str) (pv : option char) :
  (forall pre t pv', s = pre ++ t -> match_at r false pv' t = None) ->
  first_match r pv s = None.
Proof.
  revert pv. induction s as [|c t IH]; intros pv H.
  - simpl. now rewrite (H [] [] pv eq_refl).
  - cbn [first_match]. rewrite (H [] (c :: t) pv eq_refl).
    apply IH. intros pre u pv' ->. now apply (H (c :: pre) u pv').
Qed.

Lemma first_match_Some (r : regex) (s : str) (pv : option char) (m : rmatch) :
  first_match r pv s = Some m ->
  exists pre t pv', s = pre ++ t /\ match_at r false pv' t = Some m.
Proof.
  revert pv. induction s as [|c t IH]; intros pv H; cbn [first_match] in H.
  - destruct (match_at r false pv []) eqn:E; [|discriminate].
    exists [], [], pv. now injection H as <-.
  - destruct (match_at r false pv (c :: t)) eqn:E.
    + exists [], (c :: t), pv. now injection H as <-.
    + destruct (IH _ H) as (pre & u & pv' & -> & Hm).
      now exists (c :: pre), u, pv'.
Qed.

(** One iteration of a repetition of a character class. *)
Lemma star_loop_Cls (q : char -> bool) (k : mstate -> option mstate) (greedy : bool)
    (fuel : nat) (s : mstate) :
  star_loop (go (Cls q)) k greedy (S fuel) s =
    let more :=
      match rest s with
      | c :: t =>
          if q c then star_loop (go (Cls q)) k greedy fuel (MState (Some c) t (groups s))
          else None
      | [] => None
      end in
    if greedy then match more with Some m => Some m | None => k s end
    else match k s with Some m => Some m | None => more end.
Proof.
  cbn [star_loop go]. cbv zeta.
  destruct (rest s) as [|c t]; [reflexivity|].
  destruct (q c); [|reflexivity].
  cbn [rest length].
  assert (H : Nat.ltb (length t) (S (length t)) = true) by (apply Nat.ltb_lt; lia).
  now rewrite H.
Qed.

(** A greedy repetition of a class followed by nothing that can fail
    reads the longest run of the class. *)
Lemma star_greedy_run (q : char -> bool) (fuel : nat) (s : mstate) :
  length (rest s) < fuel ->
  star_loop (go (Cls q)) (fun s' => Some s') true fuel s =
    Some (MState (prev_after (takewhile q (rest s)) (prev s))
                 (dropwhile q (rest s)) (groups s)).
Proof.
  revert s. induction fuel as [|fuel IH]; intros s Hlen; [lia|].
  rewrite star_loop_Cls. cbv zeta.
  destruct s as [pv [|c t] g]; cbn [rest prev groups takewhile dropwhile] in *;
    [reflexivity|].
  destruct (q c); [|reflexivity].
  rewrite IH by (simpl in *; lia). reflexivity.
Qed.

Lemma match_at_plus_class (q : char -> bool) (pv : option char) (s : str) :
  match_at (Plus true (Cls q)) false pv s =
    match s with
    | c :: t =>
        if q c then Some (RMatch (c :: takewhile q t) [] (dropwhile q t)) else None
    | [] => None
    end.
Proof.
  unfold match_at, Plus. rewrite go_Seq, go_Cls. cbn [rest andb groups].
  destruct s as [|c t]; [reflexivity|].
  destruct (q c); [|reflexivity].
  rewrite go_Star, star_greedy_run by (simpl; lia). cbn [rest groups].
  f_equal. f_equal.
  rewrite <- (take_drop q t) at 1.
  change (c :: takewhile q t ++ dropwhile q t)
    with ((c :: takewhile q t) ++ dropwhile q t).
  apply consumed_app.
Qed.

(** Deleting the runs of a class deletes its characters. *)
Lemma scan_delete_class (q : char -> bool) (s : str) :
  forall pv skip,
    Forall (fun c => q c = true) (firstn skip s) ->
    flat_map (render (fun _ => [])) (scan (Plus true (Cls q)) pv s skip)
    = filter (fun c => negb (q c)) s.
Proof.
  induction s as [|c t IH]; intros pv skip Hskip.
  - destruct skip; cbn [scan]; [|reflexivity].
    now rewrite match_at_plus_class.
  - destruct skip as [|j].
    + cbn [scan]. rewrite match_at_plus_class. cbn [filter].
      destruct (q c) eqn:E; cbn [negb].
      * cbn [whole flat_map render app length Nat.sub].
        rewrite Nat.sub_0_r.
        apply IH. rewrite firstn_takewhile. apply takewhile_all.
      * cbn [flat_map render app]. f_equal. apply IH. constructor.
    + cbn [scan filter]. cbn [firstn] in Hskip. inversion Hskip as [|? ? Hq Hrest]; subst.
      rewrite Hq. cbn [negb]. now apply IH.
Qed.

Lemma sub_delete_class (q : char -> bool) (s : str) :
  sub (Plus true (Cls q)) (fun _ => []) s = filter (fun c => negb (q c)) s.
Proof. rewrite sub_render. apply scan_delete_class. constructor. Qed.

Lemma star_lazy_any (k : mstate -> option mstate) (fuel : nat) (s : mstate) :
  length (rest s) < fuel ->
  star_loop (go (Cls (fun _ => true))) k false fuel s
  = first_suffix k (prev s) (rest s) (groups s).
Proof.
  revert s. induction fuel as [|fuel IH]; intros s Hlen; [lia|].
  rewrite star_loop_Cls. cbv zeta.
  destruct s as [pv [|c t] g]; cbn [rest prev groups first_suffix] in *.
  - destruct (k _); reflexivity.
  - destruct (k _); [reflexivity|].
    rewrite IH by (simpl in *; lia). reflexivity.
Qed.

Lemma star_greedy_try (q : char -> bool) (k : mstate -> option mstate)
    (fuel : nat) (s : mstate) :
  length (rest s) < fuel ->
  star_loop (go (Cls q)) k true fuel s
  = greedy_try q k (prev s) (rest s) (groups s).
Proof.
  revert s. induction fuel as [|fuel IH]; intros s Hlen; [lia|].
  rewrite star_loop_Cls. cbv zeta.
  destruct s as [pv [|c t] g]; cbn [rest prev groups greedy_try] in *;
    [reflexivity|].
  destruct (q c); [|reflexivity].
  rewrite IH by (simpl in *; lia). reflexivity.
Qed.

End ReProps.

(* ================================================================== *)
(** ** Occurrences of a string *)

Module FindProps.
Import Re Spec ReProps.

Lemma find_sound (needle s before after : str) :
  find needle s = Some (before, after) -> s = before ++ needle ++ after.
Proof.
  revert before. induction s as [|c t IH]; intros before H; cbn [find] in H.
  - destruct (strip_prefix needle []) eqn:E; [|discriminate].
    injection H as <- <-. now apply strip_prefix_Some in E.
  - destruct (strip_prefix needle (c :: t)) eqn:E.
    + injection H as <- <-. now apply strip_prefix_Some in E.
    + destruct (find needle t) as [[b a]|]; [|discriminate].
      injection H as <- <-. now rewrite (IH b eq_refl).
Qed.

Lemma find_complete (needle s : str) : occurs needle s -> find needle s <> None.
Proof.
  intros (before & after & ->).
  induction before as [|c before IH].
  - simpl. destruct (needle ++ after) eqn:E; cbn [find]; rewrite <- E;
      rewrite strip_prefix_app; discriminate.
  - cbn [app find].
    destruct (strip_prefix needle (c :: before ++ needle ++ after)); [discriminate|].
    destruct (find needle (before ++ needle ++ after)) as [[b a]|];
      [discriminate|contradiction].
Qed.

Lemma find_occurs (needle s before after : str) :
  find needle s = Some (before, after) -> occurs needle s.
Proof. intros H. exists before, after. now apply find_sound. Qed.

(** Characters that do not begin the needle are passed over. *)
Lemma find_skip (a : char) (needle skipped s : str) :
  Forall (fun c => char_eqb a c = false) skipped ->
  find (a :: needle) (skipped ++ s) =
    match find (a :: needle) s with
    | Some (before, after) => Some (skipped ++ before, after)
    | None => None
    end.
Proof.
  induction 1 as [|c skipped Hc _ IH].
  - simpl. destruct (find (a :: needle) s) as [[b r]|]; reflexivity.
  - cbn [app find strip_prefix]. rewrite Hc, IH.
    destruct (find (a :: needle) s) as [[b r]|]; reflexivity.
Qed.

Lemma occurs_skip (a : char) (needle skipped s : str) :
  Forall (fun c => char_eqb a c = false) skipped ->
  occurs (a :: needle) (skipped ++ s) -> occurs (a :: needle) s.
Proof.
  intros Hs Ho. apply find_complete in Ho. rewrite (@find_skip a needle skipped s Hs) in Ho.
  destruct (find (a :: needle) s) as [[b r]|] eqn:E; [|contradiction].
  now apply find_occurs in E.
Qed.

End FindProps.

(* ================================================================== *)
(** ** The cleaning steps *)

Module CleaningProps.
Import Re Shacl Spec ReProps.

Section WithUnicode.
Context {U : Unicode}.

Lemma backtick_not_turtle : turtle_char backtick = false.
Proof.
  unfold turtle_char, isword.
  replace (N.ltb backtick 128) with true by reflexivity.
  reflexivity.
Qed.

(** The first substitution keeps the characters of the whitelist. *)
Lemma whitelist_is_filter (doc : str) :
  sub non_turtle (fun _ => []) doc = filter turtle_char doc.
Proof.
  unfold non_turtle. rewrite sub_delete_class.
  apply filter_ext. intros c. now rewrite negb_involutive.
Qed.

Lemma no_backtick_after_whitelist (doc : str) :
  Forall (fun c => char_eqb backtick c = false) (sub non_turtle (fun _ => []) doc).
Proof.
  rewrite whitelist_is_filter. apply Forall_forall. intros c Hc.
  apply filter_In in Hc as [_ Hc].
  unfold char_eqb. destruct (N.eqb_spec backtick c) as [<-|]; [|reflexivity].
  now rewrite backtick_not_turtle in Hc.
Qed.

Lemma no_backtick_after_blank_lines (doc : str) :
  Forall (fun c => char_eqb backtick c = false)
         (sub blank_lines (fun _ => [nl]) (sub non_turtle (fun _ => []) doc)).
Proof.
  apply sub_Forall; [apply no_backtick_after_whitelist|].
  intros _. repeat constructor.
Qed.

Lemma LitI_Classes (l : str) : LitI l = Classes (map ignorecase l).
Proof. induction l as [|c t IH]; simpl; [reflexivity|]. now rewrite IH. Qed.

Lemma match_at_Classes (ps : list (char -> bool)) (pv : option char) (s : str) :
  match_at (Classes ps) false pv s =
    match match_classes ps s with
    | Some t => Some (RMatch (consumed s t) [] t)
    | None => None
    end.
Proof.
  unfold match_at. rewrite go_Classes. cbn [rest groups andb].
  destruct (match_classes ps s); reflexivity.
Qed.

Lemma match_classes_Some (ps : list (char -> bool)) (s t : str) :
  match_classes ps s = Some t ->
  exists found, s = found ++ t /\ Forall2 (fun q x => q x = true) ps found.
Proof.
  revert s. induction ps as [|q ps IH]; intros s H; simpl in H.
  - injection H as ->. exists []. split; [reflexivity|constructor].
  - destruct s as [|c s']; [discriminate|].
    destruct (q c) eqn:E; [|discriminate].
    destruct (IH _ H) as (found & -> & HF).
    exists (c :: found). split; [reflexivity|now constructor].
Qed.

Lemma match_classes_app (ps : list (char -> bool)) (found t : str) :
  Forall2 (fun q x => q x = true) ps found ->
  match_classes ps (found ++ t) = Some t.
Proof.
  induction 1 as [|q x ps found Hq _ IH]; simpl; [reflexivity|].
  now rewrite Hq.
Qed.

Lemma Forall2_map_classes (l found : str) :
  Forall2 (fun q x => q x = true) (map ignorecase l) found
  <-> Forall2 (fun c x => ignorecase c x = true) l found.
Proof.
  split.
  - revert found. induction l as [|c l IH]; intros found H; inversion H; subst;
      constructor; auto.
  - induction 1; simpl; constructor; auto.
Qed.

Lemma first_match_found (r : regex) (pre t : str) :
  (forall pv, match_at r false pv t <> None) ->
  forall pv, first_match r pv (pre ++ t) <> None.
Proof.
  intros Ht. induction pre as [|c pre IH]; intros pv.
  - simpl. destruct t as [|c t]; cbn [first_match];
      destruct (match_at r false pv _) eqn:E; try discriminate;
      now apply Ht in E.
  - cbn [app first_match].
    destruct (match_at r false pv (c :: pre ++ t)); [discriminate|apply IH].
Qed.

(** The test [re.search(r'@prefix', doc, re.IGNORECASE)] finds the word
    wherever it stands, in any case. *)
Lemma has_prefix_decl_iff (doc : str) :
  has_prefix_decl doc = true <-> contains_ignorecase (lit "@prefix") doc.
Proof.
  unfold has_prefix_decl. rewrite search_first_match, LitI_Classes. split.
  - destruct (first_match _ None doc) as [m|] eqn:E; [intros _|discriminate].
    apply first_match_Some in E as (pre & t & pv & -> & Hm).
    rewrite match_at_Classes in Hm.
    destruct (match_classes _ t) as [u|] eqn:Hu; [|discriminate].
    apply match_classes_Some in Hu as (found & -> & HF).
    exists pre, found, u. split; [reflexivity|].
    now apply Forall2_map_classes.
  - intros (before & found & rest & -> & HF).
    apply Forall2_map_classes in HF.
    pose proof (@first_match_found (Classes (map ignorecase (lit "@prefix")))
                  before (found ++ rest)) as H.
    destruct (first_match _ None (before ++ found ++ rest)) eqn:E; [reflexivity|].
    exfalso. revert E. apply H. intros pv.
    rewrite match_at_Classes, (match_classes_app _ HF). discriminate.
Qed.


(** C8. The first substitution of the cleaning steps removes every
    backtick, so the two substitutions that remove markdown fences change
    nothing: in [validate_shacl] and in [auto_correct_shacl] alike, the
    document after them is the document before them, and the cleaned
    document is what the other steps alone produce. *)
Theorem fence_removal_is_identity (doc : str) :
  let whitelisted := sub non_turtle (fun _ => []) doc in
  let collapsed := sub blank_lines (fun _ => [nl]) whitelisted in
  ~ In backtick whitelisted
  /\ sub fence (fun _ => []) (sub fence_tagged (fun _ => []) whitelisted) = whitelisted
  /\ sub fence_tagged (fun _ => []) collapsed = collapsed
  /\ sub fence (fun _ => []) (sub fence_tagged (fun _ => []) collapsed) = collapsed
  /\ validate_clean doc = sub prefix_line add_dot (strip collapsed)
  /\ correct_clean doc = sub prefix_line add_dot (strip collapsed).
Proof.
  intros whitelisted collapsed.
  assert (H1 : sub fence_tagged (fun _ => []) collapsed = collapsed).
  { apply sub_first_class with (p := char_eqb backtick); [reflexivity|].
    apply no_backtick_after_blank_lines. }
  assert (H2 : sub fence (fun _ => []) collapsed = collapsed).
  { apply sub_first_class with (p := char_eqb backtick); [reflexivity|].
    apply no_backtick_after_blank_lines. }
  assert (H0 : sub fence (fun _ => []) (sub fence_tagged (fun _ => []) whitelisted)
               = whitelisted).
  { rewrite (@sub_first_class fence_tagged (char_eqb backtick) _ whitelisted);
      [|reflexivity|apply no_backtick_after_whitelist].
    apply sub_first_class with (p := char_eqb backtick); [reflexivity|].
    apply no_backtick_after_whitelist. }
  split; [|split; [exact H0|split; [exact H1|split; [now rewrite H1|]]]].
  - intros Hin.
    pose proof (no_backtick_after_whitelist doc) as Hall.
    rewrite Forall_forall in Hall. specialize (Hall _ Hin).
    unfold char_eqb in Hall. now rewrite N.eqb_refl in Hall.
  - unfold validate_clean, correct_clean. fold whitelisted. fold collapsed.
    rewrite H1, H2. split; reflexivity.
Qed.

End WithUnicode.
End CleaningProps.

(* ================================================================== *)
(** ** [extract_shacl_code] *)

Module ExtractProps.
Import Re Shacl Wizard Spec ReProps FindProps.

Lemma space_not_backtick (c : char) : isspace c = true -> char_eqb backtick c = false.
Proof.
  intros H. unfold char_eqb. destruct (N.eqb_spec backtick c) as [<-|]; [|reflexivity].
  discriminate H.
Qed.

Lemma find_after_spaces (s : str) :
  find fence_mark s =
    match find fence_mark (dropwhile isspace s) with
    | Some (before, after) => Some (takewhile isspace s ++ before, after)
    | None => None
    end.
Proof.
  rewrite <- (take_drop isspace s) at 1.
  apply (@find_skip backtick [backtick; backtick]).
  eapply Forall_impl; [|apply takewhile_all].
  intros c Hc. now apply space_not_backtick.
Qed.

(** The lazy repetition stops at the first position at which the rest
    of the pattern, a literal, is found. *)
Lemma first_suffix_find (k : mstate -> option mstate) (needle : str)
    (h : str -> str -> mstate) (g : list (nat * str)) :
  (forall p u, k (MState p u g) =
               match strip_prefix needle u with
               | Some a => Some (h u a)
               | None => None
               end) ->
  forall s pv,
    first_suffix k pv s g =
      match find needle s with
      | Some (_, a) => Some (h (needle ++ a) a)
      | None => None
      end.
Proof.
  intros Hk. induction s as [|c t IH]; intros pv; cbn [first_suffix find]; rewrite Hk.
  - destruct (strip_prefix needle []) eqn:E; [|reflexivity].
    now rewrite (strip_prefix_Some _ _ E).
  - destruct (strip_prefix needle (c :: t)) eqn:E.
    + now rewrite (strip_prefix_Some _ _ E).
    + rewrite IH. destruct (find needle t) as [[b a]|]; reflexivity.
Qed.

(** The contents group and the closing fence. *)
Lemma contents_then_fence (p : option char) (r : str) (g : list (nat * str)) :
  go (Seq (Group 1 (Star false any)) (Lit (lit "```"))) (fun s' => Some s')
     (MState p r g) =
    match find fence_mark r with
    | Some (contents, after) =>
        Some (MState (Some backtick) after (set_group 1 contents g))
    | None => None
    end.
Proof.
  rewrite go_Seq, go_Group. unfold any. rewrite go_Star.
  rewrite star_lazy_any by (simpl; lia). cbn [rest prev groups].
  rewrite (@first_suffix_find _ fence_mark
             (fun u a => MState (Some backtick) a (set_group 1 (consumed r u) g))).
  - destruct (find fence_mark r) as [[b a]|] eqn:E; [|reflexivity].
    apply find_sound in E. rewrite E at 1. now rewrite consumed_app.
  - intros p' u. cbn [prev rest groups]. rewrite go_Lit. cbn [rest prev groups].
    unfold fence_mark. destruct (strip_prefix (lit "```") u); reflexivity.
Qed.

(** White space, then the contents and the closing fence. *)
Lemma spaces_then_block (k : mstate -> option mstate) (g : list (nat * str)) :
  (forall p u, k (MState p u g) =
               match find fence_mark u with
               | Some (contents, after) =>
                   Some (MState (Some backtick) after (set_group 1 contents g))
               | None => None
               end) ->
  forall s pv, greedy_try isspace k pv s g = block_state s g.
Proof.
  intros Hk. induction s as [|c t IH]; intros pv; cbn [greedy_try].
  - rewrite Hk. reflexivity.
  - unfold block_state. cbn [dropwhile].
    destruct (isspace c) eqn:E.
    + rewrite IH. unfold block_state.
      destruct (find fence_mark (dropwhile isspace t)) as [[b a]|] eqn:F;
        [reflexivity|].
      rewrite Hk.
      replace (find fence_mark (c :: t)) with (@None (str * str)); [reflexivity|].
      symmetry. rewrite find_after_spaces. cbn [dropwhile]. now rewrite E, F.
    + rewrite Hk. reflexivity.
Qed.

Lemma tail_of_pattern (p : option char) (r : str) (g : list (nat * str)) :
  go (Seq (Star true space)
          (Seq (Group 1 (Star false any)) (Lit (lit "```"))))
     (fun s' => Some s') (MState p r g)
  = block_state r g.
Proof.
  rewrite go_Seq. unfold space. rewrite go_Star.
  rewrite star_greedy_try by (simpl; lia). cbn [rest prev groups].
  apply spaces_then_block. intros p' u. apply contents_then_fence.
Qed.

(** One attempt of the pattern of [extract_shacl_code] at one position. *)
Lemma match_at_shacl_pattern (pv : option char) (s : str) :
  match_at shacl_pattern false pv s =
    match strip_prefix fence_mark s with
    | None => None
    | Some opened =>
        match
          match strip_prefix (lit "turtle") opened with
          | Some tagged =>
              match block_state tagged [] with
              | Some s' => Some s'
              | None => block_state opened []
              end
          | None => block_state opened []
          end
        with
        | Some s' => Some (RMatch (consumed s (rest s')) (groups s') (rest s'))
        | None => None
        end
    end.
Proof.
  unfold match_at, shacl_pattern. cbn [andb].
  rewrite go_Seq, go_Lit. cbn [rest prev groups].
  change (strip_prefix (lit "```") s) with (strip_prefix fence_mark s).
  destruct (strip_prefix fence_mark s) as [opened|]; [|reflexivity].
  rewrite go_Seq. unfold Opt. rewrite go_Alt, go_Lit, go_Eps.
  cbn [rest prev groups].
  destruct (strip_prefix (lit "turtle") opened) as [tagged|].
  - rewrite !tail_of_pattern. reflexivity.
  - rewrite tail_of_pattern. reflexivity.
Qed.

Lemma turtle_not_backtick :
  Forall (fun c => char_eqb backtick c = false) (lit "turtle").
Proof. repeat constructor. Qed.

Lemma block_state_None (r : str) (g : list (nat * str)) :
  block_state r g = None <-> find fence_mark r = None.
Proof.
  unfold block_state. rewrite (find_after_spaces r).
  destruct (find fence_mark (dropwhile isspace r)) as [[b a]|];
    split; intros H; try discriminate; reflexivity.
Qed.

Lemma find_tagged (opened tagged : str) :
  strip_prefix (lit "turtle") opened = Some tagged ->
  find fence_mark tagged = None -> find fence_mark opened = None.
Proof.
  intros Ht Hf. apply strip_prefix_Some in Ht. subst opened.
  change fence_mark with (backtick :: [backtick; backtick]) in *.
  rewrite (@find_skip backtick [backtick; backtick] _ tagged turtle_not_backtick).
  now rewrite Hf.
Qed.

(** With or without the tag, the attempt succeeds exactly when a fence
    follows the opening one. *)
Lemma match_at_block (pv : option char) (s : str) :
  match_at shacl_pattern false pv s =
    match strip_prefix fence_mark s with
    | None => None
    | Some opened =>
        match block_state (drop_tag (lit "turtle") opened) [] with
        | Some s' => Some (RMatch (consumed s (rest s')) (groups s') (rest s'))
        | None => None
        end
    end.
Proof.
  rewrite match_at_shacl_pattern.
  destruct (strip_prefix fence_mark s) as [opened|]; [|reflexivity].
  unfold drop_tag.
  destruct (strip_prefix (lit "turtle") opened) as [tagged|] eqn:Ht; [|reflexivity].
  destruct (block_state tagged []) eqn:Hb; [reflexivity|].
  apply block_state_None in Hb.
  apply (find_tagged _ Ht) in Hb. apply (block_state_None opened []) in Hb.
  now rewrite Hb.
Qed.

Lemma lstrip_spaces (ws s : str) :
  Forall (fun c => isspace c = true) ws -> lstrip (ws ++ s) = lstrip s.
Proof. induction 1 as [|c ws Hc _ IH]; simpl; [reflexivity|now rewrite Hc]. Qed.

Lemma strip_spaces (ws s : str) :
  Forall (fun c => isspace c = true) ws -> strip (ws ++ s) = strip s.
Proof. intros H. unfold strip. now rewrite lstrip_spaces. Qed.

Lemma second_fence (c : char) (pre x1 x2 opened : str) :
  fence_mark ++ opened = c :: pre ++ fence_mark ++ x1 ++ fence_mark ++ x2 ->
  occurs fence_mark opened.
Proof.
  intros H. change fence_mark with [backtick; backtick; backtick] in *.
  cbn [app] in H. injection H as _ H.
  destruct pre as [|p0 [|p1 pre]]; cbn [app] in H.
  - injection H as ->. now exists (backtick :: x1), x2.
  - injection H as _ ->. now exists (backtick :: backtick :: x1), x2.
  - injection H as _ _ ->.
    now exists pre, (x1 ++ [backtick; backtick; backtick] ++ x2).
Qed.

(** A successful attempt stands on a fence that another fence follows. *)
Lemma match_at_two_fences (pv : option char) (u : str) (m : rmatch) :
  match_at shacl_pattern false pv u = Some m ->
  exists x1 x2, u = fence_mark ++ x1 ++ fence_mark ++ x2.
Proof.
  rewrite match_at_block.
  destruct (strip_prefix fence_mark u) as [opened|] eqn:E; [|discriminate].
  apply strip_prefix_Some in E. subst u.
  destruct (block_state _ []) eqn:Hb; [intros _|discriminate].
  assert (Hf : find fence_mark (drop_tag (lit "turtle") opened) <> None).
  { intros Hn. apply (block_state_None _ []) in Hn. congruence. }
  assert (Ho : occurs fence_mark opened).
  { unfold drop_tag in Hf.
    destruct (strip_prefix (lit "turtle") opened) as [tagged|] eqn:Ht.
    - destruct (find fence_mark opened) as [[b a]|] eqn:F.
      + now apply find_occurs in F.
      + destruct (find fence_mark tagged) as [[b a]|] eqn:F'; [|contradiction].
        apply find_sound in F'. apply strip_prefix_Some in Ht. subst.
        exists (lit "turtle" ++ b), a. now rewrite <- app_assoc.
    - destruct (find fence_mark opened) as [[b a]|] eqn:F; [|contradiction].
      now apply find_occurs in F. }
  destruct Ho as (x1 & x2 & ->). now exists x1, x2.
Qed.

(** The search of [extract_shacl_code] and the first fenced block. *)
Lemma first_match_block (text : str) :
  forall pv,
    match first_fenced_block text with
    | Some contents =>
        exists m, first_match shacl_pattern pv text = Some m
                  /\ strip (group m 1) = strip contents
    | None => first_match shacl_pattern pv text = None
    end.
Proof.
  induction text as [|c t IH]; intros pv.
  - unfold first_fenced_block. cbn [find first_match].
    rewrite match_at_block. reflexivity.
  - unfold first_fenced_block. cbn [find first_match]. rewrite match_at_block.
    destruct (strip_prefix fence_mark (c :: t)) as [opened|] eqn:E.
    + unfold block_state.
      rewrite (find_after_spaces (drop_tag (lit "turtle") opened)).
      destruct (find fence_mark (dropwhile isspace (drop_tag (lit "turtle") opened)))
        as [[b a]|] eqn:F.
      * eexists. split; [reflexivity|]. cbn [group captures rest groups get_group].
        unfold set_group. cbn [Nat.eqb get_group]. symmetry.
        apply strip_spaces, takewhile_all.
      * apply first_match_None. intros pre u pv' ->.
        destruct (match_at shacl_pattern false pv' u) as [m|] eqn:Hm; [|reflexivity].
        exfalso.
        apply match_at_two_fences in Hm as (x1 & x2 & ->).
        apply strip_prefix_Some in E. symmetry in E.
        apply second_fence in E.
        assert (Hn : find fence_mark opened = None).
        { assert (Hd : find fence_mark (drop_tag (lit "turtle") opened) = None)
            by (rewrite find_after_spaces, F; reflexivity).
          unfold drop_tag in Hd.
          destruct (strip_prefix (lit "turtle") opened) eqn:Ht; [|exact Hd].
          exact (find_tagged _ Ht Hd). }
        now apply find_complete in E.
    + specialize (IH (Some c)). unfold first_fenced_block in IH.
      destruct (find fence_mark t) as [[b opened]|]; exact IH.
Qed.

(** C10. [extract_shacl_code] returns the stripped contents of the first
    fenced code block of the text: what lies between the first fence of
    three backticks (and the tag [turtle], when it follows the fence) and
    the next fence, over as many lines as there are; when the text has no
    such block it returns the whole text, stripped. *)
Theorem extract_shacl_code_first_block (text : str) :
  extract_shacl_code text =
    match first_fenced_block text with
    | Some contents => strip contents
    | None => strip text
    end.
Proof.
  unfold extract_shacl_code. rewrite search_first_match.
  pose proof (first_match_block text None) as H.
  destruct (first_fenced_block text) as [contents|].
  - destruct H as (m & -> & Hm). exact Hm.
  - now rewrite H.
Qed.

End ExtractProps.

(* ================================================================== *)
(** ** The wizard *)

Module WizardProps.
Import Re Shacl Client Wizard Spec ClientProps.

Lemma extends_refl (a : Application) (tr : trace) : extends a a tr tr.
Proof.
  repeat split; auto.
  - exists []. now rewrite app_nil_r.
  - exists []. split; [now rewrite app_nil_r|constructor].
Qed.

Lemma extends_trans (a1 a2 a3 : Application) (t1 t2 t3 : trace) :
  extends a1 a2 t1 t2 -> extends a2 a3 t2 t3 -> extends a1 a3 t1 t3.
Proof.
  intros (S1 & (h1 & H1) & (n1 & T1 & F1)) (S2 & (h2 & H2) & (n2 & T2 & F2)).
  repeat split; auto.
  - exists (h1 ++ h2). now rewrite H2, H1, app_assoc.
  - exists (n1 ++ n2). split; [now rewrite T2, T1, app_assoc|].
    apply Forall_app; now split.
Qed.

Lemma orderly_ret {A} (x : A) : orderly (ret x).
Proof. intros a tr. apply extends_refl. Qed.

Lemma orderly_raise {A} (e : exn) : orderly (@raise Application A e).
Proof. intros a tr. apply extends_refl. Qed.

Lemma orderly_get : orderly (@get Application).
Proof. intros a tr. apply extends_refl. Qed.

Lemma orderly_bind {A B} (c : M Application A) (k : A -> M Application B) :
  orderly c -> (forall x, orderly (k x)) -> orderly (bind c k).
Proof.
  intros Hc Hk a tr. unfold bind.
  specialize (Hc a tr).
  destruct (c a tr) as [[[x|e] a1] tr1]; cbn [fst snd] in *; [|exact Hc].
  eapply extends_trans; [exact Hc|apply Hk].
Qed.

Lemma orderly_modify (f : Application -> Application) :
  (forall a, current_step (f a) = current_step a \/ step_ok (f a)) ->
  (forall a, client (f a) = client a) ->
  orderly (modify f).
Proof.
  intros Hs Hc a tr. unfold modify; cbn [fst snd]. repeat split.
  - intros Ha. destruct (Hs a) as [E|E]; [|exact E].
    unfold step_ok in *. now rewrite E.
  - exists []. now rewrite Hc, app_nil_r.
  - exists []. split; [now rewrite app_nil_r|constructor].
Qed.

Lemma orderly_emit (e : event) : is_lint e = false -> orderly (emit e).
Proof.
  intros He a tr. unfold emit; cbn [fst snd]. repeat split; auto.
  - exists []. now rewrite app_nil_r.
  - exists [e]. split; [reflexivity|now constructor].
Qed.

Lemma orderly_index {A} (xs : list A) (i : nat) : orderly (index xs i).
Proof.
  unfold index. destruct (nth_error xs i); [apply orderly_ret|apply orderly_raise].
Qed.

Section WithServices.
Context {U : Unicode} {Sv : Services} {P : Prompts}.

Lemma client_ask_eq (prompt : str) (a : Application) (tr : trace) :
  client_ask prompt a tr =
    (fst (fst (ask prompt default_max_retries (client a) tr)),
     set_client (snd (fst (ask prompt default_max_retries (client a) tr))) a,
     snd (ask prompt default_max_retries (client a) tr)).
Proof.
  unfold client_ask, zoom.
  destruct (ask prompt default_max_retries (client a) tr) as [[r c'] tr'].
  reflexivity.
Qed.

Lemma orderly_client_ask (prompt : str) : orderly (client_ask prompt).
Proof.
  intros a tr. rewrite client_ask_eq. cbn [fst snd].
  destruct (ask_shape prompt default_max_retries (client a) tr)
    as (k & new & _ & Hnew & _ & Hlint & Hhist).
  repeat split.
  - auto.
  - cbn [set_client client]. rewrite Hhist. eexists. reflexivity.
  - exists new. now split.
Qed.

Lemma orderly_create_result_interface (result : option str) (prompt : str) :
  orderly (create_result_interface result prompt).
Proof.
  unfold create_result_interface, clear_window.
  apply orderly_bind; [apply orderly_modify; auto|intros _].
  apply orderly_bind.
  { destruct result; [apply orderly_ret|apply orderly_raise]. }
  intros shacl_code.
  apply orderly_bind; [apply orderly_modify; auto|intros _].
  apply orderly_bind; [apply orderly_get|intros a].
  apply orderly_modify; auto.
Qed.

Lemma orderly_create_main_interface : orderly create_main_interface.
Proof.
  unfold create_main_interface, clear_window.
  apply orderly_bind; [apply orderly_modify; auto|intros _].
  apply orderly_bind; [apply orderly_get|intros a].
  apply orderly_bind; [apply orderly_modify; auto|intros _].
  apply orderly_modify; auto.
Qed.

Lemma orderly_set_step (n : Z) :
  (n = 1 \/ n = 2 \/ n = 3)%Z -> orderly (modify (set_current_step n)).
Proof. intros Hn. apply orderly_modify; auto. Qed.

Lemma orderly_process_use_case (new_prompt : option str) :
  orderly (process_use_case new_prompt).
Proof.
  unfold process_use_case.
  apply orderly_bind; [apply orderly_get|intros a].
  apply orderly_bind; [apply orderly_modify; auto|intros _].
  apply orderly_bind; [apply orderly_get|intros a'].
  destruct (use_case a').
  - now apply orderly_emit.
  - apply orderly_bind; [apply orderly_client_ask|intros r].
    apply orderly_bind; [apply orderly_create_result_interface|intros _].
    apply orderly_set_step; auto.
Qed.

Lemma orderly_describe_entities (text : str) (entities : list str) :
  forall prompt_2 d, orderly (describe_entities text entities prompt_2 d).
Proof.
  induction entities as [|e es IH]; intros prompt_2 d; cbn [describe_entities].
  - apply orderly_ret.
  - apply orderly_bind; [apply orderly_index|intros tail].
    apply orderly_bind; [apply orderly_index|intros first_line].
    apply IH.
Qed.

Lemma orderly_process_next_step (prompt : str) : orderly (process_next_step prompt).
Proof.
  unfold process_next_step.
  apply orderly_bind; [apply orderly_get|intros a].
  destruct (Z.eqb (current_step a) 1).
  { apply orderly_bind; [apply orderly_describe_entities|intros [p2 d]].
    apply orderly_bind; [apply orderly_client_ask|intros r].
    apply orderly_bind; [apply orderly_create_result_interface|intros _].
    apply orderly_set_step; auto. }
  destruct (Z.eqb (current_step a) 2).
  { apply orderly_bind; [apply orderly_client_ask|intros r].
    apply orderly_bind; [apply orderly_create_result_interface|intros _].
    apply orderly_set_step; auto. }
  destruct (Z.eqb (current_step a) 3).
  - unfold destroy. apply orderly_modify; auto.
  - apply orderly_ret.
Qed.

Lemma orderly_ask_for_new_prompt (prompt : str) (answer : option str) :
  orderly (ask_for_new_prompt prompt answer).
Proof.
  unfold ask_for_new_prompt.
  destruct answer as [[|c t]|]; try apply orderly_ret.
  apply orderly_bind.
  { intros a tr. unfold modify; cbn [fst snd set_client client]. repeat split; auto.
    - unfold append. cbn [history]. eexists; reflexivity.
    - exists []. split; [now rewrite app_nil_r|constructor]. }
  intros _.
  apply orderly_bind; [apply orderly_client_ask|intros r].
  apply orderly_create_result_interface.
Qed.

Lemma orderly_handler (act : action) : orderly (handler act).
Proof.
  destruct act; cbn [handler].
  - apply orderly_modify; auto.
  - unfold destroy. apply orderly_modify; auto.
  - apply orderly_process_use_case.
  - apply orderly_modify; auto.
  - apply orderly_create_main_interface.
  - apply orderly_bind; [apply orderly_get|intros a]. apply orderly_process_next_step.
  - apply orderly_bind; [apply orderly_get|intros a]. apply orderly_ask_for_new_prompt.
  - unfold destroy. apply orderly_modify; auto.
Qed.

(** Every user action extends the state and the trace in order. *)
Lemma perform_extends (act : action) (a : Application) (tr : trace) :
  extends a (fst (perform act (a, tr))) tr (snd (perform act (a, tr))).
Proof.
  unfold perform. cbn [fst snd].
  destruct (enabled a act); [|apply extends_refl].
  pose proof (orderly_handler act a tr) as H.
  destruct (handler act a tr) as [[r a'] tr']. exact H.
Qed.


(** A call of [ask] whose first request is answered. *)
Lemma ask_first_try (prompt reply : str) (c : OpenAIClient) (tr : trace) :
  chat_create (chat_count tr) (history c ++ [user prompt]) = Ok reply ->
  ask prompt default_max_retries c tr =
    (Ok (Some reply),
     Build (history c ++ [user prompt; assistant reply]),
     tr ++ [EChat (history c ++ [user prompt]) (Ok reply)]).
Proof.
  intros H. unfold ask, default_max_retries.
  change (Z.to_nat 3) with 3. cbn [ask_loop]. unfold bind at 1.
  rewrite attempt_once_eq. cbv zeta. rewrite H.
  now rewrite <- app_assoc.
Qed.

Lemma split_go_nonempty (sep s : str) :
  forall skip cur, 0 < length (split_go sep s skip cur).
Proof.
  induction s as [|c t IH]; intros skip cur; cbn [split_go]; [simpl; lia|].
  destruct skip; [|apply IH].
  destruct (strip_prefix sep (c :: t)); [simpl; lia|apply IH].
Qed.

Lemma split_nonempty (sep s : str) : 0 < length (split sep s).
Proof. apply split_go_nonempty. Qed.

Lemma index_in_range {A} (xs : list A) (i : nat) (d : A) (a : Application)
    (tr : trace) :
  i < length xs -> index xs i a tr = (Ok (nth i xs d), a, tr).
Proof. intros H. unfold index. now rewrite (nth_error_nth' xs d H). Qed.

Lemma describe_entities_eq (text : str) (entities : list str) :
  Forall (fun entity => 1 < length (split (lit "- " ++ entity ++ lit ": ") text))
         entities ->
  forall prompt_2 d a tr,
    describe_entities text entities prompt_2 d a tr =
      (Ok (described text entities prompt_2, declared entities d), a, tr).
Proof.
  induction 1 as [|e es He _ IH]; intros prompt_2 d a tr; [reflexivity|].
  cbn [describe_entities described declared fold_left].
  unfold bind at 1. rewrite (@index_in_range str _ 1 [] a tr He).
  unfold bind at 1.
  rewrite (@index_in_range str _ 0 [] a tr (split_nonempty [nl] _)).
  rewrite IH. reflexivity.
Qed.

#[local] Opaque ask extract_shacl_code strip prompt_1 prompt_3 prompt_2_of
  findall1 findall2 collect_properties.

(** Unfold the plumbing of a handler: the monad and the record updates. *)
Ltac run_handler :=
  cbv beta iota zeta delta
    [bind get modify ret raise emit client_ask zoom create_result_interface
     clear_window destroy set_client set_use_case set_current_step
     set_use_case_text set_result_text set_window client use_case current_step
     use_case_text result_text window].

Lemma process_use_case_eq (a : Application) (tr : trace) :
  let u := strip (widget_get (use_case_text a)) in
  process_use_case None a tr =
    match u with
    | [] =>
        (Ok tt, set_use_case [] a,
         tr ++ [EWarning (lit "Input Error") (lit "Please enter a use case.")])
    | _ :: _ =>
        match ask (prompt_1 u) default_max_retries (client a) tr with
        | (Ok (Some reply), c', tr') =>
            (Ok tt,
             App c' u 1 (use_case_text a) (extract_shacl_code reply)
                 (ResultScreen (Z.eqb (current_step a) 3) (prompt_1 u)),
             tr')
        | (Ok None, c', tr') =>
            (Raise (Exn "TypeError" (lit "expected string or bytes-like object")),
             App c' u (current_step a) (use_case_text a) (result_text a) Blank,
             tr')
        | (Raise e, c', tr') =>
            (Raise e,
             App c' u (current_step a) (use_case_text a) (result_text a) (window a),
             tr')
        end
    end.
Proof.
  intros u. subst u. destruct a as [c0 uc s ut rt w].
  unfold process_use_case. run_handler.
  destruct (strip (widget_get ut)) as [|c t]; [reflexivity|].
  destruct (ask (prompt_1 (c :: t)) default_max_retries c0 tr)
    as [[[[reply|]|e] c'] tr']; reflexivity.
Qed.

Lemma next_step_from_1 (prompt : str) (a : Application) (tr : trace) :
  current_step a = 1%Z ->
  entities_described (formatted_response a) ->
  let p2 := prompt_2_of (formatted_response a) in
  process_next_step prompt a tr =
    match ask p2 default_max_retries (client a) tr with
    | (Ok (Some reply), c', tr') =>
        (Ok tt,
         App c' (use_case a) 2 (use_case_text a) (extract_shacl_code reply)
             (ResultScreen false p2),
         tr')
    | (Ok None, c', tr') =>
        (Raise (Exn "TypeError" (lit "expected string or bytes-like object")),
         App c' (use_case a) 1 (use_case_text a) (result_text a) Blank,
         tr')
    | (Raise e, c', tr') =>
        (Raise e,
         App c' (use_case a) 1 (use_case_text a) (result_text a) (window a),
         tr')
    end.
Proof.
  intros Hs Hd p2. unfold process_next_step, bind at 1, get. rewrite Hs.
  cbn [Z.eqb Pos.eqb]. unfold bind at 1.
  rewrite (@describe_entities_eq (formatted_response a)
             (findall1 entity_pattern (formatted_response a)) Hd).
  change (list_entities _ _ ++ prompt_2_example) with p2.
  destruct a as [c u s ut rt w]. cbn in Hs. subst s. run_handler.
  destruct (ask p2 default_max_retries c tr) as [[[[reply|]|e] c'] tr']; reflexivity.
Qed.

Lemma next_step_from_2 (prompt : str) (a : Application) (tr : trace) :
  current_step a = 2%Z ->
  let p3 := prompt_3 (formatted_response a) in
  process_next_step prompt a tr =
    match ask p3 default_max_retries (client a) tr with
    | (Ok (Some reply), c', tr') =>
        (Ok tt,
         App c' (use_case a) 3 (use_case_text a) (extract_shacl_code reply)
             (ResultScreen false p3),
         tr')
    | (Ok None, c', tr') =>
        (Raise (Exn "TypeError" (lit "expected string or bytes-like object")),
         App c' (use_case a) 2 (use_case_text a) (result_text a) Blank,
         tr')
    | (Raise e, c', tr') =>
        (Raise e,
         App c' (use_case a) 2 (use_case_text a) (result_text a) (window a),
         tr')
    end.
Proof.
  intros Hs p3. unfold process_next_step, bind at 1, get. rewrite Hs.
  cbn [Z.eqb Pos.eqb]. fold p3.
  destruct a as [c u s ut rt w]. cbn in Hs. subst s. run_handler.
  destruct (ask p3 default_max_retries c tr) as [[[[reply|]|e] c'] tr']; reflexivity.
Qed.

Lemma next_step_from_3 (prompt : str) (a : Application) (tr : trace) :
  current_step a = 3%Z ->
  process_next_step prompt a tr = (Ok tt, set_window Destroyed a, tr).
Proof.
  intros Hs. unfold process_next_step, bind, get. rewrite Hs. reflexivity.
Qed.

(** *** Clicks whose request is answered at once *)






(** *** Clicks whose call of [ask] returns a reply *)





(** *** The dictionary built at step 2 *)

Lemma str_eqb_refl (k : str) : str_eqb k k = true.
Proof.
  induction k as [|c k IH]; simpl; [reflexivity|].
  unfold char_eqb. now rewrite N.eqb_refl.
Qed.

Lemma dict_get_set_same {V} (k : str) (v : V) (d : list (str * V)) :
  dict_get k (dict_set k v d) = Some v.
Proof.
  induction d as [|[k0 v0] d IH]; cbn [dict_set dict_get].
  - now rewrite str_eqb_refl.
  - destruct (str_eqb k0 k) eqn:E; cbn [dict_get]; rewrite E; [reflexivity|exact IH].
Qed.

Lemma dict_get_set_other {V} (k k' : str) (v : V) (d : list (str * V)) :
  dict_get k d = Some v -> dict_get k (dict_set k' v d) = Some v.
Proof.
  induction d as [|[k0 v0] d IH]; cbn [dict_set dict_get]; [discriminate|].
  intros H.
  destruct (str_eqb k0 k') eqn:E'; cbn [dict_get];
    destruct (str_eqb k0 k) eqn:E; auto.
Qed.

Lemma dict_set_twice {V} (k : str) (v1 v2 : V) (d : list (str * V)) :
  dict_set k v2 (dict_set k v1 d) = dict_set k v2 d.
Proof.
  induction d as [|[k0 v0] d IH]; cbn [dict_set].
  - now rewrite str_eqb_refl.
  - destruct (str_eqb k0 k) eqn:E; cbn [dict_set]; rewrite E; [reflexivity|].
    now rewrite IH.
Qed.

Lemma last_cons_default {A} (x : A) (xs : list A) (d1 d2 : A) :
  last (x :: xs) d1 = last (x :: xs) d2.
Proof.
  revert x. induction xs as [|y ys IH]; intros x; [reflexivity|].
  change (last (y :: ys) d1 = last (y :: ys) d2). apply IH.
Qed.

(** The inner loop: each iteration assigns the entry anew, so only the
    last property stays. *)
Lemma inner_loop_last (entity : str) (properties : list (str * str))
    (p0 : str * str) (d : class_dict) :
  fold_left (fun d p => dict_set entity [make_property p] d) (p0 :: properties) d
  = dict_set entity [make_property (last (p0 :: properties) p0)] d.
Proof.
  revert p0 d. induction properties as [|p1 ps IH]; intros p0 d; [reflexivity|].
  change (fold_left _ (p0 :: p1 :: ps) d)
    with (fold_left (fun d p => dict_set entity [make_property p] d) (p1 :: ps)
                    (dict_set entity [make_property p0] d)).
  rewrite IH, dict_set_twice.
  change (last (p0 :: p1 :: ps) p0) with (last (p1 :: ps) p0).
  now rewrite (last_cons_default p1 ps p1 p0).
Qed.

Lemma outer_loop_get (v : list prop) (entities : list str) :
  forall d e,
    In e entities \/ dict_get e d = Some v ->
    dict_get e (fold_left (fun d entity => dict_set entity v d) entities d) = Some v.
Proof.
  induction entities as [|e0 es IH]; intros d e [Hin|Hget]; cbn [fold_left].
  - contradiction.
  - exact Hget.
  - apply IH. destruct Hin as [->|Hin]; [right; apply dict_get_set_same|now left].
  - apply IH. right. now apply dict_get_set_other.
Qed.

Lemma outer_loop_last (entities : list str) (p0 : str * str)
    (properties : list (str * str)) :
  forall d,
    fold_left
      (fun d entity =>
         fold_left (fun d p => dict_set entity [make_property p] d)
                   (p0 :: properties) d)
      entities d
    = fold_left
        (fun d entity =>
           dict_set entity [make_property (last (p0 :: properties) p0)] d)
        entities d.
Proof.
  induction entities as [|e es IH]; intros d; [reflexivity|].
  cbn [fold_left]. rewrite <- IH. f_equal. apply inner_loop_last.
Qed.

Lemma outer_loop_empty (entities : list str) (d : class_dict) :
  fold_left (fun d (_ : str) => d) entities d = d.
Proof. revert d. induction entities; intros d; simpl; auto. Qed.

#[local] Transparent collect_properties.

(** C9, as the code has it. In the branch of [process_next_step] for
    step 2, the entry of an entity is assigned anew for each property
    matched in the text. So when the text has at least one property line,
    every entity found in it is mapped to a list of one element, made from
    the last property matched anywhere in the text; when the text has no
    property line, the dictionary stays empty. *)
Theorem collected_properties_keep_last (a : Application) :
  let text := formatted_response a in
  let entities := findall1 entity_pattern text in
  let properties := findall2 property_pattern text in
  let classes_and_properties := collect_properties text entities in
  (properties = [] -> classes_and_properties = [])
  /\ (forall p0, properties <> [] ->
      forall entity, In entity entities ->
        dict_get entity classes_and_properties
        = Some [make_property (last properties p0)]).
Proof.
  intros text entities properties d. subst d. unfold collect_properties.
  fold properties. split.
  - intros ->. cbn [fold_left]. apply outer_loop_empty.
  - intros p0 Hne entity Hin.
    destruct properties as [|p1 ps] eqn:E; [contradiction|].
    rewrite outer_loop_last, outer_loop_get; [|now left].
    now rewrite (last_cons_default p1 ps p1 p0).
Qed.

End WithServices.

(** C9 as stated fails on a text with an entity and no property line:
    the single line [- Person: x] names the entity [Person], but no
    property is matched, for want of a newline after it, and [Person] is
    mapped to nothing. *)
Lemma entity_without_property_line :
  let U := Example.ascii_only in
  let text := formatted_response (App Client.init [] 2 [] (lit "- Person: x") Blank) in
  text = lit "- Person: x"
  /\ findall1 entity_pattern text = [lit "Person"]
  /\ findall2 property_pattern text = []
  /\ dict_get (lit "Person")
              (collect_properties text (findall1 entity_pattern text)) = None.
Proof. vm_compute. repeat split; reflexivity. Qed.

(** A text with a property line: both entities get the property of the
    only line that a newline follows. *)
Lemma collected_properties_keep_last_witness :
  let U := Example.ascii_only in
  let a := App Client.init [] 2 []
               (lit "- name: Text" ++ [nl] ++ lit "- age: Number") Blank in
  findall2 property_pattern (formatted_response a) <> []
  /\ In (lit "age") (findall1 entity_pattern (formatted_response a))
  /\ dict_get (lit "age")
              (collect_properties (formatted_response a)
                 (findall1 entity_pattern (formatted_response a)))
     = Some [make_property (lit "name", lit "Text")].
Proof.
  intros U a.
  assert (Hne : findall2 property_pattern (formatted_response a) <> [])
    by (vm_compute; discriminate).
  assert (Hin : In (lit "age") (findall1 entity_pattern (formatted_response a)))
    by (vm_compute; auto).
  split; [exact Hne|]. split; [exact Hin|].
  rewrite (proj2 (@collected_properties_keep_last U a) (lit "name", lit "Text")
                 Hne (lit "age") Hin).
  vm_compute. reflexivity.
Defined.

Section Claims.
Context {U : Unicode} {Sv : Services} {P : Prompts}.


(** What the third step displays: what [extract_shacl_code] finds in the
    reply of the model. The handler makes one call of [ask] and displays
    its result; neither this handler nor any other calls the Turtle parser
    or the validator. *)
Lemma third_step_shows_extracted_reply (prompt : str) (a : Application)
    (tr : trace) (reply : str) (c' : OpenAIClient) (tr' : trace) :
  window a = ResultScreen false prompt ->
  current_step a = 2%Z ->
  ask (prompt_3 (formatted_response a)) default_max_retries (client a) tr
    = (Ok (Some reply), c', tr') ->
  process_next_step prompt a tr =
    (Ok tt,
     App c' (use_case a) 3 (use_case_text a) (extract_shacl_code reply)
         (ResultScreen false (prompt_3 (formatted_response a))),
     tr')
  /\ (exists new, tr' = tr ++ new /\ Forall (fun e => is_lint e = false) new)
  /\ (forall act a0 tr0,
        exists new, snd (perform act (a0, tr0)) = tr0 ++ new
                    /\ Forall (fun e => is_lint e = false) new).
Proof.
  intros _ Hs Hask. split; [|split].
  - rewrite next_step_from_2 by assumption. cbv zeta. now rewrite Hask.
  - destruct (ask_shape (prompt_3 (formatted_response a)) default_max_retries
                        (client a) tr) as (k & new & _ & Hnew & _ & Hlint & _).
    rewrite Hask in Hnew. cbn [snd] in Hnew. now exists new.
  - intros act a0 tr0. now destruct (perform_extends act a0 tr0) as (_ & _ & H).
Qed.

(** C5. The history starts as the single system message. A call of
    [ask] that makes [k] requests appends the prompt [k] times, once
    before each request, so that the request number [i] carries the
    history with [i + 1] copies of the prompt at its end, and appends the
    reply of the assistant after the answered request; everything that
    was in the history stays where it was. Every action on the window,
    the feedback dialog included, only extends the history. *)
Theorem history_only_grows :
  history Client.init = [system_message]
  /\ (forall prompt max_retries c tr,
        exists k new,
          snd (ask prompt max_retries c tr) = tr ++ new
          /\ chats new
             = map (fun i => (history c ++ repeat (user prompt) (S i),
                              answer prompt c tr i))
                   (seq 0 k)
          /\ history (snd (fst (ask prompt max_retries c tr)))
             = history c ++ repeat (user prompt) k
               ++ reply_tail (fst (fst (ask prompt max_retries c tr))))
  /\ (forall act a tr,
        exists added,
          history (client (fst (perform act (a, tr))))
          = history (client a) ++ added)
  /\ (forall act a tr,
        length (history (client a))
        <= length (history (client (fst (perform act (a, tr)))))).
Proof.
  split; [reflexivity|]. split; [|split].
  - intros prompt max_retries c tr.
    destruct (ask_shape prompt max_retries c tr) as (k & new & _ & Hnew & Hch & _ & Hh).
    exists k, new. repeat split; assumption.
  - intros act a tr. now destruct (perform_extends act a tr) as (_ & H & _).
  - intros act a tr. destruct (perform_extends act a tr) as (_ & (added & H) & _).
    rewrite H, length_app. lia.
Qed.

End Claims.



(** The third step of the example session. *)
Lemma third_step_shows_extracted_reply_witness :
  let U := Example.ascii_only in
  let Sv := Example.session in
  let P := Example.prompts in
  let w := run (firstn 3 (straight_run Example.typed_use_case)) (init, []) in
  window (fst w) = ResultScreen false (shown_prompt (fst w))
  /\ current_step (fst w) = 2%Z
  /\ result_text
       (snd (fst (process_next_step (shown_prompt (fst w)) (fst w) (snd w))))
     = lit "# shapes" ++ [nl] ++ lit "ex:A a sh:NodeShape .".
Proof.
  intros U Sv P w.
  assert (Hw : window (fst w) = ResultScreen false (shown_prompt (fst w)))
    by (vm_compute; reflexivity).
  assert (Hs : current_step (fst w) = 2%Z) by (vm_compute; reflexivity).
  split; [exact Hw|]. split; [exact Hs|].
  destruct (@third_step_shows_extracted_reply U Sv P (shown_prompt (fst w))
              (fst w) (snd w)
              (lit "# shapes" ++ [nl] ++ lit "ex:A a sh:NodeShape .")
              (snd (fst (ask (prompt_3 (formatted_response (fst w)))
                             default_max_retries (client (fst w)) (snd w))))
              (snd (ask (prompt_3 (formatted_response (fst w)))
                        default_max_retries (client (fst w)) (snd w)))
              Hw Hs) as (E & _).
  - vm_compute; reflexivity.
  - rewrite E. vm_compute; reflexivity.
Defined.

(** C1 as stated fails: in the example session the third step is reached
    and its output displayed without one call of the parser or of the
    validator in the whole run, and the text displayed still holds the
    comment sign that the cleaning steps remove. *)
Lemma third_step_is_not_linted :
  let U := Example.ascii_only in
  let Sv := Example.session in
  let P := Example.prompts in
  let w := run (firstn 4 (straight_run Example.typed_use_case)) (init, []) in
  current_step (fst w) = 3%Z
  /\ result_text (fst w) = lit "# shapes" ++ [nl] ++ lit "ex:A a sh:NodeShape ."
  /\ ~ (exists e, In e (snd w) /\ is_lint e = true)
  /\ validate_clean (result_text (fst w)) <> result_text (fst w)
  /\ correct_clean (result_text (fst w)) <> result_text (fst w).
Proof.
  intros U Sv P w.
  assert (Hw : snd w = snd w) by reflexivity.
  split; [vm_compute; reflexivity|].
  split; [vm_compute; reflexivity|].
  split.
  - intros (e & Hin & He).
    assert (Hall : forallb (fun e => negb (is_lint e)) (snd w) = true)
      by (vm_compute; reflexivity).
    rewrite forallb_forall in Hall. specialize (Hall e Hin).
    rewrite He in Hall. discriminate.
  - split; vm_compute; discriminate.
Qed.

End WizardProps.

(* ================================================================== *)
(** ** [str.strip] *)

Module StripProps.
Import Re Spec Notions ReProps.

Lemma lstrip_dropwhile (s : str) : lstrip s = dropwhile isspace s.
Proof. induction s as [|c t IH]; simpl; [reflexivity|]. now rewrite IH. Qed.

Lemma lstrip_idem (s : str) : lstrip (lstrip s) = lstrip s.
Proof.
  induction s as [|c t IH]; simpl; [reflexivity|].
  destruct (isspace c) eqn:E; [exact IH|]. simpl. now rewrite E.
Qed.

Lemma lstrip_app (a b : str) :
  lstrip (a ++ b) = if forallb isspace a then lstrip b else lstrip a ++ b.
Proof.
  induction a as [|c a IH]; simpl; [reflexivity|].
  destruct (isspace c); simpl; [exact IH|reflexivity].
Qed.

Lemma forallb_rev (p : char -> bool) (s : str) : forallb p (rev s) = forallb p s.
Proof.
  induction s as [|c t IH]; simpl; [reflexivity|].
  rewrite forallb_app, IH. simpl. rewrite andb_true_r. apply andb_comm.
Qed.

Lemma rstrip_app (a b : str) :
  rstrip (a ++ b) = if forallb isspace b then rstrip a else a ++ rstrip b.
Proof.
  unfold rstrip. rewrite rev_app_distr, lstrip_app, forallb_rev.
  destruct (forallb isspace b); [reflexivity|].
  now rewrite rev_app_distr, rev_involutive.
Qed.

Lemma rstrip_idem (s : str) : rstrip (rstrip s) = rstrip s.
Proof. unfold rstrip. now rewrite rev_involutive, lstrip_idem. Qed.

Lemma lstrip_all_space (s : str) : forallb isspace s = true -> lstrip s = [].
Proof.
  induction s as [|c t IH]; simpl; [reflexivity|].
  destruct (isspace c); [exact IH|discriminate].
Qed.

Lemma lstrip_nil (s : str) : lstrip s = [] -> forallb isspace s = true.
Proof.
  induction s as [|c t IH]; simpl; [reflexivity|].
  destruct (isspace c); [exact IH|discriminate].
Qed.

(** What [strip] leaves is empty exactly for a text of white space. *)
Lemma strip_nil_iff (s : str) : strip s = [] <-> forallb isspace s = true.
Proof.
  unfold strip, rstrip. split.
  - intros H. apply (f_equal (@rev char)) in H. rewrite rev_involutive in H.
    simpl in H. apply lstrip_nil in H. rewrite forallb_rev in H.
    destruct (forallb isspace s) eqn:E; [reflexivity|].
    assert (Hl : lstrip s <> []) by (intros Hn; apply lstrip_nil in Hn; congruence).
    clear E. revert H Hl. generalize (lstrip_idem s).
    generalize (lstrip s) as u. intros [|c u] Hi H Hl; [contradiction|].
    simpl in Hi. destruct (isspace c) eqn:Ec.
    + exfalso. assert (Hlen : length (lstrip u) <= length u).
      { clear. induction u as [|x u IH]; simpl; [lia|].
        destruct (isspace x); simpl; lia. }
      rewrite Hi in Hlen. simpl in Hlen. lia.
    + simpl in H. now rewrite Ec in H.
  - intros H. now rewrite (lstrip_all_space _ H).
Qed.

Lemma lstrip_fixed_head (c : char) (t : str) : lstrip (c :: t) = c :: t -> isspace c = false.
Proof.
  simpl. destruct (isspace c); [|reflexivity].
  intros H. exfalso.
  assert (Hlen : length (lstrip t) <= length t).
  { clear. induction t as [|x u IH]; simpl; [lia|]. destruct (isspace x); simpl; lia. }
  rewrite H in Hlen. simpl in Hlen. lia.
Qed.

(** [strip] leaves no white space at the ends. *)
Lemma strip_stripped (s : str) : stripped (strip s).
Proof.
  unfold stripped, strip. split; [|apply rstrip_idem].
  pose proof (lstrip_idem s) as Hi. revert Hi.
  generalize (lstrip s) as u. intros [|c u] Hi; [reflexivity|].
  apply lstrip_fixed_head in Hi.
  change (c :: u) with ([c] ++ u). rewrite rstrip_app.
  destruct (forallb isspace u).
  - unfold rstrip. simpl. rewrite Hi. simpl. now rewrite Hi.
  - simpl. now rewrite Hi.
Qed.

Lemma strip_idem (s : str) : strip (strip s) = strip s.
Proof.
  destruct (strip_stripped s) as [Hl Hr]. unfold strip at 1. now rewrite Hl, Hr.
Qed.

Lemma stripped_fixed (s : str) : stripped s -> strip s = s.
Proof. intros [Hl Hr]. unfold strip. now rewrite Hl, Hr. Qed.

(** What [strip] returns is a piece of its argument. *)
Lemma strip_piece (s : str) : exists before after, s = before ++ strip s ++ after.
Proof.
  exists (takewhile isspace s), (rev (takewhile isspace (rev (lstrip s)))).
  unfold strip, rstrip. rewrite !lstrip_dropwhile.
  rewrite <- rev_app_distr, take_drop, rev_involutive.
  now rewrite take_drop.
Qed.

End StripProps.

(* ================================================================== *)
(** ** Blank lines *)

Module CollapseProps.
Import Re Shacl Spec Notions ReProps StripProps.

Lemma nl_in_run_cons (c : char) (t : str) :
  nl_in_run (c :: t) = isspace c && (char_eqb nl c || nl_in_run t).
Proof. unfold nl_in_run. simpl. destruct (isspace c); reflexivity. Qed.

Lemma nl_in_run_spaces (w x : str) :
  forallb isspace w = true -> nl_in_run (w ++ nl :: x) = true.
Proof.
  induction w as [|c w IH]; intros H.
  - reflexivity.
  - simpl in H. apply andb_prop in H as [Hc Hw].
    cbn [app]. rewrite nl_in_run_cons, Hc, (IH Hw). apply orb_true_r.
Qed.

Lemma nl_in_run_app (x b : str) : nl_in_run x = true -> nl_in_run (x ++ b) = true.
Proof.
  induction x as [|c x IH]; [discriminate|].
  cbn [app]. rewrite !nl_in_run_cons.
  destruct (isspace c); [|discriminate]. cbn [andb].
  destruct (char_eqb nl c); [reflexivity|]. cbn [orb]. exact IH.
Qed.

Lemma calm_suffix (a b : str) : calm (a ++ b) = true -> calm b = true.
Proof.
  induction a as [|c a IH]; [auto|].
  cbn [app calm]. intros H. apply andb_prop in H as [_ H]. now apply IH.
Qed.

Lemma calm_prefix (a b : str) : calm (a ++ b) = true -> calm a = true.
Proof.
  induction a as [|c a IH]; [reflexivity|].
  cbn [app calm]. intros H. apply andb_prop in H as [Hc H].
  rewrite (IH H), andb_true_r.
  destruct (char_eqb nl c); [|reflexivity]. cbn [andb] in *.
  destruct (nl_in_run a) eqn:E; [|reflexivity].
  now rewrite (nl_in_run_app a b E) in Hc.
Qed.

(** A text without blank line keeps none when stripped. *)
Lemma calm_strip (s : str) : calm s = true -> calm (strip s) = true.
Proof.
  intros H. destruct (strip_piece s) as (before & after & E).
  rewrite E in H. apply calm_suffix in H. now apply calm_prefix in H.
Qed.

(** The end of the pattern [\n\s*\n]: white space, greedily, then a
    newline. It succeeds when the white space ahead holds a newline, and
    then stops after the last one. *)
Section Greedy.
Variables (k : mstate -> option mstate) (g : list (nat * str)).
Hypothesis k_newline :
  forall pv s,
    k (MState pv s g) =
      match s with
      | a :: u => if char_eqb nl a then Some (MState (Some a) u g) else None
      | [] => None
      end.

Lemma greedy_newline_found (u : str) :
  forall pv, nl_in_run u = true -> greedy_try isspace k pv u g <> None.
Proof.
  induction u as [|a u IH]; intros pv H; [discriminate|].
  rewrite nl_in_run_cons in H. cbn [greedy_try].
  destruct (isspace a); [|discriminate]. cbn [andb] in H.
  destruct (greedy_try isspace k (Some a) u g) eqn:E; [discriminate|].
  rewrite k_newline.
  destruct (char_eqb nl a); [discriminate|]. cbn [orb] in H.
  exfalso. now apply (IH (Some a) H).
Qed.

Lemma greedy_newline_last (t : str) :
  forall pv st',
    greedy_try isspace k pv t g = Some st' ->
    exists w, t = w ++ nl :: rest st'
              /\ forallb isspace w = true
              /\ nl_in_run (rest st') = false.
Proof.
  induction t as [|a u IH]; intros pv st' H; cbn [greedy_try] in H.
  - rewrite k_newline in H. discriminate.
  - destruct (isspace a) eqn:Ea.
    + destruct (greedy_try isspace k (Some a) u g) as [st|] eqn:E.
      * injection H as <-. destruct (IH _ _ E) as (w & Hu & Hw & Hr).
        exists (a :: w). cbn [app forallb]. rewrite Ea, Hw. now rewrite Hu at 1.
      * rewrite k_newline in H.
        destruct (char_eqb nl a) eqn:Ec; [|discriminate].
        injection H as <-. cbn [rest].
        apply N.eqb_eq in Ec. subst a.
        exists []. repeat split.
        destruct (nl_in_run u) eqn:Er; [|reflexivity].
        exfalso. now apply (greedy_newline_found u (Some nl) Er).
    + rewrite k_newline in H.
      destruct (char_eqb nl a) eqn:Ec; [|discriminate].
      apply N.eqb_eq in Ec. subst a. discriminate Ea.
Qed.

End Greedy.

Lemma match_at_blank_lines (pv : option char) (s : str) :
  match_at blank_lines false pv s =
    match s with
    | c :: t =>
        if char_eqb nl c then
          match greedy_try isspace (go (Chr nl) (fun s' => Some s')) (Some c) t [] with
          | Some s' => Some (RMatch (consumed s (rest s')) (groups s') (rest s'))
          | None => None
          end
        else None
    | [] => None
    end.
Proof.
  unfold match_at, blank_lines. cbn [andb].
  rewrite go_Seq. unfold Chr at 1. rewrite go_Cls. cbn [rest groups].
  destruct s as [|c t]; [reflexivity|].
  destruct (char_eqb nl c); [|reflexivity].
  rewrite go_Seq. unfold space. rewrite go_Star.
  rewrite star_greedy_try by (simpl; lia). reflexivity.
Qed.

Lemma newline_continuation (pv : option char) (s : str) :
  go (Chr nl) (fun s' => Some s') (MState pv s []) =
    match s with
    | a :: u => if char_eqb nl a then Some (MState (Some a) u []) else None
    | [] => None
    end.
Proof. reflexivity. Qed.

(** A match of [\n\s*\n] runs from a newline to the last newline of the
    white space that follows. *)
Lemma blank_lines_match (pv : option char) (s : str) (m : rmatch) :
  match_at blank_lines false pv s = Some m ->
  exists w aft,
    s = nl :: w ++ nl :: aft
    /\ forallb isspace w = true
    /\ nl_in_run aft = false
    /\ whole m = nl :: w ++ [nl].
Proof.
  rewrite match_at_blank_lines. destruct s as [|c t]; [discriminate|].
  destruct (char_eqb nl c) eqn:Ec; [|discriminate].
  apply N.eqb_eq in Ec. subst c.
  destruct (greedy_try _ _ _ t []) as [st|] eqn:E; [|discriminate].
  intros H. injection H as <-.
  destruct (@greedy_newline_last _ [] newline_continuation t _ _ E) as (w & Ht & Hw & Hr).
  exists w, (rest st). repeat split; auto.
  - now rewrite Ht at 1.
  - cbn [whole]. rewrite Ht.
    change (nl :: w ++ nl :: rest st) with ((nl :: w) ++ [nl] ++ rest st).
    rewrite app_assoc. now rewrite consumed_app.
Qed.

Lemma blank_lines_found (pv : option char) (t : str) :
  nl_in_run t = true -> match_at blank_lines false pv (nl :: t) <> None.
Proof.
  intros H. rewrite match_at_blank_lines. cbn [char_eqb].
  replace (N.eqb nl nl) with true by reflexivity.
  pose proof (@greedy_newline_found _ [] newline_continuation t (Some nl) H) as Hg.
  destruct (greedy_try _ _ _ t []); [discriminate|contradiction].
Qed.

(** What the second substitution returns has no blank line. *)
Lemma collapse_pieces (s : str) :
  forall pv skip,
    let out := flat_map (render (fun _ => [nl])) (scan blank_lines pv s skip) in
    calm out = true
    /\ (nl_in_run out = true -> nl_in_run (skipn skip s) = true).
Proof.
  induction s as [|c t IH]; intros pv skip out; subst out.
  - destruct skip; cbn [scan]; [|split; auto].
    rewrite match_at_blank_lines. split; auto.
  - destruct skip as [|j]; [|cbn [scan skipn]; apply IH].
    cbn [scan skipn].
    destruct (match_at blank_lines false pv (c :: t)) as [m|] eqn:Hm.
    + destruct (blank_lines_match _ _ Hm) as (w & aft & Hs & Hw & Haft & Hwhole).
      injection Hs as -> ->. rewrite Hwhole.
      cbn [app flat_map render length Nat.sub]. rewrite Nat.sub_0_r.
      destruct (IH (Some nl) (length (w ++ [nl]))) as [Hc Hr].
      replace (skipn (length (w ++ [nl])) (w ++ nl :: aft)) with aft in Hr.
      2:{ change (w ++ nl :: aft) with (w ++ [nl] ++ aft). rewrite app_assoc.
          now rewrite skipn_app, Nat.sub_diag, skipn_all. }
      split.
      * cbn [calm]. rewrite Hc, andb_true_r.
        match goal with
        | |- context [nl_in_run ?x] => destruct (nl_in_run x) eqn:E
        end; [|now rewrite andb_false_r].
        rewrite (Hr eq_refl) in Haft. discriminate.
      * intros _. rewrite nl_in_run_cons. reflexivity.
    + cbn [flat_map render app].
      destruct (IH (Some c) 0) as [Hc Hr]. cbn [skipn] in Hr.
      split.
      * cbn [calm]. rewrite Hc, andb_true_r.
        destruct (char_eqb nl c) eqn:Ec; [|reflexivity]. cbn [andb].
        match goal with
        | |- context [nl_in_run ?x] => destruct (nl_in_run x) eqn:E
        end; [|reflexivity].
        apply N.eqb_eq in Ec. subst c.
        exfalso. now apply (blank_lines_found pv t (Hr eq_refl)).
      * rewrite !nl_in_run_cons. destruct (isspace c); [|discriminate].
        cbn [andb]. destruct (char_eqb nl c); [reflexivity|]. cbn [orb]. exact Hr.
Qed.

Lemma collapse_calm (s : str) : calm (sub blank_lines (fun _ => [nl]) s) = true.
Proof. rewrite sub_render. apply (collapse_pieces s None 0). Qed.

(** On a text without blank line the second substitution finds nothing. *)
Lemma collapse_fixed (s : str) :
  calm s = true -> sub blank_lines (fun _ => [nl]) s = s.
Proof.
  intros H. rewrite sub_render, scan_no_match; [apply render_text|].
  intros pre t pv ->. apply calm_suffix in H.
  destruct (match_at blank_lines false pv t) as [m|] eqn:Hm; [|reflexivity].
  destruct (blank_lines_match _ _ Hm) as (w & aft & -> & Hw & _ & _).
  cbn [calm] in H. rewrite (nl_in_run_spaces w aft Hw) in H. discriminate.
Qed.

End CollapseProps.

(* ================================================================== *)
(** ** The cleaned document *)

Module CleanedProps.
Import Re Shacl Spec Notions ReProps StripProps CollapseProps CleaningProps ShaclProps.

(** Inside a subject without blank line, a pattern whose end cannot
    match there does not match. *)
Lemma star_settled_fail (body : (mstate -> option mstate) -> mstate -> option mstate)
    (k : mstate -> option mstate) (greedy : bool) :
  (forall k', (forall st, settled st -> k' st = None) ->
              forall st, settled st -> body k' st = None) ->
  (forall st, settled st -> k st = None) ->
  forall fuel st, settled st -> star_loop body k greedy fuel st = None.
Proof.
  intros Hbody Hk. induction fuel as [|fuel IH]; intros st Hst; cbn [star_loop].
  - now apply Hk.
  - rewrite (Hk st Hst), Hbody; [now destruct greedy| |exact Hst].
    intros st' Hst'. destruct (Nat.ltb _ _); [now apply IH|reflexivity].
Qed.

Lemma go_settled_fail (r : regex) :
  forall k, (forall st, settled st -> k st = None) ->
            forall st, settled st -> go r k st = None.
Proof.
  induction r as [|p|r1 IH1 r2 IH2|r1 IH1 r2 IH2|greedy r IH|n r IH|p];
    intros k Hk st Hst.
  - now apply Hk.
  - rewrite go_Cls. destruct (rest st) as [|c t] eqn:E; [reflexivity|].
    destruct (p c); [|reflexivity]. apply Hk.
    destruct Hst as (p0 & _ & Hc). rewrite E in Hc.
    exists c. split; [reflexivity|]. cbn [rest].
    cbn [calm] in Hc. now apply andb_prop in Hc as [_ Hc].
  - rewrite go_Seq. apply IH1; [|exact Hst]. intros st' Hst'. now apply IH2.
  - rewrite go_Alt, IH1, IH2; auto.
  - rewrite go_Star. apply star_settled_fail; auto.
  - rewrite go_Group. apply IH; [|exact Hst].
    intros st' Hst'. apply Hk. exact Hst'.
  - cbn [go]. destruct (prev st); [|now apply Hk].
    destruct (p c); [reflexivity|now apply Hk].
Qed.

(** The end of the pattern of the last substitution: a newline that a
    newline precedes. *)
Lemma lookbehind_newline_fail (k : mstate -> option mstate) (st : mstate) :
  settled st -> go (Seq (NotBehind not_newline) (Chr nl)) k st = None.
Proof.
  intros (p & Hp & Hc). rewrite go_Seq. cbn [go]. rewrite Hp.
  unfold not_newline. destruct (char_eqb p nl) eqn:Ep; [|reflexivity].
  cbn [negb]. apply N.eqb_eq in Ep. subst p.
  unfold Chr. rewrite go_Cls.
  destruct (rest st) as [|a u]; [reflexivity|].
  destruct (char_eqb nl a) eqn:Ea; [|reflexivity].
  apply N.eqb_eq in Ea. subst a.
  cbn [calm] in Hc. rewrite nl_in_run_cons in Hc. discriminate.
Qed.

Lemma match_at_prefix_line_calm (fl : bool) (pv : option char) (s : str) :
  calm s = true -> match_at prefix_line fl pv s = None.
Proof.
  intros H. unfold match_at, prefix_line.
  rewrite go_Seq, go_Lit. cbn [rest prev groups].
  destruct (strip_prefix (lit "@prefix") s) as [t|] eqn:E; [|reflexivity].
  apply strip_prefix_Some in E. subst s. apply calm_suffix in H.
  rewrite go_Seq, go_settled_fail; [reflexivity| |].
  - intros st1 H1. rewrite go_Seq. apply go_settled_fail; [|exact H1].
    intros st2 H2. rewrite go_Seq. apply go_settled_fail; [|exact H2].
    intros st3 H3. now apply lookbehind_newline_fail.
  - exists (ch "x"). split; [reflexivity|]. cbn [rest]. exact H.
Qed.

(** On a text without blank line the last substitution finds nothing. *)
Lemma prefix_line_fixed (s : str) :
  calm s = true -> sub prefix_line add_dot s = s.
Proof.
  intros H. rewrite sub_render, scan_no_match; [apply render_text|].
  intros pre t pv ->. apply calm_suffix in H.
  now apply match_at_prefix_line_calm.
Qed.

Section WithUnicode.
Context {U : Unicode}.

Lemma newline_is_turtle : turtle_char nl = true.
Proof.
  unfold turtle_char, isword.
  replace (N.ltb nl 128) with true by reflexivity. reflexivity.
Qed.

Lemma filter_fixed (p : char -> bool) (s : str) :
  Forall (fun c => p c = true) s -> filter p s = s.
Proof. induction 1 as [|c t Hc _ IH]; simpl; [reflexivity|]. now rewrite Hc, IH. Qed.

Lemma cleaned_facts (doc : str) :
  let collapsed := sub blank_lines (fun _ => [nl]) (filter turtle_char doc) in
  validate_clean doc = strip collapsed
  /\ correct_clean doc = strip collapsed
  /\ sub prefix_line add_dot (strip collapsed) = strip collapsed.
Proof.
  intros collapsed.
  assert (Hb : Forall (fun c => char_eqb backtick c = false) collapsed).
  { unfold collapsed. rewrite <- whitelist_is_filter.
    apply no_backtick_after_blank_lines. }
  assert (H1 : sub fence_tagged (fun _ => []) collapsed = collapsed)
    by (apply sub_first_class with (p := char_eqb backtick); [reflexivity|exact Hb]).
  assert (H2 : sub fence (fun _ => []) collapsed = collapsed)
    by (apply sub_first_class with (p := char_eqb backtick); [reflexivity|exact Hb]).
  assert (H3 : sub prefix_line add_dot (strip collapsed) = strip collapsed)
    by (apply prefix_line_fixed, calm_strip, collapse_calm).
  unfold validate_clean, correct_clean. rewrite whitelist_is_filter.
  fold collapsed. rewrite H1, H2, H3. repeat split.
Qed.

Lemma cleaned_eq (doc : str) :
  validate_clean doc
  = strip (sub blank_lines (fun _ => [nl]) (filter turtle_char doc)).
Proof. apply (cleaned_facts doc). Qed.

Lemma cleaned_calm (doc : str) : calm (validate_clean doc) = true.
Proof. rewrite cleaned_eq. apply calm_strip, collapse_calm. Qed.

Lemma cleaned_whitelisted (doc : str) :
  Forall (fun c => turtle_char c = true) (validate_clean doc).
Proof.
  rewrite cleaned_eq.
  set (collapsed := sub blank_lines (fun _ => [nl]) (filter turtle_char doc)).
  assert (H : Forall (fun c => turtle_char c = true) collapsed).
  { apply sub_Forall.
    - apply Forall_forall. intros c Hc. now apply filter_In in Hc.
    - intros _. constructor; [apply newline_is_turtle|constructor]. }
  destruct (strip_piece collapsed) as (before & after & E).
  rewrite E in H. apply Forall_app in H as [_ H]. now apply Forall_app in H as [H _].
Qed.

(** X1. The cleaning steps in closed form: the characters of the
    whitelist are kept, blank lines are collapsed, the result is stripped.
    The two substitutions that remove markdown fences and the one that
    ends prefix declarations with a dot never change the document, in
    [validate_shacl] and in [auto_correct_shacl] alike. *)
Theorem cleaning_closed_form (doc : str) :
  let collapsed := sub blank_lines (fun _ => [nl]) (filter turtle_char doc) in
  validate_clean doc = strip collapsed
  /\ correct_clean doc = strip collapsed
  /\ sub prefix_line add_dot (strip collapsed) = strip collapsed.
Proof. exact (cleaned_facts doc). Qed.

(** X2. Every character of the cleaned document is one of the whitelist:
    the cleaning removes, wherever they stand, the characters
    [! # $ % & ' * + , ? ^ | ~], the backslash and the backtick, and so
    the comment sign, the comma of object lists and the [^^] of typed
    literals. *)
Theorem cleaned_characters (doc : str) (c : char) :
  In c (validate_clean doc) ->
  turtle_char c = true
  /\ ~ In c (lit "!#$%&'*+,?^|~" ++ [ch "\"; backtick]).
Proof.
  intros Hin.
  pose proof (cleaned_whitelisted doc) as H. rewrite Forall_forall in H.
  specialize (H c Hin). split; [exact H|].
  intros Hbad.
  assert (Hall : forallb (fun x => negb (turtle_char x))
                         (lit "!#$%&'*+,?^|~" ++ [ch "\"; backtick]) = true).
  { unfold turtle_char, isword. reflexivity. }
  rewrite forallb_forall in Hall. specialize (Hall c Hbad).
  now rewrite H in Hall.
Qed.

(** X3. The cleaned document has no blank line (no newline is followed,
    after white space only, by another newline) and no white space at its
    ends. *)
Theorem cleaned_shape (doc : str) :
  calm (validate_clean doc) = true
  /\ stripped (validate_clean doc)
  /\ ~ occurs [nl; nl] (validate_clean doc).
Proof.
  split; [apply cleaned_calm|]. split.
  - rewrite cleaned_eq. apply strip_stripped.
  - intros (before & after & E).
    pose proof (cleaned_calm doc) as H. rewrite E in H.
    apply calm_suffix in H. cbn [app calm] in H.
    rewrite nl_in_run_cons in H. discriminate.
Qed.

(** X4. Cleaning is idempotent: a cleaned document is cleaned into
    itself. *)
Theorem cleaning_idempotent (doc : str) :
  validate_clean (validate_clean doc) = validate_clean doc
  /\ correct_clean (correct_clean doc) = correct_clean doc.
Proof.
  assert (E : validate_clean (validate_clean doc) = validate_clean doc).
  { rewrite (cleaned_eq (validate_clean doc)).
    rewrite (filter_fixed _ (cleaned_whitelisted doc)).
    rewrite (collapse_fixed _ (cleaned_calm doc)).
    rewrite cleaned_eq. apply strip_idem. }
  split; exact E.
Qed.

Lemma starts_with_prefix_decl (block d : str) (tail : str) :
  block = lit "@prefix" ++ tail -> has_prefix_decl (block ++ d) = true.
Proof.
  intros ->. apply has_prefix_decl_iff.
  exists [], (lit "@prefix"), (tail ++ d). split.
  - now rewrite <- app_assoc.
  - repeat constructor.
Qed.

(** X5. After the step that adds the default prefixes, the search for
    [@prefix], in any letter case, always succeeds, in both functions, and
    applying the step again changes nothing. The search looks for the
    seven characters only: a document that holds them in capitals inside a
    literal, and declares no prefix, gets no default block. *)
Theorem prefix_search_settles (d : str) :
  let quoted := lit "ex:A ex:b " ++ [dquote] ++ lit "@PREFIX" ++ [dquote] ++ lit " ." in
  has_prefix_decl (validate_with_prefixes d) = true
  /\ has_prefix_decl (correct_with_prefixes d) = true
  /\ validate_with_prefixes (validate_with_prefixes d) = validate_with_prefixes d
  /\ correct_with_prefixes (correct_with_prefixes d) = correct_with_prefixes d
  /\ validate_with_prefixes quoted = quoted
  /\ correct_with_prefixes quoted = quoted.
Proof.
  intros quoted.
  assert (Hv : has_prefix_decl (validate_with_prefixes d) = true).
  { unfold validate_with_prefixes. destruct (has_prefix_decl d) eqn:E; [exact E|].
    cbn [negb].
    apply (@starts_with_prefix_decl validate_default_prefixes d
             (skipn 7 validate_default_prefixes)).
    vm_compute. reflexivity. }
  assert (Hc : has_prefix_decl (correct_with_prefixes d) = true).
  { unfold correct_with_prefixes. destruct (has_prefix_decl d) eqn:E; [exact E|].
    cbn [negb].
    apply (@starts_with_prefix_decl correct_default_prefixes d
             (skipn 7 correct_default_prefixes)).
    vm_compute. reflexivity. }
  assert (Hq : has_prefix_decl quoted = true) by (vm_compute; reflexivity).
  split; [exact Hv|]. split; [exact Hc|]. split; [|split; [|split]].
  - unfold validate_with_prefixes at 1. now rewrite Hv.
  - unfold correct_with_prefixes at 1. now rewrite Hc.
  - unfold validate_with_prefixes. now rewrite Hq.
  - unfold correct_with_prefixes. now rewrite Hq.
Qed.

Lemma hash_not_turtle : turtle_char (ch "#") = false.
Proof.
  unfold turtle_char, isword.
  replace (N.ltb (ch "#") 128) with true by reflexivity. reflexivity.
Qed.

Lemma cleaning_changes (doc : str) :
  In (ch "#") doc -> validate_clean doc <> doc.
Proof.
  intros Hin E.
  pose proof (cleaned_whitelisted doc) as H. rewrite E, Forall_forall in H.
  specialize (H _ Hin). now rewrite hash_not_turtle in H.
Qed.

Lemma correct_clean_eq (doc : str) : correct_clean doc = validate_clean doc.
Proof. reflexivity. Qed.

Lemma In_block (c : char) (block : str) : existsb (N.eqb c) block = true -> In c block.
Proof.
  intros H. apply existsb_exists in H as (x & Hx & E).
  apply N.eqb_eq in E. now subst.
Qed.

(** What the loops of the fallback return begins with what they were
    given. *)
Lemma property_loop_extends (S : Type) (properties : list prop_dict) :
  forall (base_shacl : str) (st : S) (tr : trace) document st' tr',
    property_loop properties base_shacl st tr = (Ok document, st', tr') ->
    exists more, document = base_shacl ++ more.
Proof.
  induction properties as [|p properties IH]; intros base st tr document st' tr' H.
  - cbn [property_loop] in H. unfold ret in H. injection H as <- _ _.
    exists []. now rewrite app_nil_r.
  - cbn [property_loop] in H. unfold bind at 1 in H.
    destruct (path_field p st tr) as [[[path|e] st1] tr1]; [|discriminate].
    apply IH in H as (more & ->). exists (property_block path ++ more).
    now rewrite <- app_assoc.
Qed.

Lemma fallback_loop_extends (S : Type) (classes_and_properties : class_table) :
  forall (base_shacl : str) (st : S) (tr : trace) document st' tr',
    fallback_loop classes_and_properties base_shacl st tr = (Ok document, st', tr') ->
    exists more, document = base_shacl ++ more.
Proof.
  induction classes_and_properties as [|[class_name value] items IH];
    intros base st tr document st' tr' H.
  - cbn [fallback_loop] in H. unfold ret in H. injection H as <- _ _.
    exists []. now rewrite app_nil_r.
  - cbn [fallback_loop] in H. unfold bind at 1 in H.
    destruct (iterate value st tr) as [[[properties|e] st1] tr1]; [|discriminate].
    unfold bind at 1 in H.
    destruct (property_loop properties (base ++ shape_header class_name) st1 tr1)
      as [[[doc1|e] st2] tr2] eqn:E1; [|discriminate].
    apply property_loop_extends in E1 as (more1 & ->).
    apply IH in H as (more & ->).
    exists (shape_header class_name ++ more1 ++ more). now rewrite <- !app_assoc.
Qed.

(** X6. The documents the program writes itself do not pass its own
    cleaning unchanged: the fallback document of [auto_correct_shacl],
    whenever it is built, and the default prefixes of both functions hold
    the [#] of the SHACL and XSD namespaces, which the cleaning removes. *)
Theorem own_documents_not_clean (S : Type) (classes_and_properties : class_table)
    (st : S) (tr : trace) (d : str) :
  (forall document st' tr',
      fallback_document classes_and_properties st tr = (Ok document, st', tr') ->
      correct_clean document <> document)
  /\ validate_clean (validate_default_prefixes ++ d) <> validate_default_prefixes ++ d
  /\ correct_clean (correct_default_prefixes ++ d) <> correct_default_prefixes ++ d.
Proof.
  assert (Hv : In (ch "#") validate_default_prefixes)
    by (apply In_block; vm_compute; reflexivity).
  assert (Hc : In (ch "#") correct_default_prefixes)
    by (apply In_block; vm_compute; reflexivity).
  split; [|split].
  - intros document st' tr' H. unfold fallback_document, bind at 1 in H.
    match type of H with
    | match ?x with _ => _ end = _ => destruct x as [[[base|e] st1] tr1] eqn:E
    end; [|discriminate].
    unfold ret in H. injection H as <- _ _.
    apply fallback_loop_extends in E as (more & ->).
    rewrite correct_clean_eq. apply cleaning_changes.
    apply in_or_app. left. apply in_or_app. left. exact Hc.
  - apply cleaning_changes. apply in_or_app. now left.
  - rewrite correct_clean_eq. apply cleaning_changes. apply in_or_app. now left.
Qed.

End WithUnicode.

(** A character of a cleaned document. *)
Lemma cleaned_characters_witness :
  let U := Example.ascii_only in
  In (ch "a") (validate_clean (lit "# a, b"))
  /\ turtle_char (ch "a") = true.
Proof.
  intros U.
  assert (Hin : In (ch "a") (validate_clean (lit "# a, b")))
    by (vm_compute; auto).
  split; [exact Hin|].
  exact (proj1 (@cleaned_characters U (lit "# a, b") (ch "a") Hin)).
Defined.

End CleanedProps.

(* ================================================================== *)
(** ** [validate_shacl] and [auto_correct_shacl]: outcomes *)

Module Outcomes.
Import Re Shacl Spec Notions ShaclProps CleanedProps.

Section WithServices.
Context {U : Unicode} {Sv : Services}.

(** The six statements of the cleaning, applied in turn. *)
Lemma cleaning_steps (doc : str) :
  sub prefix_line add_dot
    (strip (sub fence (fun _ => [])
              (sub fence_tagged (fun _ => [])
                 (sub blank_lines (fun _ => [nl])
                    (sub non_turtle (fun _ => []) doc)))))
  = validate_clean doc.
Proof. reflexivity. Qed.

(** C2. [validate_shacl] cleans its argument first: it removes the
    characters outside the whitelist, collapses blank lines, removes
    markdown fences, strips, ends prefix lines with a dot (which comes to
    keeping the whitelisted characters, collapsing blank lines and
    stripping) and puts the six default prefixes in front when [@prefix]
    is not found. It hands the result to the Turtle parser and then to the
    validator, and returns the pair (conforms, results_text); when the
    parser or the validator raises, it returns (False, str(e)). In every
    case it returns: no call of [validate_shacl] raises. *)
Theorem validate_shacl_never_raises (S : Type) (shacl_doc : str) (st : S) (tr : trace) :
  let cleaned :=
    sub prefix_line add_dot
      (strip (sub fence (fun _ => [])
                (sub fence_tagged (fun _ => [])
                   (sub blank_lines (fun _ => [nl])
                      (sub non_turtle (fun _ => []) shacl_doc))))) in
  let prefixes :=
    lit "@prefix ex: <http://example.org/> ." ++ [nl]
    ++ lit "@prefix sh: <http://www.w3.org/ns/shacl#> ." ++ [nl]
    ++ lit "@prefix rdf: <http://www.w3.org/1999/02/22-rdf-syntax-ns#> ." ++ [nl]
    ++ lit "@prefix rdfs: <http://www.w3.org/2000/01/rdf-schema#> ." ++ [nl]
    ++ lit "@prefix xsd: <http://www.w3.org/2001/XMLSchema#> ." ++ [nl]
    ++ lit "@prefix schema: <https://schema.org/> ." ++ [nl]
    ++ [nl] in
  let doc := if has_prefix_decl cleaned then cleaned else prefixes ++ cleaned in
  cleaned = strip (sub blank_lines (fun _ => [nl]) (filter turtle_char shacl_doc))
  /\ validate_shacl shacl_doc st tr =
       match turtle_parse doc with
       | Ok g =>
           match shacl_validate g with
           | Ok (conforms, _, results_text) =>
               (Ok (conforms, results_text), st,
                tr ++ [EParse doc true; EValidate true])
           | Raise e =>
               (Ok (false, exn_msg e), st,
                tr ++ [EParse doc true; EValidate false;
                       ELogError (lit "Error during SHACL validation: " ++ exn_msg e)])
           end
       | Raise e =>
           (Ok (false, exn_msg e), st,
            tr ++ [EParse doc false;
                   ELogError (lit "Error during SHACL validation: " ++ exn_msg e)])
       end
  /\ exists conforms results_text,
       fst (fst (validate_shacl shacl_doc st tr)) = Ok (conforms, results_text).
Proof.
  intros cleaned prefixes doc.
  assert (Ec : cleaned = validate_clean shacl_doc) by apply cleaning_steps.
  assert (Ep : prefixes = validate_default_prefixes) by reflexivity.
  assert (Ed : doc = validate_with_prefixes (validate_clean shacl_doc)).
  { unfold doc, validate_with_prefixes. rewrite Ec, Ep.
    now destruct (has_prefix_decl (validate_clean shacl_doc)). }
  split; [rewrite Ec; apply cleaned_eq|].
  rewrite (validate_shacl_eq shacl_doc st tr). cbv zeta. rewrite <- Ed.
  split; [reflexivity|].
  destruct (turtle_parse doc) as [g|e].
  - destruct (shacl_validate g) as [[[conforms rg] text]|e]; simpl; eauto.
  - simpl; eauto.
Qed.


End WithServices.



End Outcomes.

(* ================================================================== *)
(** ** More on [extract_shacl_code] *)

Module ExtractMore.
Import Re Shacl Wizard Spec Notions ReProps FindProps StripProps ExtractProps.

Lemma strip_between_newlines (code : str) : strip (nl :: code ++ [nl]) = strip code.
Proof.
  unfold strip. cbn [lstrip]. replace (isspace nl) with true by reflexivity.
  rewrite lstrip_app. destruct (forallb isspace code) eqn:E.
  - rewrite (lstrip_all_space _ E). reflexivity.
  - now rewrite rstrip_app.
Qed.

Lemma find_fence_after (skipped after : str) :
  Forall (fun c => char_eqb backtick c = false) skipped ->
  find fence_mark (skipped ++ fence_mark ++ after) = Some (skipped, after).
Proof.
  intros H. change fence_mark with (backtick :: [backtick; backtick]).
  rewrite (@find_skip backtick [backtick; backtick] skipped _ H).
  cbn [app find strip_prefix]. unfold char_eqb. rewrite !N.eqb_refl.
  now rewrite app_nil_r.
Qed.

(** X7. Round trip through a fenced block: when a text free of
    backticks is put between a fence tagged [turtle] and a closing fence,
    each on a line of its own, after an introduction free of backticks,
    [extract_shacl_code] gives the text back, stripped, whatever follows
    the closing fence. *)
Theorem extract_fenced_code (intro code outro : str) :
  Forall (fun c => char_eqb backtick c = false) intro ->
  Forall (fun c => char_eqb backtick c = false) code ->
  extract_shacl_code
    (intro ++ lit "```turtle" ++ [nl] ++ code ++ [nl] ++ lit "```" ++ outro)
  = strip code.
Proof.
  intros Hi Hc. unfold extract_shacl_code. rewrite search_first_match.
  pose proof (first_match_block
                (intro ++ lit "```turtle" ++ [nl] ++ code ++ [nl] ++ lit "```" ++ outro)
                None) as H.
  assert (E : first_fenced_block
                (intro ++ lit "```turtle" ++ [nl] ++ code ++ [nl] ++ lit "```" ++ outro)
              = Some (nl :: code ++ [nl])).
  { unfold first_fenced_block.
    replace (lit "```turtle" ++ [nl] ++ code ++ [nl] ++ lit "```" ++ outro)
      with (fence_mark ++ lit "turtle" ++ (nl :: code ++ [nl]) ++ fence_mark ++ outro)
      by (cbn [app]; now rewrite <- !app_assoc).
    rewrite (find_fence_after _ Hi).
    unfold drop_tag. rewrite strip_prefix_app.
    rewrite find_fence_after; [reflexivity|].
    constructor; [reflexivity|]. apply Forall_app. split; [exact Hc|].
    constructor; [reflexivity|constructor]. }
  rewrite E in H. destruct H as (m & -> & Hm).
  rewrite Hm. apply strip_between_newlines.
Qed.

(** X8. What [extract_shacl_code] returns has no white space at its
    ends, and on a text without any backtick it is the text, stripped. *)
Theorem extract_result_stripped (text : str) :
  stripped (extract_shacl_code text)
  /\ (Forall (fun c => char_eqb backtick c = false) text ->
      extract_shacl_code text = strip text).
Proof.
  unfold extract_shacl_code. rewrite search_first_match. split.
  - destruct (first_match shacl_pattern None text); apply strip_stripped.
  - intros H.
    rewrite first_match_None; [reflexivity|].
    intros pre t pv ->. apply Forall_app in H as [_ H].
    rewrite match_at_block.
    destruct t as [|c t]; [reflexivity|].
    inversion H as [|? ? Hc _]; subst.
    change fence_mark with [backtick; backtick; backtick].
    cbn [strip_prefix]. now rewrite Hc.
Qed.

(** A reply with an introduction, a block and a closing remark. *)
Lemma extract_fenced_code_witness :
  Forall (fun c => char_eqb backtick c = false) (lit "Here it is:")
  /\ Forall (fun c => char_eqb backtick c = false) (lit " ex:A a sh:NodeShape . ")
  /\ extract_shacl_code
       (lit "Here it is:" ++ lit "```turtle" ++ [nl] ++ lit " ex:A a sh:NodeShape . "
        ++ [nl] ++ lit "```" ++ lit " Anything else?")
     = lit "ex:A a sh:NodeShape .".
Proof.
  assert (Hi : Forall (fun c => char_eqb backtick c = false) (lit "Here it is:"))
    by (repeat constructor).
  assert (Hc : Forall (fun c => char_eqb backtick c = false)
                      (lit " ex:A a sh:NodeShape . "))
    by (repeat constructor).
  split; [exact Hi|]. split; [exact Hc|].
  rewrite (@extract_fenced_code (lit "Here it is:") (lit " ex:A a sh:NodeShape . ")
             (lit " Anything else?") Hi Hc).
  reflexivity.
Defined.

End ExtractMore.

(* ================================================================== *)
(** ** More on the client and the wizard *)

Module WizardMore.
Import Re Shacl Client Wizard Spec Notions ClientProps StripProps WizardProps.

Lemma slept_app (tr1 tr2 : trace) : slept (tr1 ++ tr2) = (slept tr1 + slept tr2)%Z.
Proof.
  unfold slept. induction tr1 as [|e tr1 IH]; [reflexivity|].
  cbn [app fold_right]. destruct e; rewrite IH; lia.
Qed.

Section WithServices.
Context {Sv : Services}.

Lemma slept_failures (prompt : str) (c : OpenAIClient) (tr : trace) (i : nat) :
  slept (failures prompt c tr i) = (5 * Z.of_nat i)%Z.
Proof.
  induction i as [|i IH]; [reflexivity|].
  rewrite failures_S, slept_app, IH. unfold failed_attempt, slept. cbn [fold_right]. lia.
Qed.

(** The requests and the sleeps of a call of [ask], counted. *)
Lemma ask_counts (prompt : str) (max_retries : Z) (c : OpenAIClient) (tr : trace) :
  (1 <= max_retries)%Z ->
  exists k new,
    snd (ask prompt max_retries c tr) = tr ++ new
    /\ 1 <= k <= Z.to_nat max_retries
    /\ chat_count new = k
    /\ slept new = (5 * (Z.of_nat k - 1))%Z.
Proof.
  intros Hpos.
  assert (Hc : c = client_at prompt c 0).
  { destruct c as [h]. unfold client_at. simpl. now rewrite app_nil_r. }
  assert (Ht : tr = tr ++ failures prompt c tr 0) by (now rewrite app_nil_r).
  destruct (first_answer prompt c tr (Z.to_nat max_retries))
    as [(j & reply & Hj & Hf & Ha)|Hall].
  - pose proof (@ask_loop_succeeds _ prompt max_retries c tr Hpos j reply Hj Hf Ha
                  (Z.to_nat max_retries) 0 eq_refl (Nat.le_0_l j)) as E.
    rewrite <- Hc, <- Ht in E. change (Z.of_nat 0) with 0%Z in E.
    unfold ask. rewrite E. cbn [snd].
    exists (S j), (failures prompt c tr j ++ [EChat (attempt_messages c prompt j) (Ok reply)]).
    repeat split; try lia.
    + rewrite chat_count_app, chat_count_failures. unfold chat_count. simpl. lia.
    + rewrite slept_app, slept_failures. unfold slept. cbn [fold_right]. lia.
  - assert (Hn : Z.to_nat max_retries - 1 < Z.to_nat max_retries) by lia.
    destruct (answer prompt c tr (Z.to_nat max_retries - 1)) as [r|e] eqn:Ha.
    { specialize (Hall _ Hn). rewrite Ha in Hall. discriminate. }
    pose proof (@ask_loop_exhausted _ prompt max_retries c tr Hpos e Hall Ha
                  (Z.to_nat max_retries) 0 eq_refl ltac:(lia)) as E.
    rewrite <- Hc, <- Ht in E. change (Z.of_nat 0) with 0%Z in E.
    unfold ask. rewrite E. cbn [snd].
    exists (Z.to_nat max_retries),
      (failures prompt c tr (Z.to_nat max_retries - 1)
       ++ [EChat (attempt_messages c prompt (Z.to_nat max_retries - 1)) (Raise e)]).
    repeat split; try lia.
    + rewrite chat_count_app, chat_count_failures. unfold chat_count. simpl. lia.
    + rewrite slept_app, slept_failures. unfold slept. cbn [fold_right]. lia.
Qed.

(** X9. For a positive [max_retries], a call of [ask] makes at least one
    request and at most [max_retries], and sleeps five seconds for each
    request but one: never more than 5 * (max_retries - 1) seconds, ten
    with the default. *)
Theorem ask_requests_and_sleep (prompt : str) (max_retries : Z) (c : OpenAIClient)
    (tr : trace) :
  (1 <= max_retries)%Z ->
  exists k new,
    snd (ask prompt max_retries c tr) = tr ++ new
    /\ 1 <= k <= Z.to_nat max_retries
    /\ chat_count new = k
    /\ slept new = (5 * (Z.of_nat k - 1))%Z
    /\ (slept new <= 5 * (max_retries - 1))%Z.
Proof.
  intros Hpos.
  destruct (ask_counts prompt c tr Hpos) as (k & new & Hnew & Hk & Hc & Hs).
  exists k, new. repeat split; auto; lia.
Qed.

End WithServices.

(** Three failed attempts: three requests, ten seconds of sleep. *)
Lemma ask_requests_and_sleep_witness :
  let Sv := Example.scripted (fun _ => Raise Example.unavailable) (fun _ => false) in
  (1 <= 3)%Z
  /\ exists new, snd (ask (lit "p") 3 Client.init []) = new
                 /\ chat_count new = 3 /\ slept new = 10%Z.
Proof.
  intros Sv. split; [lia|].
  destruct (@ask_requests_and_sleep Sv (lit "p") 3 Client.init [])
    as (k & new & Hnew & _); [lia|].
  eexists. split; [reflexivity|]. split; reflexivity.
Defined.

(** *** Requests carry the history *)

Lemma chats_other (e : event) : is_chat e = false -> chats [e] = [].
Proof. destruct e; simpl; intros H; congruence. Qed.

Lemma sends_refl (a : Application) (tr : trace) : sends_history a a tr tr.
Proof.
  split.
  - exists []. now rewrite app_nil_r.
  - exists []. split; [now rewrite app_nil_r|constructor].
Qed.

Lemma sends_trans (a1 a2 a3 : Application) (t1 t2 t3 : trace) :
  sends_history a1 a2 t1 t2 -> sends_history a2 a3 t2 t3 -> sends_history a1 a3 t1 t3.
Proof.
  intros ((h1 & H1) & (n1 & T1 & F1)) ((h2 & H2) & (n2 & T2 & F2)). split.
  - exists (h1 ++ h2). now rewrite H2, H1, app_assoc.
  - exists (n1 ++ n2). split; [now rewrite T2, T1, app_assoc|].
    rewrite chats_app. apply Forall_app; split; [exact F1|].
    eapply Forall_impl; [|exact F2].
    intros request (between & prompt & E). exists (h1 ++ between), prompt.
    now rewrite E, H1, <- !app_assoc.
Qed.

Lemma dutiful_ret {A} (x : A) : dutiful (ret x).
Proof. intros a tr. apply sends_refl. Qed.

Lemma dutiful_raise {A} (e : exn) : dutiful (@raise Application A e).
Proof. intros a tr. apply sends_refl. Qed.

Lemma dutiful_get : dutiful (@get Application).
Proof. intros a tr. apply sends_refl. Qed.

Lemma dutiful_bind {A B} (c : M Application A) (k : A -> M Application B) :
  dutiful c -> (forall x, dutiful (k x)) -> dutiful (bind c k).
Proof.
  intros Hc Hk a tr. unfold bind.
  specialize (Hc a tr).
  destruct (c a tr) as [[[x|e] a1] tr1]; cbn [fst snd] in *; [|exact Hc].
  eapply sends_trans; [exact Hc|apply Hk].
Qed.

Lemma dutiful_modify (f : Application -> Application) :
  (forall a, client (f a) = client a) -> dutiful (modify f).
Proof.
  intros Hc a tr. unfold modify; cbn [fst snd]. split.
  - exists []. now rewrite Hc, app_nil_r.
  - exists []. split; [now rewrite app_nil_r|constructor].
Qed.

Lemma dutiful_emit (e : event) : is_chat e = false -> dutiful (emit e).
Proof.
  intros He a tr. unfold emit; cbn [fst snd]. split.
  - exists []. now rewrite app_nil_r.
  - exists [e]. split; [reflexivity|]. rewrite (chats_other _ He). constructor.
Qed.

Lemma dutiful_index {A} (xs : list A) (i : nat) : dutiful (index xs i).
Proof.
  unfold index. destruct (nth_error xs i); [apply dutiful_ret|apply dutiful_raise].
Qed.

Section Handlers.
Context {U : Unicode} {Sv : Services} {P : Prompts}.

Lemma dutiful_client_ask (prompt : str) : dutiful (client_ask prompt).
Proof.
  intros a tr. rewrite client_ask_eq. cbn [fst snd].
  destruct (ask_shape prompt default_max_retries (client a) tr)
    as (k & new & _ & Hnew & Hch & _ & Hhist).
  split.
  - cbn [set_client client]. rewrite Hhist. eexists. reflexivity.
  - exists new. split; [exact Hnew|]. rewrite Hch.
    apply Forall_forall. intros request Hin.
    apply in_map_iff in Hin as (i & <- & _). cbn [fst].
    exists (repeat (user prompt) i), prompt.
    unfold attempt_messages. f_equal. cbn [repeat]. apply repeat_cons.
Qed.

Lemma dutiful_create_result_interface (result : option str) (prompt : str) :
  dutiful (create_result_interface result prompt).
Proof.
  unfold create_result_interface, clear_window.
  apply dutiful_bind; [apply dutiful_modify; auto|intros _].
  apply dutiful_bind.
  { destruct result; [apply dutiful_ret|apply dutiful_raise]. }
  intros shacl_code.
  apply dutiful_bind; [apply dutiful_modify; auto|intros _].
  apply dutiful_bind; [apply dutiful_get|intros a].
  apply dutiful_modify; auto.
Qed.

Lemma dutiful_create_main_interface : dutiful create_main_interface.
Proof.
  unfold create_main_interface, clear_window.
  apply dutiful_bind; [apply dutiful_modify; auto|intros _].
  apply dutiful_bind; [apply dutiful_get|intros a].
  apply dutiful_bind; [apply dutiful_modify; auto|intros _].
  apply dutiful_modify; auto.
Qed.

Lemma dutiful_process_use_case (new_prompt : option str) :
  dutiful (process_use_case new_prompt).
Proof.
  unfold process_use_case.
  apply dutiful_bind; [apply dutiful_get|intros a].
  apply dutiful_bind; [apply dutiful_modify; auto|intros _].
  apply dutiful_bind; [apply dutiful_get|intros a'].
  destruct (use_case a').
  - now apply dutiful_emit.
  - apply dutiful_bind; [apply dutiful_client_ask|intros r].
    apply dutiful_bind; [apply dutiful_create_result_interface|intros _].
    apply dutiful_modify; auto.
Qed.

Lemma dutiful_describe_entities (text : str) (entities : list str) :
  forall prompt_2 d, dutiful (describe_entities text entities prompt_2 d).
Proof.
  induction entities as [|e es IH]; intros prompt_2 d; cbn [describe_entities].
  - apply dutiful_ret.
  - apply dutiful_bind; [apply dutiful_index|intros tail].
    apply dutiful_bind; [apply dutiful_index|intros first_line].
    apply IH.
Qed.

Lemma dutiful_process_next_step (prompt : str) : dutiful (process_next_step prompt).
Proof.
  unfold process_next_step.
  apply dutiful_bind; [apply dutiful_get|intros a].
  destruct (Z.eqb (current_step a) 1).
  { apply dutiful_bind; [apply dutiful_describe_entities|intros [p2 d]].
    apply dutiful_bind; [apply dutiful_client_ask|intros r].
    apply dutiful_bind; [apply dutiful_create_result_interface|intros _].
    apply dutiful_modify; auto. }
  destruct (Z.eqb (current_step a) 2).
  { apply dutiful_bind; [apply dutiful_client_ask|intros r].
    apply dutiful_bind; [apply dutiful_create_result_interface|intros _].
    apply dutiful_modify; auto. }
  destruct (Z.eqb (current_step a) 3).
  - unfold destroy. apply dutiful_modify; auto.
  - apply dutiful_ret.
Qed.

Lemma dutiful_ask_for_new_prompt (prompt : str) (answer : option str) :
  dutiful (ask_for_new_prompt prompt answer).
Proof.
  unfold ask_for_new_prompt.
  destruct answer as [[|c t]|]; try apply dutiful_ret.
  apply dutiful_bind.
  { intros a tr. unfold modify; cbn [fst snd set_client client]. split.
    - unfold append. cbn [history]. eexists; reflexivity.
    - exists []. split; [now rewrite app_nil_r|constructor]. }
  intros _.
  apply dutiful_bind; [apply dutiful_client_ask|intros r].
  apply dutiful_create_result_interface.
Qed.

Lemma dutiful_handler (act : action) : dutiful (handler act).
Proof.
  destruct act; cbn [handler].
  - apply dutiful_modify; auto.
  - unfold destroy. apply dutiful_modify; auto.
  - apply dutiful_process_use_case.
  - apply dutiful_modify; auto.
  - apply dutiful_create_main_interface.
  - apply dutiful_bind; [apply dutiful_get|intros a]. apply dutiful_process_next_step.
  - apply dutiful_bind; [apply dutiful_get|intros a]. apply dutiful_ask_for_new_prompt.
  - unfold destroy. apply dutiful_modify; auto.
Qed.

Lemma perform_sends (act : action) (a : Application) (tr : trace) :
  sends_history a (fst (perform act (a, tr))) tr (snd (perform act (a, tr))).
Proof.
  unfold perform. cbn [fst snd].
  destruct (enabled a act); [|apply sends_refl].
  pose proof (dutiful_handler act a tr) as H.
  destruct (handler act a tr) as [[r a'] tr']. exact H.
Qed.

(** X10. Whatever the user does and whatever the endpoint answers, the
    history of the client begins with the system message, and every
    request ever sent begins with the system message and ends with a
    message of the user. *)
Theorem requests_well_formed (w : Application * trace) :
  reachable w ->
  (exists rest, history (client (fst w)) = system_message :: rest)
  /\ Forall (fun request => well_formed_request (fst request)) (chats (snd w)).
Proof.
  induction 1 as [|[a tr] act _ [[rest Hh] Hreq] _].
  - split; [now exists []|constructor].
  - cbn [fst snd] in Hh, Hreq.
    destruct (perform_sends act a tr) as ((added & Ha) & (new & Hn & Hf)).
    split.
    + exists (rest ++ added). now rewrite Ha, Hh.
    + rewrite Hn, chats_app. apply Forall_app; split; [exact Hreq|].
      eapply Forall_impl; [|exact Hf].
      intros request (between & prompt & E).
      exists (rest ++ between), prompt. now rewrite E, Hh, <- app_assoc.
Qed.

(** *** Outcomes of the handlers *)

Lemma client_at_0 (prompt : str) (c : OpenAIClient) : client_at prompt c 0 = c.
Proof. destruct c as [h]. unfold client_at. simpl. now rewrite app_nil_r. Qed.

(** The three attempts of a call of [ask] all fail. *)
Lemma ask_exhausted (prompt : str) (c : OpenAIClient) (tr : trace) (e : exn) :
  (forall i, i < 3 -> is_ok (answer prompt c tr i) = false) ->
  answer prompt c tr 2 = Raise e ->
  ask prompt default_max_retries c tr =
    (Raise (exhausted 3 e), client_at prompt c 3,
     tr ++ failures prompt c tr 2 ++ [EChat (attempt_messages c prompt 2) (Raise e)]).
Proof.
  intros Hall Ha.
  assert (Ht : tr = tr ++ failures prompt c tr 0) by (now rewrite app_nil_r).
  assert (Hpos : (1 <= 3)%Z) by lia.
  pose proof (@ask_loop_exhausted _ prompt 3 c tr Hpos e Hall Ha 3 0 eq_refl
                ltac:(lia)) as E.
  rewrite client_at_0, <- Ht in E. exact E.
Qed.

(** A call of [ask] with the default [max_retries] leaves a longer trace. *)
Lemma ask_leaves_request (prompt : str) (c : OpenAIClient) (tr : trace) :
  chat_count tr < chat_count (snd (ask prompt default_max_retries c tr)).
Proof.
  destruct (@ask_counts _ prompt default_max_retries c tr) as (k & new & E & Hk & Hc & _).
  { unfold default_max_retries. lia. }
  rewrite E, chat_count_app. lia.
Qed.

Ltac run_handler :=
  cbv beta iota zeta delta
    [bind get modify ret raise emit client_ask zoom create_result_interface
     clear_window destroy set_client set_use_case set_current_step
     set_use_case_text set_result_text set_window client use_case current_step
     use_case_text result_text window].

Lemma ask_for_new_prompt_eq (prompt new_prompt : str) (a : Application) (tr : trace) :
  new_prompt <> [] ->
  ask_for_new_prompt prompt (Some new_prompt) a tr =
    match ask new_prompt default_max_retries (append (user new_prompt) (client a)) tr with
    | (Ok (Some reply), c', tr') =>
        (Ok tt,
         App c' (use_case a) (current_step a) (use_case_text a)
             (extract_shacl_code reply)
             (ResultScreen (Z.eqb (current_step a) 3) new_prompt),
         tr')
    | (Ok None, c', tr') =>
        (Raise (Exn "TypeError" (lit "expected string or bytes-like object")),
         App c' (use_case a) (current_step a) (use_case_text a) (result_text a) Blank,
         tr')
    | (Raise e, c', tr') =>
        (Raise e,
         App c' (use_case a) (current_step a) (use_case_text a) (result_text a)
             (window a),
         tr')
    end.
Proof.
  intros Hne. destruct new_prompt as [|x t]; [contradiction|].
  destruct a as [c0 uc s ut rt w].
  unfold ask_for_new_prompt. run_handler.
  destruct (ask (x :: t) default_max_retries (append (user (x :: t)) c0) tr)
    as [[[[reply|]|e] c'] tr']; reflexivity.
Qed.

(** X11. The feedback dialog. When it is cancelled or left empty, nothing
    happens. When the user enters a text, the handler appends it to the
    history and [ask] appends it again, so the request carries the text
    twice; when this request is answered, the window shows what
    [extract_shacl_code] finds in the reply, the step is the one it was,
    and the history has gained the text twice and the reply. *)
Theorem feedback_is_sent_twice (prompt new_prompt reply : str) (a : Application)
    (tr : trace) :
  new_prompt <> [] ->
  chat_create (chat_count tr) (history (client a) ++ [user new_prompt; user new_prompt])
    = Ok reply ->
  ask_for_new_prompt prompt None a tr = (Ok tt, a, tr)
  /\ ask_for_new_prompt prompt (Some []) a tr = (Ok tt, a, tr)
  /\ ask_for_new_prompt prompt (Some new_prompt) a tr =
       (Ok tt,
        App (Build (history (client a)
                    ++ [user new_prompt; user new_prompt; assistant reply]))
            (use_case a) (current_step a) (use_case_text a)
            (extract_shacl_code reply)
            (ResultScreen (Z.eqb (current_step a) 3) new_prompt),
        tr ++ [EChat (history (client a) ++ [user new_prompt; user new_prompt])
                     (Ok reply)]).
Proof.
  intros Hne Hc. split; [reflexivity|]. split; [reflexivity|].
  rewrite ask_for_new_prompt_eq by assumption.
  rewrite (@ask_first_try _ new_prompt reply (append (user new_prompt) (client a)) tr).
  - unfold append. cbn [history]. now rewrite <- !app_assoc.
  - unfold append. cbn [history]. now rewrite <- app_assoc.
Qed.

(** X12. Next sends a request exactly when the input is not blank. On an
    input of white space only, it shows the warning and records the empty
    use case; the step, the window and the history are as they were. *)
Theorem next_needs_a_use_case (a : Application) (tr : trace) :
  window a = MainScreen ->
  (forallb isspace (use_case_text a) = true ->
     perform ClickNext (a, tr) =
       (set_use_case [] a,
        tr ++ [EWarning (lit "Input Error") (lit "Please enter a use case.")]))
  /\ (forallb isspace (use_case_text a) = true <->
      chat_count (snd (perform ClickNext (a, tr))) = chat_count tr).
Proof.
  intros Hw.
  assert (E : perform ClickNext (a, tr) =
              (snd (fst (process_use_case None a tr)), snd (process_use_case None a tr))).
  { unfold perform, enabled. cbn [fst snd]. rewrite Hw. cbn [handler].
    now destruct (process_use_case None a tr) as [[r a'] tr']. }
  assert (Hblank : forallb isspace (use_case_text a) = true
                   <-> strip (widget_get (use_case_text a)) = []).
  { rewrite strip_nil_iff. unfold widget_get. rewrite forallb_app. simpl.
    now rewrite andb_true_r. }
  rewrite E, process_use_case_eq. cbv zeta.
  destruct (strip (widget_get (use_case_text a))) as [|c t] eqn:Eu.
  - split; [reflexivity|]. cbn [fst snd]. split.
    + intros _. rewrite chat_count_app. unfold chat_count. simpl. lia.
    + intros _. now apply Hblank.
  - split.
    + intros H. apply Hblank in H. discriminate.
    + pose proof (ask_leaves_request (prompt_1 (c :: t)) (client a) tr) as Hlt.
      destruct (ask (prompt_1 (c :: t)) default_max_retries (client a) tr)
        as [[[[reply|]|e] c'] tr']; cbn [fst snd] in *;
        (split; [intros H; apply Hblank in H; discriminate|intros H; lia]).
Qed.

(** X13. A step whose three requests fail. [process_next_step], at step
    1 (the entities being described) or at step 2, raises the exception of
    [ask]; the step, the window and the text displayed are as they were,
    so that Next Step can be clicked again, but the prompt of the step has
    been appended three times to the history. Three requests have been
    made and ten seconds slept. *)
Theorem failed_step_can_be_repeated (prompt : str) (a : Application) (tr : trace)
    (e : exn) :
  let p := if Z.eqb (current_step a) 1 then prompt_2_of (formatted_response a)
           else prompt_3 (formatted_response a) in
  (current_step a = 1%Z /\ entities_described (formatted_response a)
   \/ current_step a = 2%Z) ->
  (forall i, i < 3 -> is_ok (answer p (client a) tr i) = false) ->
  answer p (client a) tr 2 = Raise e ->
  exists new,
    process_next_step prompt a tr =
      (Raise (exhausted 3 e),
       set_client (Build (history (client a) ++ [user p; user p; user p])) a,
       tr ++ new)
    /\ chat_count new = 3
    /\ slept new = 10%Z.
Proof.
  intros p Hstep Hall Ha.
  exists (failures p (client a) tr 2 ++ [EChat (attempt_messages (client a) p 2) (Raise e)]).
  split; [|split].
  - destruct Hstep as [[Hs Hd]|Hs].
    + rewrite next_step_from_1 by assumption. cbv zeta.
      assert (Ep : prompt_2_of (formatted_response a) = p).
      { unfold p. now rewrite Hs. }
      rewrite Ep, (ask_exhausted p (client a) tr Hall Ha).
      destruct a as [c u s ut rt w]. cbn in Hs. subst s. reflexivity.
    + rewrite next_step_from_2 by assumption. cbv zeta.
      assert (Ep : prompt_3 (formatted_response a) = p).
      { unfold p. now rewrite Hs. }
      rewrite Ep, (ask_exhausted p (client a) tr Hall Ha).
      destruct a as [c u s ut rt w]. cbn in Hs. subst s. reflexivity.
  - rewrite chat_count_app, chat_count_failures. reflexivity.
  - rewrite slept_app, slept_failures. reflexivity.
Qed.

(** *** The entities of step 1 *)

Lemma split_go_occurs (sep s : str) :
  sep <> [] ->
  forall cur, 1 < length (split_go sep s 0 cur) <-> find sep s <> None.
Proof.
  intros Hsep. induction s as [|c t IH]; intros cur.
  - cbn [split_go find]. destruct sep as [|x sep]; [contradiction|].
    simpl. split; [lia|congruence].
  - cbn [split_go find].
    destruct (strip_prefix sep (c :: t)) as [after|].
    + split; [discriminate|]. intros _.
      pose proof (split_go_nonempty sep t (length sep - 1) []). simpl. lia.
    + rewrite IH. destruct (find sep t) as [[b r]|]; split; congruence.
Qed.

(** [s.split(sep)] has a second piece exactly when [sep] occurs in [s]. *)
Lemma split_occurs (sep s : str) :
  sep <> [] -> (1 < length (split sep s) <-> occurs sep s).
Proof.
  intros Hsep. unfold split. rewrite (split_go_occurs s Hsep). split.
  - destruct (find sep s) as [[b r]|] eqn:E; [|congruence].
    intros _. now apply FindProps.find_occurs in E.
  - apply FindProps.find_complete.
Qed.

Lemma describe_entities_raises (text : str) (entities : list str) :
  Exists (fun entity => ~ 1 < length (split (lit "- " ++ entity ++ lit ": ") text))
         entities ->
  forall prompt_2 d a tr,
    describe_entities text entities prompt_2 d a tr =
      (Raise (Exn "IndexError" (lit "list index out of range")), a, tr).
Proof.
  induction entities as [|e es IH]; intros Hex prompt_2 d a tr.
  - inversion Hex.
  - cbn [describe_entities].
    destruct (lt_dec 1 (length (split (lit "- " ++ e ++ lit ": ") text))) as [Hlt|Hge].
    + unfold bind at 1. rewrite (@index_in_range str _ 1 [] a tr Hlt).
      unfold bind at 1.
      rewrite (@index_in_range str _ 0 [] a tr (split_nonempty [nl] _)).
      apply IH. inversion Hex; [contradiction|assumption].
    + unfold bind at 1, index.
      assert (En : nth_error (split (lit "- " ++ e ++ lit ": ") text) 1 = None)
        by (apply nth_error_None; lia).
      now rewrite En.
Qed.

(** X14. The description of the entities at step 1. [process_next_step]
    raises an [IndexError], having sent no request and changed nothing,
    exactly when some entity found in the text displayed (a word between a
    dash with a space and a colon) is nowhere followed by a colon and a
    space. *)
Theorem undescribed_entity_raises (prompt : str) (a : Application) (tr : trace) :
  current_step a = 1%Z ->
  (process_next_step prompt a tr
   = (Raise (Exn "IndexError" (lit "list index out of range")), a, tr))
  <-> (exists entity,
          In entity (findall1 entity_pattern (formatted_response a))
          /\ ~ occurs (lit "- " ++ entity ++ lit ": ") (formatted_response a)).
Proof.
  intros Hs.
  assert (Hsep : forall entity : str, lit "- " ++ entity ++ lit ": " <> [])
    by (intros entity; discriminate).
  destruct (Forall_Exists_dec
              (fun entity =>
                 1 < length (split (lit "- " ++ entity ++ lit ": ") (formatted_response a)))
              (fun entity => lt_dec 1 _)
              (findall1 entity_pattern (formatted_response a))) as [Hall|Hex].
  - split.
    + intros E. exfalso.
      rewrite next_step_from_1 in E by assumption. cbv zeta in E.
      pose proof (ask_leaves_request (prompt_2_of (formatted_response a)) (client a) tr)
        as Hlt.
      destruct (ask (prompt_2_of (formatted_response a)) default_max_retries
                    (client a) tr) as [[[[reply|]|e] c'] tr'];
        cbn [fst snd] in Hlt; apply (f_equal snd) in E; cbn [snd] in E;
        rewrite E in Hlt; lia.
    + intros (entity & Hin & Hno). exfalso. apply Hno.
      rewrite Forall_forall in Hall. apply (split_occurs _ (Hsep entity)).
      now apply Hall.
  - split.
    + intros _. apply Exists_exists in Hex as (entity & Hin & Hno).
      exists entity. split; [exact Hin|].
      intros Ho. apply Hno. now apply (split_occurs _ (Hsep entity)).
    + intros _. unfold process_next_step, bind at 1, get. rewrite Hs.
      cbn [Z.eqb Pos.eqb]. unfold bind at 1.
      now rewrite (@describe_entities_raises (formatted_response a) _ Hex).
Qed.

(** *** What every action keeps *)

Lemma next_step_other (prompt : str) (a : Application) (tr : trace) :
  current_step a <> 1%Z -> current_step a <> 2%Z -> current_step a <> 3%Z ->
  process_next_step prompt a tr = (Ok tt, a, tr).
Proof.
  intros H1 H2 H3. unfold process_next_step, bind at 1, get.
  destruct (Z.eqb_spec (current_step a) 1); [contradiction|].
  destruct (Z.eqb_spec (current_step a) 2); [contradiction|].
  destruct (Z.eqb_spec (current_step a) 3); [contradiction|].
  reflexivity.
Qed.

Lemma strip_widget (s : str) : stripped s -> strip (widget_get s) = s.
Proof.
  intros [Hl Hr]. unfold widget_get, strip.
  destruct s as [|c t]; [reflexivity|].
  pose proof (lstrip_fixed_head Hl) as Hc.
  rewrite lstrip_app. cbn [forallb]. rewrite Hc. cbn [andb]. rewrite Hl.
  rewrite rstrip_app. exact Hr.
Qed.

(** The use case after a handler has run: the one it was, or the input,
    stripped. *)
Lemma handler_keeps (act : action) (a : Application) (tr : trace) :
  use_case (snd (fst (handler act a tr))) = use_case a
  \/ use_case (snd (fst (handler act a tr))) = strip (widget_get (use_case_text a)).
Proof.
  destruct act; cbn [handler].
  - destruct a; cbn; auto.
  - destruct a; cbn; auto.
  - rewrite process_use_case_eq. cbv zeta.
    destruct (strip (widget_get (use_case_text a))) as [|x t] eqn:Eu.
    + destruct a; cbn [fst snd set_use_case use_case]; auto.
    + destruct (ask (prompt_1 (x :: t)) default_max_retries (client a) tr)
        as [[[[reply|]|e] c'] tr']; cbn [fst snd use_case]; auto.
  - destruct a; cbn; auto.
  - destruct a; cbn; auto.
  - change ((a0 <- get ;; process_next_step (shown_prompt a0)) a tr)
      with (process_next_step (shown_prompt a) a tr).
    destruct (Z.eq_dec (current_step a) 1) as [H1|H1].
    { destruct (Forall_Exists_dec
                  (fun entity =>
                     1 < length (split (lit "- " ++ entity ++ lit ": ")
                                       (formatted_response a)))
                  (fun entity => lt_dec 1 _)
                  (findall1 entity_pattern (formatted_response a))) as [Hall|Hex].
      - rewrite next_step_from_1 by assumption. cbv zeta.
        destruct (ask (prompt_2_of (formatted_response a)) default_max_retries
                      (client a) tr)
          as [[[[reply|]|e] c'] tr']; cbn [fst snd use_case]; auto.
      - assert (E : process_next_step (shown_prompt a) a tr
                    = (Raise (Exn "IndexError" (lit "list index out of range")), a, tr)).
        { unfold process_next_step, bind at 1, get. rewrite H1.
          cbn [Z.eqb Pos.eqb]. unfold bind at 1.
          now rewrite (@describe_entities_raises (formatted_response a) _ Hex). }
        rewrite E. cbn [fst snd]. auto. }
    destruct (Z.eq_dec (current_step a) 2) as [H2|H2].
    { rewrite next_step_from_2 by assumption. cbv zeta.
      destruct (ask (prompt_3 (formatted_response a)) default_max_retries (client a) tr)
        as [[[[reply|]|e] c'] tr']; cbn [fst snd use_case]; auto. }
    destruct (Z.eq_dec (current_step a) 3) as [H3|H3].
    { rewrite next_step_from_3 by assumption. destruct a; cbn; auto. }
    rewrite next_step_other by assumption. cbn [fst snd]. auto.
  - change ((a0 <- get ;; ask_for_new_prompt (shown_prompt a0) dialog_answer) a tr)
      with (ask_for_new_prompt (shown_prompt a) dialog_answer a tr).
    destruct dialog_answer as [[|x t]|];
      [cbn [ask_for_new_prompt ret fst snd]; auto| |
       cbn [ask_for_new_prompt ret fst snd]; auto].
    rewrite ask_for_new_prompt_eq by discriminate.
    destruct (ask (x :: t) default_max_retries (append (user (x :: t)) (client a)) tr)
      as [[[[reply|]|e] c'] tr']; cbn [fst snd use_case]; auto.
  - destruct a; cbn; auto.
Qed.

Lemma perform_keeps (act : action) (a : Application) (tr : trace) :
  use_case (fst (perform act (a, tr))) = use_case a
  \/ use_case (fst (perform act (a, tr))) = strip (widget_get (use_case_text a)).
Proof.
  unfold perform. cbn [fst snd].
  destruct (enabled a act); [|cbn [fst]; auto].
  pose proof (handler_keeps act a tr) as H.
  destruct (handler act a tr) as [[r a'] tr']. exact H.
Qed.

Lemma reachable_use_case (w : Application * trace) :
  reachable w -> stripped (use_case (fst w)).
Proof.
  induction 1 as [|[a tr] act _ IH _].
  - split; reflexivity.
  - destruct (perform_keeps act a tr) as [E|E]; rewrite E;
      [exact IH|apply strip_stripped].
Qed.

(** X16. Back, then Next. The use case the wizard keeps has no white
    space at its ends. Back shows the input form again, filled with the
    use case last submitted; it sends nothing and keeps the step and the
    history. What Next then reads from the form is that use case again. *)
Theorem back_restores_use_case (w : Application * trace) (prompt : str) :
  reachable w ->
  window (fst w) = ResultScreen false prompt ->
  stripped (use_case (fst w))
  /\ perform ClickBack w
     = (App (client (fst w)) (use_case (fst w)) (current_step (fst w))
            (use_case (fst w)) (result_text (fst w)) MainScreen,
        snd w)
  /\ strip (widget_get (use_case_text (fst (perform ClickBack w)))) = use_case (fst w).
Proof.
  intros Hr Hw. pose proof (reachable_use_case Hr) as Hs.
  assert (E : perform ClickBack w
              = (App (client (fst w)) (use_case (fst w)) (current_step (fst w))
                     (use_case (fst w)) (result_text (fst w)) MainScreen,
                 snd w)).
  { unfold perform, enabled. rewrite Hw. destruct w as [[c u s ut rt win] tr].
    reflexivity. }
  split; [exact Hs|]. split; [exact E|].
  rewrite E. cbn [fst use_case_text]. now apply strip_widget.
Qed.

End Handlers.

(** Back after Next in the example session, the input having been typed
    with spaces around it. *)
Lemma back_restores_use_case_witness :
  let U := Example.ascii_only in
  let Sv := Example.session in
  let P := Example.prompts in
  let w := perform ClickNext
             (perform (TypeInput (lit "  I have a friend ")) (init, [])) in
  reachable w
  /\ window (fst w) = ResultScreen false (shown_prompt (fst w))
  /\ use_case_text (fst (perform ClickBack w)) = lit "I have a friend".
Proof.
  intros U Sv P w.
  assert (Hr : reachable w).
  { apply reach_step; [apply reach_step; [apply reach_init|reflexivity]|reflexivity]. }
  assert (Hw : window (fst w) = ResultScreen false (shown_prompt (fst w)))
    by (vm_compute; reflexivity).
  split; [exact Hr|]. split; [exact Hw|].
  destruct (@back_restores_use_case U Sv P w (shown_prompt (fst w)) Hr Hw)
    as (_ & E & _).
  rewrite E. vm_compute. reflexivity.
Defined.

(** A feedback in the example session. *)
Lemma feedback_is_sent_twice_witness :
  let U := Example.ascii_only in
  let Sv := Example.session in
  let P := Example.prompts in
  lit "shorter" <> []
  /\ chat_create (chat_count [])
                 (history (client init) ++ [user (lit "shorter"); user (lit "shorter")])
     = Ok (lit "- Person: someone")
  /\ history (client (snd (fst (ask_for_new_prompt [] (Some (lit "shorter")) init []))))
     = [system_message; user (lit "shorter"); user (lit "shorter");
        assistant (lit "- Person: someone")].
Proof.
  intros U Sv P.
  assert (Hne : lit "shorter" <> []) by discriminate.
  assert (Hc : chat_create (chat_count [])
                 (history (client init) ++ [user (lit "shorter"); user (lit "shorter")])
               = Ok (lit "- Person: someone")) by reflexivity.
  split; [exact Hne|]. split; [exact Hc|].
  destruct (@feedback_is_sent_twice Sv [] (lit "shorter") (lit "- Person: someone")
              init [] Hne Hc) as (_ & _ & E).
  rewrite E. reflexivity.
Defined.

(** Next on an input of two spaces. *)
Lemma next_needs_a_use_case_witness :
  let U := Example.ascii_only in
  let Sv := Example.session in
  let P := Example.prompts in
  let a := set_use_case_text (lit "  ") init in
  window a = MainScreen
  /\ chat_count (snd (perform ClickNext (a, []))) = 0.
Proof.
  intros U Sv P a.
  assert (Hw : window a = MainScreen) by reflexivity.
  split; [exact Hw|].
  destruct (@next_needs_a_use_case U Sv P a [] Hw) as (_ & H).
  apply H. reflexivity.
Defined.

(** The second step when the endpoint is down. *)
Lemma failed_step_can_be_repeated_witness :
  let U := Example.ascii_only in
  let Sv := Example.scripted (fun _ => Raise Example.unavailable) (fun _ => true) in
  let P := Example.prompts in
  let a := App Client.init [] 2 [] (lit "- name: Text") (ResultScreen false []) in
  current_step a = 2%Z
  /\ current_step (snd (fst (process_next_step [] a []))) = 2%Z
  /\ window (snd (fst (process_next_step [] a []))) = ResultScreen false []
  /\ length (history (client (snd (fst (process_next_step [] a []))))) = 4.
Proof.
  intros U Sv P a.
  assert (Hs : current_step a = 2%Z) by reflexivity.
  split; [exact Hs|].
  destruct (@failed_step_can_be_repeated U Sv P [] a [] Example.unavailable)
    as (new & E & _).
  - right. exact Hs.
  - intros i Hi. reflexivity.
  - reflexivity.
  - rewrite E. repeat split; reflexivity.
Defined.

(** An entity whose colon is not followed by a space. *)
Lemma undescribed_entity_raises_witness :
  let U := Example.ascii_only in
  let Sv := Example.session in
  let P := Example.prompts in
  let a := App Client.init [] 1 [] (lit "- Person:x") (ResultScreen false []) in
  current_step a = 1%Z
  /\ findall1 entity_pattern (formatted_response a) = [lit "Person"]
  /\ process_next_step [] a []
     = (Raise (Exn "IndexError" (lit "list index out of range")), a, []).
Proof.
  intros U Sv P a.
  assert (Hs : current_step a = 1%Z) by reflexivity.
  assert (Hf : findall1 entity_pattern (formatted_response a) = [lit "Person"])
    by (vm_compute; reflexivity).
  split; [exact Hs|]. split; [exact Hf|].
  apply (proj2 (@undescribed_entity_raises U Sv P [] a [] Hs)).
  exists (lit "Person"). split; [rewrite Hf; now left|].
  intros Ho. apply FindProps.find_complete in Ho. vm_compute in Ho. now apply Ho.
Defined.

(** The request of the example session after Next. *)
Lemma requests_well_formed_witness :
  let U := Example.ascii_only in
  let Sv := Example.session in
  let P := Example.prompts in
  let w := perform ClickNext (perform (TypeInput Example.typed_use_case) (init, [])) in
  reachable w
  /\ length (chats (snd w)) = 1
  /\ Forall (fun request => well_formed_request (fst request)) (chats (snd w)).
Proof.
  intros U Sv P w.
  assert (Hw : reachable w).
  { apply reach_step; [apply reach_step; [apply reach_init|reflexivity]|reflexivity]. }
  split; [exact Hw|]. split; [reflexivity|].
  exact (proj2 (@requests_well_formed U Sv P w Hw)).
Defined.

End WizardMore.

(* ================================================================== *)
(** ** The entities found in a reply *)

Module EntityProps.
Import Re Shacl Wizard Spec Notions ReProps FindProps.

(** Every match the walk of a subject finds is a match at one of its
    positions. *)
Lemma scan_found (r : regex) (s : str) :
  forall pv skip m,
    In (Found m) (scan r pv s skip) ->
    exists pre t pv' fl, s = pre ++ t /\ match_at r fl pv' t = Some m.
Proof.
  induction s as [|c t IH]; intros pv skip m Hin.
  - destruct skip; cbn [scan] in Hin; [|contradiction].
    destruct (match_at r false pv []) as [m0|] eqn:E0; [|contradiction].
    destruct Hin as [Hm|Hin].
    { injection Hm as <-. now exists [], [], pv, false. }
    destruct (whole m0); [|contradiction].
    destruct (match_at r true pv []) as [m2|] eqn:E2; [|contradiction].
    destruct Hin as [Hm|[]]. injection Hm as <-. now exists [], [], pv, true.
  - assert (Hrec : forall pv' skip',
               In (Found m) (scan r pv' t skip') ->
               exists pre u pv'' fl, c :: t = pre ++ u /\ match_at r fl pv'' u = Some m).
    { intros pv' skip' H. destruct (IH _ _ _ H) as (pre & u & pv'' & fl & -> & Hm).
      now exists (c :: pre), u, pv'', fl. }
    destruct skip; cbn [scan] in Hin; [|(eapply Hrec; exact Hin)].
    destruct (match_at r false pv (c :: t)) as [m0|] eqn:E0.
    + destruct Hin as [Hm|Hin].
      { injection Hm as <-. now exists [], (c :: t), pv, false. }
      destruct (whole m0); [|(eapply Hrec; exact Hin)].
      destruct (match_at r true pv (c :: t)) as [m2|] eqn:E2.
      * destruct Hin as [Hm|Hin]; [|(eapply Hrec; exact Hin)].
        injection Hm as <-. now exists [], (c :: t), pv, true.
      * destruct Hin as [Hm|Hin]; [discriminate|(eapply Hrec; exact Hin)].
    + destruct Hin as [Hm|Hin]; [discriminate|(eapply Hrec; exact Hin)].
Qed.

Lemma finditer_found (r : regex) (s : str) (m : rmatch) :
  In m (finditer r s) ->
  exists pre t pv fl, s = pre ++ t /\ match_at r fl pv t = Some m.
Proof.
  intros Hin. unfold finditer in Hin. apply in_flat_map in Hin as ([c|m0] & Hp & Hm).
  - contradiction.
  - destruct Hm as [<-|[]]. now apply (scan_found _ _ _ _ _ Hp).
Qed.

(** A greedy repetition of a class, followed by something that cannot
    begin with a character of the class, reads the longest run. *)
Lemma greedy_try_blocked (q : char -> bool) (k : mstate -> option mstate) :
  (forall pv c t g, q c = true -> k (MState pv (c :: t) g) = None) ->
  forall s pv g,
    greedy_try q k pv s g
    = k (MState (prev_after (takewhile q s) pv) (dropwhile q s) g).
Proof.
  intros Hk. induction s as [|c t IH]; intros pv g; [reflexivity|].
  cbn [greedy_try takewhile dropwhile]. destruct (q c) eqn:E; [|reflexivity].
  rewrite IH. change (prev_after (c :: takewhile q t) pv)
    with (prev_after (takewhile q t) (Some c)).
  destruct (k (MState (prev_after (takewhile q t) (Some c)) (dropwhile q t) g)) eqn:Ek;
    [reflexivity|].
  now apply Hk.
Qed.

Lemma takewhile_forallb (p : char -> bool) (s : str) : forallb p (takewhile p s) = true.
Proof.
  induction s as [|c t IH]; simpl; [reflexivity|].
  destruct (p c) eqn:E; simpl; [now rewrite E|reflexivity].
Qed.

Section WithUnicode.
Context {U : Unicode}.

Lemma colon_not_word (c : char) : char_eqb (ch ":") c = true -> isword c = false.
Proof. intros H. apply N.eqb_eq in H. subst c. reflexivity. Qed.

(** A match of the pattern of the entities: a dash, a space, the longest
    run of word characters, not empty, and a colon. *)
Lemma match_at_entity (fl : bool) (pv : option char) (s : str) (m : rmatch) :
  match_at entity_pattern fl pv s = Some m ->
  exists w t,
    s = lit "- " ++ w ++ ch ":" :: t
    /\ w <> [] /\ forallb isword w = true
    /\ group m 1 = w
    /\ whole m = lit "- " ++ w ++ [ch ":"]
    /\ after m = t.
Proof.
  unfold match_at, entity_pattern. rewrite go_Seq, go_Lit. cbn [rest prev groups].
  destruct (strip_prefix (lit "- ") s) as [r|] eqn:Es; [|discriminate].
  apply strip_prefix_Some in Es. subst s.
  rewrite go_Seq, go_Group. unfold Plus. rewrite go_Seq. unfold word.
  rewrite go_Cls. cbn [rest prev groups].
  destruct r as [|c t]; [discriminate|].
  destruct (isword c) eqn:Ec; [|discriminate].
  rewrite go_Star. cbn [rest]. rewrite star_greedy_try by (cbn [rest]; lia).
  cbn [rest prev groups].
  rewrite greedy_try_blocked.
  2:{ intros pv' x u g Hx. cbn [rest prev groups]. unfold Chr. rewrite go_Cls.
      cbn [rest]. destruct (char_eqb (ch ":") x) eqn:Ex; [|reflexivity].
      apply colon_not_word in Ex. congruence. }
  cbn [rest prev groups]. unfold Chr. rewrite go_Cls. cbn [rest groups].
  destruct (dropwhile isword t) as [|x u] eqn:Ed; [discriminate|].
  destruct (char_eqb (ch ":") x) eqn:Ex; [|discriminate].
  apply N.eqb_eq in Ex. subst x.
  assert (Et : c :: t = (c :: takewhile isword t) ++ ch ":" :: u).
  { cbn [app]. f_equal. rewrite <- Ed. symmetry. apply take_drop. }
  match goal with
  | |- context [if ?b then None else _] => destruct b
  end; [discriminate|].
  intros H. injection H as <-.
  exists (c :: takewhile isword t), u. cbn [rest groups whole after captures group].
  repeat split.
  - now rewrite Et.
  - discriminate.
  - cbn [forallb]. rewrite Ec. apply takewhile_forallb.
  - cbn [set_group filter get_group Nat.eqb]. rewrite Et. apply consumed_app.
  - rewrite Et.
    transitivity (consumed ((lit "- " ++ (c :: takewhile isword t) ++ [ch ":"]) ++ u) u);
      [|apply consumed_app].
    f_equal. now rewrite <- !app_assoc.
Qed.

(** X17. The entities read from the text displayed: each is a run of
    word characters that is not empty, and stands in the text between a
    dash with a space and a colon. *)
Theorem entities_are_words (text entity : str) :
  In entity (findall1 entity_pattern text) ->
  entity <> []
  /\ forallb isword entity = true
  /\ occurs (lit "- " ++ entity ++ lit ":") text.
Proof.
  intros Hin. unfold findall1 in Hin. apply in_map_iff in Hin as (m & <- & Hm).
  apply finditer_found in Hm as (pre & t & pv & fl & -> & Hm).
  apply match_at_entity in Hm as (w & u & -> & Hne & Hw & Hg & _).
  rewrite Hg. split; [exact Hne|]. split; [exact Hw|].
  exists pre, u. now rewrite <- !app_assoc.
Qed.

(** What a repetition of a class has read when the match goes on: a
    run of characters of the class. *)
Lemma star_loop_class_sound (q : char -> bool) (k : mstate -> option mstate)
    (greedy : bool) (fuel : nat) :
  forall s m,
    star_loop (go (Cls q)) k greedy fuel s = Some m ->
    exists run r,
      rest s = run ++ r /\ forallb q run = true
      /\ k (MState (prev_after run (prev s)) r (groups s)) = Some m.
Proof.
  induction fuel as [|fuel IH]; intros s m H.
  - cbn [star_loop] in H. exists [], (rest s). cbn [app forallb prev_after fold_left].
    now rewrite <- mstate_eta.
  - rewrite star_loop_Cls in H. cbv zeta in H.
    assert (Hstay : k s = Some m ->
                    exists run r,
                      rest s = run ++ r /\ forallb q run = true
                      /\ k (MState (prev_after run (prev s)) r (groups s)) = Some m).
    { intros Hk. exists [], (rest s). cbn [app forallb prev_after fold_left].
      now rewrite <- mstate_eta. }
    assert (Hmore : forall c t,
               rest s = c :: t -> q c = true ->
               star_loop (go (Cls q)) k greedy fuel (MState (Some c) t (groups s)) = Some m ->
               exists run r,
                 rest s = run ++ r /\ forallb q run = true
                 /\ k (MState (prev_after run (prev s)) r (groups s)) = Some m).
    { intros c t Er Ec Hs. destruct (IH _ _ Hs) as (run & r & E & Hq & Hk).
      cbn [rest prev groups] in E, Hk.
      exists (c :: run), r. rewrite Er, E. cbn [forallb]. rewrite Ec, Hq.
      repeat split. exact Hk. }
    destruct greedy.
    + destruct (rest s) as [|c t] eqn:Er; [now apply Hstay|].
      destruct (q c) eqn:Ec; [|now apply Hstay].
      destruct (star_loop (go (Cls q)) k true fuel (MState (Some c) t (groups s)))
        as [m'|] eqn:Es; [|now apply Hstay].
      injection H as <-. now apply (Hmore c t).
    + destruct (k s) as [m'|] eqn:Ek; [now apply Hstay|].
      destruct (rest s) as [|c t] eqn:Er; [discriminate|].
      destruct (q c) eqn:Ec; [|discriminate].
      now apply (Hmore c t).
Qed.

(** A match of the pattern of the properties: a dash, a space, a word, a
    colon, a space, a text without newline, and a newline. *)
Lemma match_at_property (fl : bool) (pv : option char) (s : str) (m : rmatch) :
  match_at property_pattern fl pv s = Some m ->
  exists w v t,
    s = lit "- " ++ w ++ lit ": " ++ v ++ nl :: t
    /\ w <> [] /\ forallb isword w = true
    /\ forallb not_newline v = true
    /\ group m 1 = w /\ group m 2 = v.
Proof.
  unfold match_at, property_pattern. rewrite go_Seq, go_Lit. cbn [rest prev groups].
  destruct (strip_prefix (lit "- ") s) as [r|] eqn:Es; [|discriminate].
  apply strip_prefix_Some in Es. subst s.
  rewrite go_Seq, go_Group. unfold Plus, word. rewrite go_Seq, go_Cls.
  cbn [rest prev groups].
  destruct r as [|c t]; [discriminate|].
  destruct (isword c) eqn:Ec; [|discriminate].
  rewrite go_Star.
  match goal with
  | |- match ?x with _ => _ end = _ -> _ => destruct x as [s'|] eqn:E; [|discriminate]
  end.
  intros H. injection H as <-.
  apply star_loop_class_sound in E as (run & r1 & Er & Hrun & E).
  cbn [rest prev groups] in Er, E. subst t.
  rewrite go_Seq, go_Lit in E. cbn [rest prev groups] in E.
  destruct (strip_prefix (lit ": ") r1) as [r2|] eqn:Es; [|discriminate].
  apply strip_prefix_Some in Es. subst r1.
  rewrite go_Seq, go_Group in E. unfold dot in E. rewrite go_Star in E.
  apply star_loop_class_sound in E as (v & r3 & Er & Hv & E).
  cbn [rest prev groups] in Er, E. subst r2.
  unfold Chr in E. rewrite go_Cls in E. cbn [rest groups] in E.
  destruct r3 as [|x u]; [discriminate|].
  destruct (char_eqb nl x) eqn:Ex; [|discriminate].
  apply N.eqb_eq in Ex. subst x.
  match type of E with
  | (if ?b then None else _) = _ => destruct b
  end; [discriminate|].
  injection E as <-.
  exists (c :: run), v, u. cbn [rest groups captures group].
  split; [reflexivity|]. split; [discriminate|].
  split; [cbn [forallb]; now rewrite Ec, Hrun|].
  split; [exact Hv|].
  assert (E1 : consumed (c :: run ++ lit ": " ++ v ++ nl :: u) (lit ": " ++ v ++ nl :: u)
               = c :: run) by (apply (consumed_app (c :: run))).
  assert (E2 : consumed (v ++ nl :: u) (nl :: u) = v) by (apply consumed_app).
  change (58%N :: 32%N :: v ++ nl :: u) with (lit ": " ++ v ++ nl :: u).
  rewrite E1, E2. split; reflexivity.
Qed.

(** X18. The properties read from the text displayed at step 2: each
    is a line of the text, made of a dash, a space, a name, a colon, a
    space and a value up to the end of the line; the name is a run of word
    characters that is not empty, and the value holds no newline. *)
Theorem properties_are_lines (text name value : str) :
  In (name, value) (findall2 property_pattern text) ->
  name <> []
  /\ forallb isword name = true
  /\ ~ In nl value
  /\ occurs (lit "- " ++ name ++ lit ": " ++ value ++ [nl]) text.
Proof.
  intros Hin. unfold findall2 in Hin. apply in_map_iff in Hin as (m & Hp & Hm).
  apply finditer_found in Hm as (pre & t & pv & fl & -> & Hm).
  apply match_at_property in Hm as (w & v & u & -> & Hne & Hw & Hv & Hg1 & Hg2).
  rewrite Hg1, Hg2 in Hp. injection Hp as <- <-.
  split; [exact Hne|]. split; [exact Hw|]. split.
  - intros Hnl. rewrite forallb_forall in Hv. specialize (Hv nl Hnl). discriminate.
  - exists pre, u. now rewrite <- !app_assoc.
Qed.

End WithUnicode.

(** The property of a line. *)
Lemma properties_are_lines_witness :
  let U := Example.ascii_only in
  In (lit "name", lit "Text")
     (findall2 property_pattern (lit "- name: Text" ++ [nl] ++ lit "- age: Number"))
  /\ ~ In nl (lit "Text").
Proof.
  intros U.
  assert (Hin : In (lit "name", lit "Text")
                   (findall2 property_pattern
                      (lit "- name: Text" ++ [nl] ++ lit "- age: Number")))
    by (vm_compute; auto).
  split; [exact Hin|].
  exact (proj1 (proj2 (proj2 (@properties_are_lines U _ (lit "name") (lit "Text") Hin)))).
Defined.

(** The entity of a line. *)
Lemma entities_are_words_witness :
  let U := Example.ascii_only in
  In (lit "Person") (findall1 entity_pattern (lit "- Person: someone"))
  /\ occurs (lit "- Person:") (lit "- Person: someone").
Proof.
  intros U.
  assert (Hin : In (lit "Person") (findall1 entity_pattern (lit "- Person: someone")))
    by (vm_compute; auto).
  split; [exact Hin|].
  exact (proj2 (proj2 (@entities_are_words U (lit "- Person: someone") (lit "Person")
                         Hin))).
Defined.

End EntityProps.
